(** * Lifecycle status of a module version (internal/raw_latest.go)

    A shallow embedding of [isDeprecated], [isRetracted] and
    [RawLatestInfo.PopulateModule], of the Go library functions they call
    ([strings.TrimSpace], [strings.TrimPrefix], [strings.HasPrefix],
    [semver.Compare]), and of the re-fetch protocol exercised by
    internal/worker/refetch_test.go.

    Go strings are byte sequences: they are modelled as [string], whose
    characters are the 8-bit [ascii] values.  A Go pointer that may be nil is
    an [option]; a nil dereference (a run-time panic) is the result [None]. *)

From Stdlib Require Import ZArith NArith Ascii String List Bool Lia.
From stdpp Require Import gmap strings.

Local Open Scope string_scope.

(** ** Byte-level access to Go strings *)

Definition byte_val (c : ascii) : N := N_of_ascii c.

(** [s[i]] for an index known to be in range (0 otherwise). *)
Definition byte_at (s : string) (i : nat) : N :=
  match String.get i s with
  | Some c => byte_val c
  | None => 0%N
  end.

(** [s[n:]] *)
Fixpoint sdrop (n : nat) (s : string) : string :=
  match n, s with
  | O, _ => s
  | S k, String _ s' => sdrop k s'
  | S _, EmptyString => EmptyString
  end.

(** [s[:n]] *)
Fixpoint stake (n : nat) (s : string) : string :=
  match n, s with
  | O, _ => EmptyString
  | S k, String c s' => String c (stake k s')
  | S _, EmptyString => EmptyString
  end.

(** ** unicode/utf8 *)

Module utf8.

Definition RuneError : N := 65533%N.
Definition RuneSelf : N := 128%N.
Definition UTFMax : nat := 4.

(** The information the [first] table holds for a leading byte. *)
Inductive firstInfo : Type :=
| fi_as                              (* ASCII, size 1 *)
| fi_xx                              (* invalid, size 1 *)
| fi_multi (sz : nat) (lo hi : N).   (* size and accept range of byte 2 *)

Definition locb : N := 128%N.
Definition hicb : N := 191%N.

Definition first (b : N) : firstInfo :=
  if (b <? 128)%N then fi_as
  else if (b <? 194)%N then fi_xx
  else if (b <? 224)%N then fi_multi 2 locb hicb
  else if (b =? 224)%N then fi_multi 3 160%N hicb
  else if (b <? 237)%N then fi_multi 3 locb hicb
  else if (b =? 237)%N then fi_multi 3 locb 159%N
  else if (b <? 240)%N then fi_multi 3 locb hicb
  else if (b =? 240)%N then fi_multi 4 144%N hicb
  else if (b <? 244)%N then fi_multi 4 locb hicb
  else if (b =? 244)%N then fi_multi 4 locb 143%N
  else fi_xx.

Definition outside (b lo hi : N) : bool := ((b <? lo) || (hi <? b))%N.

Definition DecodeRuneInString (s : string) : N * nat :=
  let n := String.length s in
  if (n <? 1)%nat then (RuneError, 0%nat)
  else
    let s0 := byte_at s 0 in
    match first s0 with
    | fi_as => (s0, 1%nat)
    | fi_xx => (RuneError, 1%nat)
    | fi_multi sz lo hi =>
        if (n <? sz)%nat then (RuneError, 1%nat)
        else
          let s1 := byte_at s 1 in
          if outside s1 lo hi then (RuneError, 1%nat)
          else if (sz <=? 2)%nat then
            (N.lor (N.shiftl (N.land s0 31) 6) (N.land s1 63), 2%nat)
          else
            let s2 := byte_at s 2 in
            if outside s2 locb hicb then (RuneError, 1%nat)
            else if (sz <=? 3)%nat then
              (N.lor (N.lor (N.shiftl (N.land s0 15) 12)
                            (N.shiftl (N.land s1 63) 6))
                     (N.land s2 63), 3%nat)
            else
              let s3 := byte_at s 3 in
              if outside s3 locb hicb then (RuneError, 1%nat)
              else
                (N.lor (N.lor (N.lor (N.shiftl (N.land s0 7) 18)
                                     (N.shiftl (N.land s1 63) 12))
                              (N.shiftl (N.land s2 63) 6))
                       (N.land s3 63), 4%nat)
    end.

Definition RuneStart (b : N) : bool := negb (N.land b 192 =? 128)%N.

(** The backwards scan of [DecodeLastRuneInString]:
    [for start--; start >= lim; start-- { if RuneStart(s[start]) { break } }]
    entered with [start] already decremented. *)
Fixpoint scanStart (s : string) (start lim : Z) (steps : nat) : Z :=
  match steps with
  | O => start
  | S k =>
      if (start <? lim)%Z then start
      else if RuneStart (byte_at s (Z.to_nat start)) then start
      else scanStart s (start - 1)%Z lim k
  end.

Definition DecodeLastRuneInString (s : string) : N * nat :=
  let e := Z.of_nat (String.length s) in
  if (e =? 0)%Z then (RuneError, 0%nat)
  else
    let start := (e - 1)%Z in
    let r := byte_at s (Z.to_nat start) in
    if (r <? RuneSelf)%N then (r, 1%nat)
    else
      let lim := Z.max 0 (e - Z.of_nat UTFMax) in
      let start := scanStart s (start - 1)%Z lim UTFMax in
      let start := if (start <? 0)%Z then 0%Z else start in
      let '(r, size) := DecodeRuneInString (sdrop (Z.to_nat start) s) in
      if negb (start + Z.of_nat size =? e)%Z then (RuneError, 1%nat)
      else (r, size).

End utf8.

(** ** unicode *)

Module unicode.

(** [unicode.IsSpace]: the Latin-1 cases and the White_Space range table. *)
Definition IsSpace (r : N) : bool :=
  if (r <=? 255)%N then
    ((9 <=? r) && (r <=? 13) || (r =? 32) || (r =? 133) || (r =? 160))%N
  else
    ((r =? 5760) || (8192 <=? r) && (r <=? 8202) || (r =? 8232) || (r =? 8233)
     || (r =? 8239) || (r =? 8287) || (r =? 12288))%N.

End unicode.

(** ** strings *)

Module strings.

Definition HasPrefix (s prefix : string) : bool :=
  (String.length prefix <=? String.length s)%nat
  && String.eqb (stake (String.length prefix) s) prefix.

Definition TrimPrefix (s prefix : string) : string :=
  if HasPrefix s prefix then sdrop (String.length prefix) s else s.

(** [indexFunc]: [for i, r := range s { if f(r) == truth { return i } }].
    [skip] counts the remaining bytes of the rune being stepped over. *)
Fixpoint indexFunc_from (f : N -> bool) (truth : bool)
    (s : string) (i skip : nat) : option nat :=
  match s with
  | EmptyString => None
  | String c s' =>
      match skip with
      | S k => indexFunc_from f truth s' (S i) k
      | O =>
          let '(r, wid) :=
            if (byte_val c <? utf8.RuneSelf)%N then (byte_val c, 1%nat)
            else utf8.DecodeRuneInString s in
          if Bool.eqb (f r) truth then Some i
          else indexFunc_from f truth s' (S i) (wid - 1)
      end
  end.

Definition indexFunc (s : string) (f : N -> bool) (truth : bool) : option nat :=
  indexFunc_from f truth s 0 0.

(** [lastIndexFunc]:
    [for i := len(s); i > 0; { r, size := DecodeLastRuneInString(s[0:i]);
       i -= size; if f(r) == truth { return i } }]. *)
Fixpoint lastIndexFunc_from (f : N -> bool) (truth : bool)
    (s : string) (i skip : nat) : option nat :=
  match i with
  | O => None
  | S k =>
      match skip with
      | S j => lastIndexFunc_from f truth s k j
      | O =>
          let '(r, size) := utf8.DecodeLastRuneInString (stake i s) in
          if Bool.eqb (f r) truth then Some (i - size)%nat
          else lastIndexFunc_from f truth s k (size - 1)
      end
  end.

Definition lastIndexFunc (s : string) (f : N -> bool) (truth : bool) : option nat :=
  lastIndexFunc_from f truth s (String.length s) 0.

Definition TrimLeftFunc (s : string) (f : N -> bool) : string :=
  match indexFunc s f false with
  | None => EmptyString
  | Some i => sdrop i s
  end.

Definition TrimRightFunc (s : string) (f : N -> bool) : string :=
  match lastIndexFunc s f false with
  | Some i =>
      if (utf8.RuneSelf <=? byte_at s i)%N then
        let '(_, wid) := utf8.DecodeRuneInString (sdrop i s) in
        stake (i + wid) s
      else stake (S i) s
  | None => stake 0 s
  end.

Definition TrimFunc (s : string) (f : N -> bool) : string :=
  TrimRightFunc (TrimLeftFunc s f) f.

Definition asciiSpace (b : N) : bool :=
  ((b =? 9) || (b =? 10) || (b =? 11) || (b =? 12) || (b =? 13) || (b =? 32))%N.

(** Second loop of [TrimSpace], on [t = s[start:]]: [stop] runs down from
    [len(t)]. *)
Fixpoint trimSpaceStop (t : string) (stop : nat) : string :=
  match stop with
  | O => EmptyString
  | S k =>
      let c := byte_at t k in
      if (utf8.RuneSelf <=? c)%N then TrimRightFunc (stake stop t) unicode.IsSpace
      else if asciiSpace c then trimSpaceStop t k
      else stake stop t
  end.

(** [TrimSpace]: the first loop walks [start] forward, which is the
    recursion on [s]; at a non-space ASCII byte it hands [s[start:]] to the
    second loop. *)
Fixpoint TrimSpace (s : string) : string :=
  match s with
  | EmptyString => EmptyString
  | String c s' =>
      if (utf8.RuneSelf <=? byte_val c)%N then TrimFunc s unicode.IsSpace
      else if asciiSpace (byte_val c) then TrimSpace s'
      else trimSpaceStop s (String.length s)
  end.

End strings.


(** ** golang.org/x/mod/semver *)

Module semver.

Record parsed : Type := mkParsed {
  major : string;
  minor : string;
  patch : string;
  short : string;
  prerelease : string;
  build : string
}.

Definition isDigit (c : ascii) : bool :=
  ((48 <=? byte_val c) && (byte_val c <=? 57))%N.

(** Length of the longest prefix of digits:
    [for i < len(v) && '0' <= v[i] && v[i] <= '9' { i++ }]. *)
Fixpoint digitsLen (v : string) : nat :=
  match v with
  | String c v' => if isDigit c then S (digitsLen v') else O
  | EmptyString => O
  end.

Definition parseInt (v : string) : option (string * string) :=
  match v with
  | EmptyString => None
  | String c _ =>
      if negb (isDigit c) then None
      else
        let i := digitsLen v in
        if (byte_val c =? 48)%N && negb (i =? 1)%nat then None
        else Some (stake i v, sdrop i v)
  end.

Definition isIdentChar (c : ascii) : bool :=
  let b := byte_val c in
  ((65 <=? b) && (b <=? 90) || (97 <=? b) && (b <=? 122)
   || (48 <=? b) && (b <=? 57) || (b =? 45))%N.

Definition isBadNum (v : string) : bool :=
  let i := digitsLen v in
  (i =? String.length v)%nat && (1 <? i)%nat && (byte_at v 0 =? 48)%N.

Definition isNum (v : string) : bool :=
  (digitsLen v =? String.length v)%nat.

(** [v[a:b]] *)
Definition slice (v : string) (a b : nat) : string := stake (b - a) (sdrop a v).

(** The loop of [parsePrerelease]; [rest] is [v[i:]].  The result is the
    pair [(i, start)] at the loop exit, or [None] where the loop returns
    [ok = false]. *)
Fixpoint prereleaseScan (v rest : string) (i start : nat) : option (nat * nat) :=
  match rest with
  | EmptyString => Some (i, start)
  | String c rest' =>
      if (byte_val c =? 43)%N then Some (i, start)
      else if negb (isIdentChar c) && negb (byte_val c =? 46)%N then None
      else if (byte_val c =? 46)%N then
        if (start =? i)%nat || isBadNum (slice v start i) then None
        else prereleaseScan v rest' (S i) (S i)
      else prereleaseScan v rest' (S i) start
  end.

Definition parsePrerelease (v : string) : option (string * string) :=
  match v with
  | EmptyString => None
  | String c v' =>
      if negb (byte_val c =? 45)%N then None
      else
        match prereleaseScan v v' 1 1 with
        | None => None
        | Some (i, start) =>
            if (start =? i)%nat || isBadNum (slice v start i) then None
            else Some (stake i v, sdrop i v)
        end
  end.

(** The loop of [parseBuild], as [prereleaseScan] without the stop at '+'
    and without the numeric check. *)
Fixpoint buildScan (rest : string) (i start : nat) : option (nat * nat) :=
  match rest with
  | EmptyString => Some (i, start)
  | String c rest' =>
      if negb (isIdentChar c) && negb (byte_val c =? 46)%N then None
      else if (byte_val c =? 46)%N then
        if (start =? i)%nat then None else buildScan rest' (S i) (S i)
      else buildScan rest' (S i) start
  end.

Definition parseBuild (v : string) : option (string * string) :=
  match v with
  | EmptyString => None
  | String c v' =>
      if negb (byte_val c =? 43)%N then None
      else
        match buildScan v' 1 1 with
        | None => None
        | Some (i, start) =>
            if (start =? i)%nat then None else Some (stake i v, sdrop i v)
        end
  end.

Definition startsWith (b : N) (v : string) : bool :=
  match v with
  | String c _ => (byte_val c =? b)%N
  | EmptyString => false
  end.

(** The tail of [parse], after the patch number. *)
Definition parseTail (ma mi pa v : string) : option parsed :=
  match (if startsWith 45 v then parsePrerelease v else Some (EmptyString, v)) with
  | None => None
  | Some (pre, v) =>
      match (if startsWith 43 v then parseBuild v else Some (EmptyString, v)) with
      | None => None
      | Some (bu, v) =>
          if negb (String.eqb v EmptyString) then None
          else Some (mkParsed ma mi pa EmptyString pre bu)
      end
  end.

Definition parse (v : string) : option parsed :=
  match v with
  | EmptyString => None
  | String c v1 =>
      if negb (byte_val c =? 118)%N then None
      else
        match parseInt v1 with
        | None => None
        | Some (ma, v) =>
            if String.eqb v EmptyString
            then Some (mkParsed ma "0" "0" ".0.0" EmptyString EmptyString)
            else if negb (startsWith 46 v) then None
            else
              match parseInt (sdrop 1 v) with
              | None => None
              | Some (mi, v) =>
                  if String.eqb v EmptyString
                  then Some (mkParsed ma mi "0" ".0" EmptyString EmptyString)
                  else if negb (startsWith 46 v) then None
                  else
                    match parseInt (sdrop 1 v) with
                    | None => None
                    | Some (pa, v) => parseTail ma mi pa v
                    end
              end
        end
  end.

Definition IsValid (v : string) : bool :=
  match parse v with Some _ => true | None => false end.

Definition Canonical (v : string) : string :=
  match parse v with
  | None => EmptyString
  | Some p =>
      if negb (String.eqb (build p) EmptyString)
      then stake (String.length v - String.length (build p)) v
      else if negb (String.eqb (short p) EmptyString) then v ++ short p
      else v
  end.

Definition compareInt (x y : string) : Z :=
  if String.eqb x y then 0%Z
  else if (String.length x <? String.length y)%nat then (-1)%Z
  else if (String.length y <? String.length x)%nat then 1%Z
  else if String.ltb x y then (-1)%Z
  else 1%Z.

(** Length of the identifier at the head of [x]:
    [for i < len(x) && x[i] != '.' { i++ }]. *)
Fixpoint identLen (x : string) : nat :=
  match x with
  | String c x' => if (byte_val c =? 46)%N then O else S (identLen x')
  | EmptyString => O
  end.

Definition nextIdent (x : string) : string * string :=
  let i := identLen x in (stake i x, sdrop i x).

(** The loop of [comparePrerelease] and the return after it.  Every
    iteration drops at least one byte of [x]; [fuel] bounds the number of
    iterations and [String.length x] of it is enough
    (see [prereleaseLoop_fuel]). *)
Fixpoint prereleaseLoop (fuel : nat) (x y : string) : Z :=
  if String.eqb x EmptyString || String.eqb y EmptyString then
    if String.eqb x EmptyString then (-1)%Z else 1%Z
  else
    match fuel with
    | O => 0%Z
    | S k =>
        let '(dx, x') := nextIdent (sdrop 1 x) in
        let '(dy, y') := nextIdent (sdrop 1 y) in
        if negb (String.eqb dx dy) then
          let ix := isNum dx in
          let iy := isNum dy in
          if negb (Bool.eqb ix iy) then (if ix then (-1)%Z else 1%Z)
          else if ix && (String.length dx <? String.length dy)%nat then (-1)%Z
          else if ix && (String.length dy <? String.length dx)%nat then 1%Z
          else if String.ltb dx dy then (-1)%Z
          else 1%Z
        else prereleaseLoop k x' y'
    end.

Definition comparePrerelease (x y : string) : Z :=
  if String.eqb x y then 0%Z
  else if String.eqb x EmptyString then 1%Z
  else if String.eqb y EmptyString then (-1)%Z
  else prereleaseLoop (String.length x) x y.

Definition Compare (v w : string) : Z :=
  match parse v, parse w with
  | None, None => 0%Z
  | None, Some _ => (-1)%Z
  | Some _, None => 1%Z
  | Some pv, Some pw =>
      let c := compareInt (major pv) (major pw) in
      if negb (c =? 0)%Z then c
      else
        let c := compareInt (minor pv) (minor pw) in
        if negb (c =? 0)%Z then c
        else
          let c := compareInt (patch pv) (patch pw) in
          if negb (c =? 0)%Z then c
          else comparePrerelease (prerelease pv) (prerelease pw)
  end.

End semver.


(** ** golang.org/x/mod/modfile: the syntax tree a parsed go.mod exposes *)

Module modfile.

Record Position : Type := mkPosition {
  Pos_Line : Z;
  Pos_LineRune : Z;
  Pos_Byte : Z
}.

Record Comment : Type := mkComment {
  Comment_Start : Position;
  Token : string;          (* without the trailing newline *)
  Comment_Suffix : bool    (* an end-of-line comment *)
}.

Record Comments : Type := mkComments {
  Before : list Comment;   (* whole-line comments before the expression *)
  Suffix : list Comment;   (* end-of-line comments after the expression *)
  After : list Comment
}.

(** [Line] embeds [Comments]. *)
Record Line : Type := mkLine {
  Line_Comments : Comments;
  Line_Start : Position;
  Line_Token : list string;
  Line_InBlock : bool;
  Line_End : Position
}.

(** [Module]; [Syntax] is a [*Line]. *)
Record Module_ : Type := mkModule {
  Mod_Path : string;
  Mod_Syntax : option Line
}.

(** [Retract] embeds [VersionInterval]; [Syntax] is a [*Line]. *)
Record Retract : Type := mkRetract {
  Low : string;
  High : string;
  Rationale : string;
  Retract_Syntax : option Line
}.

(** [File]: [Module] is a [*Module], [Retract] a [[]*Retract]. *)
Record File : Type := mkFile {
  File_Module : option Module_;
  File_Retract : list (option Retract)
}.

End modfile.

(** ** package internal *)

Module internal.

Import modfile.

(** Modelled from the spec: the declaration of [internal.Module] is not
    among the source files.  The record holds the fields [PopulateModule]
    reads and writes (the version of the key and the four fields of the
    spec's LifecycleStatus); [Rest] stands for every other field, of an
    arbitrary type [R]. *)
Record Module_ (R : Type) : Type := mkModule {
  Version : string;
  Deprecated : bool;
  DeprecationComment : string;
  Retracted : bool;
  RetractionRationale : string;
  Rest : R
}.

Arguments mkModule {R}.
Arguments Version {R}.
Arguments Deprecated {R}.
Arguments DeprecationComment {R}.
Arguments Retracted {R}.
Arguments RetractionRationale {R}.
Arguments Rest {R}.

(** [GoModFile] is a [*modfile.File]. *)
Record RawLatestInfo : Type := mkRawLatestInfo {
  ModulePath : string;
  RawVersion : string;     (* the field [Version] of [RawLatestInfo] *)
  GoModFile : option File
}.

Definition prefix : string := "Deprecated:".

(** The text the loop of [isDeprecated] tests:
    [strings.TrimSpace(strings.TrimPrefix(comment.Token, "//"))]. *)
Definition commentText (comment : Comment) : string :=
  strings.TrimSpace (strings.TrimPrefix (Token comment) "//").

(** The [for ... range] loop of [isDeprecated] with the return after it. *)
Fixpoint isDeprecated_range (comments : list Comment) : bool * string :=
  match comments with
  | [] => (false, "")
  | comment :: rest =>
      let text := commentText comment in
      if strings.HasPrefix text prefix
      then (true, strings.TrimSpace (sdrop (String.length prefix) text))
      else isDeprecated_range rest
  end.

(** [isDeprecated]; [None] is the panic of a nil dereference ([mf] itself, or
    [mf.Module.Syntax]). *)
Definition isDeprecated (mf : option File) : option (bool * string) :=
  f ← mf;
  match File_Module f with
  | None => Some (false, "")
  | Some md =>
      syntax ← Mod_Syntax md;
      Some (isDeprecated_range
              (Before (Line_Comments syntax) ++ Suffix (Line_Comments syntax)))
  end.

(** The condition of the loop of [isRetracted]. *)
Definition inInterval (resolvedVersion : string) (r : Retract) : bool :=
  (0 <=? semver.Compare resolvedVersion (Low r))%Z
  && (semver.Compare resolvedVersion (High r) <=? 0)%Z.

(** The [for ... range] loop of [isRetracted] with the return after it; a
    nil element panics when the loop reaches it. *)
Fixpoint isRetracted_range (retracts : list (option Retract))
    (resolvedVersion : string) : option (bool * string) :=
  match retracts with
  | [] => Some (false, "")
  | None :: _ => None
  | Some r :: rest =>
      if inInterval resolvedVersion r then Some (true, Rationale r)
      else isRetracted_range rest resolvedVersion
  end.

Definition isRetracted (mf : option File) (resolvedVersion : string)
  : option (bool * string) :=
  f ← mf;
  isRetracted_range (File_Retract f) resolvedVersion.

(** How a call that updates its argument in place ends: it returns, or it
    panics; either way [a] is the state of the updated object at that
    point. *)
Inductive outcome (A : Type) : Type :=
| Returned (a : A)
| Panicked (a : A).

Arguments Returned {A}.
Arguments Panicked {A}.

Definition final {A : Type} (o : outcome A) : A :=
  match o with Returned a => a | Panicked a => a end.

(** [PopulateModule]: the two assignments, in order, on the module [m]
    points to; each right-hand side is evaluated before its assignment. *)
Definition PopulateModule {R : Type} (r : RawLatestInfo) (m : Module_ R)
  : outcome (Module_ R) :=
  match isDeprecated (GoModFile r) with
  | None => Panicked m
  | Some (d, dc) =>
      let m := mkModule (Version m) d dc (Retracted m) (RetractionRationale m) (Rest m) in
      match isRetracted (GoModFile r) (Version m) with
      | None => Panicked m
      | Some (t, tr) =>
          Returned (mkModule (Version m) (Deprecated m) (DeprecationComment m) t tr (Rest m))
      end
  end.

End internal.

(** ** package derrors *)

Module derrors.

(** Modelled from the spec: package derrors is not among the source files.
    The error taxonomy of the spec (section 7) as a closed enumeration of
    kinds; an error value is a sentinel of one kind, possibly wrapped with
    context; [Is] is [errors.Is], which unwraps until it meets the target. *)
Inductive Kind : Type :=
| FetchFailed
| ExtractionFailed
| ValidationRejected
| StorageUnavailable.

(** Modelled from the spec: an error value of package derrors (absent from
    the source files), a sentinel or an error wrapping another one. *)
Inductive error : Type :=
| Sentinel (k : Kind)
| Wrap (context : string) (err : error).

#[global] Instance Kind_eq_dec : EqDecision Kind.
Proof. solve_decision. Defined.

#[global] Instance error_eq_dec : EqDecision error.
Proof. solve_decision. Defined.

(** Modelled from the spec: [derrors.DBModuleInsertInvalid] (absent from the
    source files), the "insert invalid" sentinel the test compares against. *)
Definition DBModuleInsertInvalid : error := Sentinel ValidationRejected.

(** Modelled from the spec: the identity/kind comparison of section 6,
    [errors.Is] in the test: [err] or an error it wraps is [target]. *)
Fixpoint Is (err target : error) : bool :=
  bool_decide (err = target)
  || match err with
     | Sentinel _ => false
     | Wrap _ inner => Is inner target
     end.

End derrors.

(** ** The version store and the ingestion of one module version *)

Module worker.

Import derrors.

(** Modelled from the spec: packages internal/postgres, internal/fetch and
    the non-test files of internal/worker are not among the source files,
    nor are the declarations of [internal.Unit], [internal.Readme] and
    [internal.Documentation].  The records have the fields the test
    compares; a zero [CommitTime] is [None]. *)
Record Readme : Type := mkReadme {
  Filepath : string;
  Contents : string
}.

(** Modelled from the spec: [internal.Documentation] (absent from the
    source files), with the fields the test sets. *)
Record Documentation : Type := mkDocumentation {
  Synopsis : string;
  HTML : string;
  GOOS : string;
  GOARCH : string
}.

(** Modelled from the spec: [licenses.Metadata] (absent from the source
    files), with the fields the test sets. *)
Record LicenseMetadata : Type := mkLicenseMetadata {
  Types : list string;
  FilePath : string
}.

(** Modelled from the spec: [internal.Unit] with its [UnitMeta] (absent
    from the source files): the UnitRecord of section 3. *)
Record Unit : Type := mkUnit {
  Path : string;
  Name : string;
  UnitModulePath : string;
  UnitVersion : string;
  CommitTime : option Z;
  IsRedistributable : bool;
  SourceInfo : string;
  Licenses : list LicenseMetadata;
  UnitReadme : option Readme;
  UnitDocumentation : option Documentation
}.

(** The stored record of a key: the module-level record with its lifecycle
    status, [Rest] being the unit set. *)
Abbreviation StoredModule := (internal.Module_ (list Unit)).

(** The key: (module path, version). *)
Abbreviation Key := (string * string)%type.

Abbreviation Store := (gmap (string * string) (internal.Module_ (list Unit))).

(** Modelled from the spec: a mandatory field (module path, version,
    commit time) of the unit is missing (section 4.3; the check itself is
    absent from the source files). *)
Definition missingMandatory (u : Unit) : bool :=
  String.eqb (UnitModulePath u) "" || String.eqb (UnitVersion u) ""
  || match CommitTime u with None => true | Some _ => false end.

(** Modelled from the spec: the unit set stored under a key, empty for an
    absent key (the store is absent from the source files). *)
Definition storedUnits (st : Store) (key : Key) : list Unit :=
  match st !! key with
  | Some m => internal.Rest m
  | None => []
  end.

(** Modelled from the spec: the reader the test uses ([GetUnitMeta],
    [GetUnit]): the unit of a path under a key, if it is visible. *)
Definition GetUnit (st : Store) (key : Key) (path : string) : option Unit :=
  find (fun u => String.eqb (Path u) path) (storedUnits st key).

Section Policy.

(** Section 9 of the spec leaves open when a non-empty, well-formed
    candidate set still counts as a regression from the stored set (the
    test's last step, which re-fetches fewer packages than are stored, is
    one such case): that part of the validity rule is the parameter
    [regresses], given the stored set and the candidate set. *)
Variable regresses : list Unit -> list Unit -> bool.

(** Modelled from the spec: the validity rule of section 4.3.  A candidate
    set is degenerate relative to the stored set when it is empty, when a
    unit lacks a mandatory field (module path, version, commit time), or
    when it regresses from the stored set. *)
Definition degenerate (stored candidate : list Unit) : bool :=
  match candidate with [] => true | _ => false end
  || existsb missingMandatory candidate
  || regresses stored candidate.

(** Modelled from the spec: [Replace] of section 4.3.  For a key stored with
    a non-empty unit set a degenerate candidate is rejected and the store is
    returned as it was; otherwise the candidate record becomes the record of
    the key. *)
Definition Replace (st : Store) (key : Key) (candidate : StoredModule)
  : Store * option error :=
  let stored := storedUnits st key in
  if negb (match stored with [] => true | _ => false end)
     && degenerate stored (internal.Rest candidate)
  then (st, Some (Wrap "insert module" DBModuleInsertInvalid))
  else (<[key := candidate]> st, None).

(** Modelled from the spec: [Ingest] of section 4.2 ([FetchAndUpdateState] in
    the test).  [fetch] is the Fetcher and [extract] the MetadataExtractor,
    which yields the candidate units and the ManifestInfo (the code's
    [RawLatestInfo]); step 3 is [PopulateModule] on the candidate record of
    the key; a panic there ends the call without a result ([None]). *)
Definition FetchAndUpdateState {Raw : Type}
    (fetch : Key -> option Raw)
    (extract : Raw -> option (list Unit * internal.RawLatestInfo))
    (st : Store) (key : Key) : option (Store * option error) :=
  match fetch key with
  | None => Some (st, Some (Wrap "fetch" (Sentinel FetchFailed)))
  | Some raw =>
      match extract raw with
      | None => Some (st, Some (Wrap "extract" (Sentinel ExtractionFailed)))
      | Some (units, info) =>
          match internal.PopulateModule info
                  (internal.mkModule key.2 false "" false "" units) with
          | internal.Returned m => Some (Replace st key m)
          | internal.Panicked _ => None
          end
      end
  end.

End Policy.

End worker.

(** ** Well-formedness and sample data *)

(** What [modfile.Parse] guarantees of the file it returns: a module
    declaration carries its syntax line, and no retract entry is nil. *)
Definition parsed (f : modfile.File) : bool :=
  match modfile.File_Module f with
  | None => true
  | Some md => match modfile.Mod_Syntax md with Some _ => true | None => false end
  end
  && forallb (fun r : option modfile.Retract =>
                match r with Some _ => true | None => false end)
             (modfile.File_Retract f).

Definition pos0 : modfile.Position := modfile.mkPosition 0 0 0.

Definition lineComment (tok : string) : modfile.Comment :=
  modfile.mkComment pos0 tok false.

Definition moduleLine (before suffix : list modfile.Comment) : modfile.Line :=
  modfile.mkLine (modfile.mkComments before suffix []) pos0
    ["module"; "example.com/m"] false pos0.

Definition moduleDecl (before suffix : list modfile.Comment) : modfile.Module_ :=
  modfile.mkModule "example.com/m" (Some (moduleLine before suffix)).

Definition retract (low high rationale : string) : option modfile.Retract :=
  Some (modfile.mkRetract low high rationale None).

(** A go.mod whose module line has one plain comment and one deprecation
    notice before it, a second notice next to it, and two overlapping
    retract directives. *)
Definition sampleFile : modfile.File :=
  modfile.mkFile
    (Some (moduleDecl
             [lineComment "// Module m."; lineComment "// Deprecated: use baz instead"]
             [lineComment "// Deprecated: gone"]))
    [retract "v1.0.0" "v1.2.0" "bug"; retract "v1.1.0" "v1.5.0" "security"].

(** [retract [1.0.0, 1.2.0]] with rationale "bug", the versions written in
    the module form (leading v) and as bare numbers. *)
Definition retractBug : modfile.File :=
  modfile.mkFile None [retract "v1.0.0" "v1.2.0" "bug"].

Definition retractBugBare : modfile.File :=
  modfile.mkFile None [retract "1.0.0" "1.2.0" "bug"].

Definition sampleModule (version : string) : internal.Module_ (list string) :=
  internal.mkModule version false "" false "" ["LICENSE"].

(** The module, the version and the two packages of the re-fetch test. *)
Definition sampleKey : string * string := ("github.com/valid/module_name", "v1.0.0").

Definition sampleUnit (name html : string) : worker.Unit :=
  worker.mkUnit ("github.com/valid/module_name/" ++ name) name
    "github.com/valid/module_name" "v1.0.0" (Some 1548806400%Z) true
    "https://github.com/valid/module_name"
    [worker.mkLicenseMetadata ["MIT"] "LICENSE"]
    (Some (worker.mkReadme "README.md" "This is a readme"))
    (Some (worker.mkDocumentation ("Package " ++ name) html "linux" "amd64")).

Definition unitFoo : worker.Unit := sampleUnit "foo" "const Foo = 42".
Definition unitFooOld : worker.Unit := sampleUnit "foo" "".
Definition unitBar : worker.Unit := sampleUnit "bar" "const Bar = 21".

Definition sampleInfo : internal.RawLatestInfo :=
  internal.mkRawLatestInfo "github.com/valid/module_name" "v1.0.0"
    (Some (modfile.mkFile (Some (moduleDecl [] [])) [])).

(** The fake proxy of the test: it serves one module version, here already
    in the form the extractor hands on. *)
Definition proxy (units : list worker.Unit) (key : string * string)
  : option (list worker.Unit * internal.RawLatestInfo) :=
  if bool_decide (key = sampleKey) then Some (units, sampleInfo) else None.

Definition extractAll (raw : list worker.Unit * internal.RawLatestInfo)
  : option (list worker.Unit * internal.RawLatestInfo) := Some raw.

(** A regression policy under which the test's last step is rejected: a
    stored unit has no unit of the same path in the candidate set. *)
Definition dropsStoredUnit (stored candidate : list worker.Unit) : bool :=
  existsb (fun u =>
             negb (existsb (fun c => String.eqb (worker.Path c) (worker.Path u))
                     candidate))
          stored.

(** The sentinel at the root of a chain of wrapped errors. *)
Fixpoint rootKind (e : derrors.error) : derrors.Kind :=
  match e with
  | derrors.Sentinel k => k
  | derrors.Wrap _ inner => rootKind inner
  end.

(** Every byte of [s] is one of the six ASCII white-space bytes
    (tab, line feed, vertical tab, form feed, carriage return, space). *)
Fixpoint allSpace (s : string) : bool :=
  match s with
  | EmptyString => true
  | String c s' => strings.asciiSpace (byte_val c) && allSpace s'
  end.

(** An ASCII byte that is not white space. *)
Definition plainByte (b : N) : bool :=
  (b <? utf8.RuneSelf)%N && negb (strings.asciiSpace b).

(** [t] is empty, or its first and its last byte are ASCII and not white
    space (the bytes between them are arbitrary). *)
Definition cleanEnds (t : string) : bool :=
  match t with
  | EmptyString => true
  | String c _ =>
      plainByte (byte_val c) && plainByte (byte_at t (String.length t - 1))
  end.

(** The comparison [comparePrerelease] makes of two different identifiers
    [dx] and [dy] inside its loop (the body of [if dx != dy]), named to state
    facts about the loop. *)
Definition cmpIdent (dx dy : string) : Z :=
  let ix := semver.isNum dx in
  let iy := semver.isNum dy in
  if negb (Bool.eqb ix iy) then (if ix then (-1)%Z else 1%Z)
  else if ix && (String.length dx <? String.length dy)%nat then (-1)%Z
  else if ix && (String.length dy <? String.length dx)%nat then 1%Z
  else if String.ltb dx dy then (-1)%Z
  else 1%Z.

(** Two strings begin with the same byte, where both have one. *)
Definition sameHead (x y : string) : Prop :=
  match x, y with
  | String c _, String d _ => c = d
  | _, _ => True
  end.

(** A three-way comparison [c] (results -1, 0, +1 as in Go) that is an
    order on the values satisfying [D]. *)
Record goodOrder {A : Type} (D : A -> Prop) (c : A -> A -> Z) : Prop := mkGoodOrder {
  order_range : forall x y, c x y = (-1)%Z \/ c x y = 0%Z \/ c x y = 1%Z;
  order_zero : forall x y, c x y = 0%Z <-> x = y;
  order_antisym : forall x y, D x -> D y -> c y x = (- c x y)%Z;
  order_trans : forall x y z, D x -> D y -> D z ->
      c x y = (-1)%Z -> c y z = (-1)%Z -> c x z = (-1)%Z
}.

(** The way [semver.Compare] chains its comparisons: the first one that is
    not 0 decides. *)
Definition lexOrder {A B : Type} (c1 : A -> A -> Z) (c2 : B -> B -> Z)
    (x y : A * B) : Z :=
  let c := c1 x.1 y.1 in
  if negb (c =? 0)%Z then c else c2 x.2 y.2.

(** The parts of a parsed version [semver.Compare] reads. *)
Definition precedenceKey (p : semver.parsed) : string * (string * (string * string)) :=
  (semver.major p, (semver.minor p, (semver.patch p, semver.prerelease p))).

(** A prerelease part as [parse] produces it: empty, or beginning with "-". *)
Definition prereleaseForm (x : string) : Prop :=
  x = "" \/ semver.startsWith 45 x = true.

(** ** The specification's reading of a comment line *)

(** "Whitespace": the UTF-8 encodings, byte by byte, of the 25 characters
    with the Unicode property White_Space: U+0009 to U+000D, U+0020, U+0085,
    U+00A0, U+1680, U+2000 to U+200A, U+2028, U+2029, U+202F, U+205F,
    U+3000. *)
Definition whiteSpaceBytes : list (list N) :=
  [[9]; [10]; [11]; [12]; [13]; [32];
   [194; 133]; [194; 160];
   [225; 154; 128];
   [226; 128; 128]; [226; 128; 129]; [226; 128; 130]; [226; 128; 131];
   [226; 128; 132]; [226; 128; 133]; [226; 128; 134]; [226; 128; 135];
   [226; 128; 136]; [226; 128; 137]; [226; 128; 138];
   [226; 128; 168]; [226; 128; 169]; [226; 128; 175];
   [226; 129; 159];
   [227; 128; 128]]%N.

Fixpoint bytesToString (bs : list N) : string :=
  match bs with
  | [] => EmptyString
  | b :: bs' => String (ascii_of_N b) (bytesToString bs')
  end.

Definition whiteSpace : list string := map bytesToString whiteSpaceBytes.

Fixpoint pieces (ws : list string) : string :=
  match ws with
  | [] => EmptyString
  | w :: ws' => (w ++ pieces ws')%string
  end.

(** A blank string: white-space characters, one after the other. *)
Definition blank (s : string) : Prop :=
  exists ws, Forall (fun w => In w whiteSpace) ws /\ s = pieces ws.

Fixpoint beginsWith (w t : string) : bool :=
  match w, t with
  | EmptyString, _ => true
  | String a w', String b t' => Ascii.eqb a b && beginsWith w' t'
  | String _ _, EmptyString => false
  end.

Definition endsWith (w t : string) : bool :=
  (String.length w <=? String.length t)%nat
  && String.eqb (sdrop (String.length t - String.length w) t) w.

(** [t] begins (ends) with a white-space character. *)
Definition beginsBlank (t : string) : bool :=
  existsb (fun w => beginsWith w t) whiteSpace.

Definition endsBlank (t : string) : bool :=
  existsb (fun w => endsWith w t) whiteSpace.

(** "Stripping leading/trailing whitespace": [t] is [s] without the blank
    strings around it, and has no white space left at either end. *)
Definition trimmed (s t : string) : Prop :=
  exists a b, blank a /\ blank b /\ s = (a ++ t ++ b)%string
              /\ beginsBlank t = false /\ endsBlank t = false.

(** "Stripping comment markers": a comment token without its "//". *)
Definition stripMarker (tok : string) : string :=
  match tok with
  | String "/" (String "/" rest) => rest
  | _ => tok
  end.

(** The text of a comment line: marker and surrounding white space
    stripped. *)
Definition textOf (tok t : string) : Prop := trimmed (stripMarker tok) t.

(** A comment line is a deprecation notice with the reason [reason]: its
    text begins with the marker, and [reason] is what follows the marker,
    trimmed. *)
Definition noticeOf (tok reason : string) : Prop :=
  exists rest, textOf tok ("Deprecated:" ++ rest) /\ trimmed rest reason.

(** A comment line is no deprecation notice: its text does not begin with
    the marker. *)
Definition noNotice (tok : string) : Prop :=
  exists t, textOf tok t /\ beginsWith "Deprecated:" t = false.

Definition nbsp : string := bytesToString [194; 160]%N.
Definition ideographicSpace : string := bytesToString [227; 128; 128]%N.
Definition tab : string := bytesToString [9]%N.

(** A go.mod whose module line has a comment that only mentions the marker
    and then a notice padded with U+00A0, TAB and U+3000, and a second
    notice next to it. *)
Definition paddedFile : modfile.File :=
  modfile.mkFile
    (Some (moduleDecl
             [lineComment ("//" ++ ideographicSpace ++ "was Deprecated: once");
              lineComment ("//" ++ nbsp ++ "Deprecated:" ++ tab ++ ideographicSpace
                           ++ "use baz" ++ nbsp ++ " ")]
             [lineComment "// Deprecated: gone"]))
    [].

(** ** Tables over all bytes *)

(** What [utf8.DecodeRuneInString] and [unicode.IsSpace] do is decided by
    at most three bytes (a rune of four bytes is above U+FFFF by its first
    two): the facts needed of them are checked byte by byte. *)
Fixpoint rangeN (lo : N) (n : nat) : list N :=
  match n with
  | O => []
  | S k => lo :: rangeN (N.succ lo) k
  end.

Definition allBytes (P : N -> bool) : bool := forallb P (rangeN 0 256).

Definition decode2 (s0 s1 : N) : N :=
  N.lor (N.shiftl (N.land s0 31) 6) (N.land s1 63).

Definition decode3 (s0 s1 s2 : N) : N :=
  N.lor (N.lor (N.shiftl (N.land s0 15) 12) (N.shiftl (N.land s1 63) 6))
    (N.land s2 63).

Fixpoint eqBytes (xs ys : list N) : bool :=
  match xs, ys with
  | [], [] => true
  | x :: xs', y :: ys' => (x =? y)%N && eqBytes xs' ys'
  | _, _ => false
  end.

Definition isWhiteSpaceBytes (bs : list N) : bool :=
  existsb (fun ws => eqBytes ws bs) whiteSpaceBytes.

(** An ASCII byte that [unicode.IsSpace] accepts is in [whiteSpaceBytes]. *)
Definition check1 : bool :=
  allBytes (fun s0 =>
    match utf8.first s0 with
    | utf8.fi_as => (if unicode.IsSpace s0 then isWhiteSpaceBytes [s0] else true)
    | _ => true
    end).

(** So is a rune of two bytes that decodes to a space. *)
Definition check2 : bool :=
  allBytes (fun s0 =>
    match utf8.first s0 with
    | utf8.fi_multi sz lo hi =>
        if (sz <=? 2)%nat then
          allBytes (fun s1 =>
            utf8.outside s1 lo hi
            || (if unicode.IsSpace (decode2 s0 s1)
                then isWhiteSpaceBytes [s0; s1] else true))
        else true
    | _ => true
    end).

(** So is a rune of three bytes. *)
Definition check3 : bool :=
  allBytes (fun s0 =>
    match utf8.first s0 with
    | utf8.fi_multi sz lo hi =>
        if negb (sz <=? 2)%nat && (sz <=? 3)%nat then
          allBytes (fun s1 =>
            utf8.outside s1 lo hi
            || allBytes (fun s2 =>
                 utf8.outside s2 utf8.locb utf8.hicb
                 || (if unicode.IsSpace (decode3 s0 s1 s2)
                     then isWhiteSpaceBytes [s0; s1; s2] else true)))
        else true
    | _ => true
    end).

(** The first two bytes of a rune of four bytes put it at U+10000 or
    above. *)
Definition check4 : bool :=
  allBytes (fun s0 =>
    match utf8.first s0 with
    | utf8.fi_multi sz lo hi =>
        if negb (sz <=? 3)%nat then
          allBytes (fun s1 =>
            utf8.outside s1 lo hi
            || (65536 <=? N.lor (N.shiftl (N.land s0 7) 18)
                            (N.shiftl (N.land s1 63) 12))%N)
        else true
    | _ => true
    end).

(** [utf8.RuneStart] refuses the continuation bytes 0x80 to 0xBF and no
    other byte. *)
Definition checkStart : bool :=
  allBytes (fun b => Bool.eqb (utf8.RuneStart b) ((b <? 128) || (191 <? b))%N).

(** Bytes 2.. of an encoding: continuation bytes. *)
Fixpoint allCont (s : string) : bool :=
  match s with
  | EmptyString => true
  | String c s' => (128 <=? byte_val c)%N && (byte_val c <=? 191)%N && allCont s'
  end.

(** ** The manifest in memory: slices and their backing arrays *)

(** A Go slice is a window (offset, length, capacity) on a backing array;
    [append] writes behind the window when the capacity allows it and copies
    to a new array when not.  The comment slices of the module line are
    modelled so, to show what [isDeprecated] writes: its loop ranges over
    [append(mf.Module.Syntax.Before, mf.Module.Syntax.Suffix...)]. *)
Module memory.

Abbreviation Array := (list modfile.Comment).

(** The arrays allocated so far, by address. *)
Abbreviation Heap := (list (list modfile.Comment)).

Record Slice : Type := mkSlice {
  array : nat;
  offset : nat;
  len : nat;
  cap : nat
}.

Definition nilSlice : Slice := mkSlice 0 0 0 0.

(** The zero value of [modfile.Comment]. *)
Definition zero : modfile.Comment :=
  modfile.mkComment (modfile.mkPosition 0 0 0) "" false.

Definition cells (h : Heap) (a : nat) : Array := default [] (h !! a).

(** The elements a slice shows: [s[0], ..., s[len(s)-1]]. *)
Definition elems (h : Heap) (s : Slice) : list modfile.Comment :=
  take (len s) (drop (offset s) (cells h (array s))).

Definition inBounds (h : Heap) (s : Slice) : bool :=
  (len s <=? cap s)%nat && (offset s + cap s <=? length (cells h (array s)))%nat.

Section Append.

(** The capacity [append] gives the array it allocates (old capacity,
    length needed): the language leaves it to the implementation. *)
Variable growcap : nat -> nat -> nat.

(** [append(s, xs...)]: the new heap and the slice returned. *)
Definition append (h : Heap) (s : Slice) (xs : list modfile.Comment) : Heap * Slice :=
  let n := (len s + length xs)%nat in
  if (n <=? cap s)%nat then
    (<[array s := list_inserts (offset s + len s) xs (cells h (array s))]> h,
     mkSlice (array s) (offset s) n (cap s))
  else
    let c := Nat.max n (growcap (cap s) n) in
    ((h ++ [(elems h s ++ xs ++ replicate (c - n) zero)%list])%list,
     mkSlice (length h) 0 n c).

Record Comments : Type := mkComments {
  Before : Slice;
  Suffix : Slice;
  After : Slice
}.

Record Line : Type := mkLine {
  Line_Comments : Comments;
  Line_Start : modfile.Position;
  Line_Token : list string;
  Line_InBlock : bool;
  Line_End : modfile.Position
}.

Record Module_ : Type := mkModule {
  Mod_Path : string;
  Mod_Syntax : option Line
}.

(** The retract entries hold nothing the analysis writes or appends to:
    they are kept as the values of [modfile.Retract]. *)
Record File : Type := mkFile {
  File_Module : option Module_;
  File_Retract : list (option modfile.Retract)
}.

(** [isDeprecated] on the manifest in memory: the heap it leaves and its
    result ([None]: the panic of a nil dereference). *)
Definition isDeprecated (h : Heap) (mf : option File)
    : Heap * option (bool * string) :=
  match mf with
  | None => (h, None)
  | Some f =>
      match File_Module f with
      | None => (h, Some (false, ""))
      | Some md =>
          match Mod_Syntax md with
          | None => (h, None)
          | Some syntax =>
              let '(h', comments) :=
                append h (Before (Line_Comments syntax))
                  (elems h (Suffix (Line_Comments syntax))) in
              (h', Some (internal.isDeprecated_range (elems h' comments)))
          end
      end
  end.

(** [isRetracted] on the manifest in memory: the loop reads [mf.Retract] and
    the fields of its entries, and stores nothing. *)
Definition isRetracted (h : Heap) (mf : option File) (resolvedVersion : string)
    : Heap * option (bool * string) :=
  match mf with
  | None => (h, None)
  | Some f => (h, internal.isRetracted_range (File_Retract f) resolvedVersion)
  end.

End Append.

(** The manifest a heap holds: what the slices show. *)
Definition viewComments (h : Heap) (c : Comments) : modfile.Comments :=
  modfile.mkComments (elems h (Before c)) (elems h (Suffix c)) (elems h (After c)).

Definition viewLine (h : Heap) (l : Line) : modfile.Line :=
  modfile.mkLine (viewComments h (Line_Comments l)) (Line_Start l) (Line_Token l)
    (Line_InBlock l) (Line_End l).

Definition viewModule (h : Heap) (m : Module_) : modfile.Module_ :=
  modfile.mkModule (Mod_Path m) (option_map (viewLine h) (Mod_Syntax m)).

Definition view (h : Heap) (f : File) : modfile.File :=
  modfile.mkFile (option_map (viewModule h) (File_Module f)) (File_Retract f).

(** A slice [s] that shows nothing of the array of [b], unless it is empty. *)
Definition apart (b s : Slice) : bool :=
  (len s =? 0)%nat || negb (array s =? array b)%nat.

(** The comment slices of a line as the parser leaves them: each within its
    array, [Suffix] and [After] not in the array of [Before]. *)
Definition laidOut (h : Heap) (c : Comments) : bool :=
  inBounds h (Before c) && inBounds h (Suffix c) && inBounds h (After c)
  && apart (Before c) (Suffix c) && apart (Before c) (After c).

Definition wellFormed (h : Heap) (f : File) : bool :=
  match File_Module f with
  | Some md =>
      match Mod_Syntax md with
      | Some l => laidOut h (Line_Comments l)
      | None => true
      end
  | None => true
  end.

End memory.

(** A manifest in memory with three comments before the module line, in an
    array of four cells as repeated [append] leaves it, and one comment next
    to the line. *)
Definition spareHeap : memory.Heap :=
  [[lineComment "// Module m."; lineComment "// Deprecated: use baz instead";
    lineComment "// See the README."; memory.zero];
   [lineComment "// Deprecated: gone"]].

Definition spareFile : memory.File :=
  memory.mkFile
    (Some (memory.mkModule "example.com/m"
             (Some (memory.mkLine
                      (memory.mkComments (memory.mkSlice 0 0 3 4)
                         (memory.mkSlice 1 0 1 1) memory.nilSlice)
                      pos0 ["module"; "example.com/m"] false pos0))))
    [retract "v1.0.0" "v1.2.0" "bug"].

(** The same manifest with no room behind the comments before the line. *)
Definition tightHeap : memory.Heap :=
  [[lineComment "// Module m."; lineComment "// Deprecated: use baz instead"];
   [lineComment "// Deprecated: gone"]].

Definition tightFile : memory.File :=
  memory.mkFile
    (Some (memory.mkModule "example.com/m"
             (Some (memory.mkLine
                      (memory.mkComments (memory.mkSlice 0 0 2 2)
                         (memory.mkSlice 1 0 1 1) memory.nilSlice)
                      pos0 ["module"; "example.com/m"] false pos0))))
    [retract "v1.0.0" "v1.2.0" "bug"].

(** A growth policy: twice the old capacity ([append] takes the length
    needed when that is more). *)
Definition doubling (oldcap needed : nat) : nat := (2 * oldcap)%nat.

(** ** Checks of the library models on known values *)

Example TrimSpace_ascii :
  strings.TrimSpace (String (ascii_of_nat 9) "  // x  y ") = "// x  y".
Proof. reflexivity. Qed.

(** U+00A0 and U+2003 are white space; a lone byte 0xA0 is not a rune and
    stays. *)
Example TrimSpace_unicode :
  let nbsp := String (ascii_of_nat 194) (String (ascii_of_nat 160) "") in
  let emsp :=
    String (ascii_of_nat 226) (String (ascii_of_nat 128) (String (ascii_of_nat 131) "")) in
  strings.TrimSpace (" " ++ nbsp ++ "a b" ++ emsp ++ " " ++ nbsp) = "a b"
  /\ strings.TrimSpace (String (ascii_of_nat 160) " x ") = String (ascii_of_nat 160) " x".
Proof. split; reflexivity. Qed.

Example TrimPrefix_once :
  strings.TrimPrefix "//// Deprecated: x" "//" = "// Deprecated: x"
  /\ strings.TrimPrefix " // Deprecated: x" "//" = " // Deprecated: x".
Proof. split; reflexivity. Qed.

Example parse_forms :
  semver.parse "v1.2.3-alpha.1+build.5"
  = Some (semver.mkParsed "1" "2" "3" "" "-alpha.1" "+build.5")
  /\ semver.parse "v1" = Some (semver.mkParsed "1" "0" "0" ".0.0" "" "")
  /\ semver.IsValid "1.2.3" = false
  /\ semver.IsValid "v1.02.3" = false
  /\ semver.IsValid "v1.2.3-01" = false
  /\ semver.IsValid "v1.2.3-" = false
  /\ semver.Canonical "v1.2" = "v1.2.0"
  /\ semver.Canonical "v1.2.3-pre+meta" = "v1.2.3-pre".
Proof. repeat split; reflexivity. Qed.

(** The precedence chain of the semantic versioning document. *)
Example Compare_precedence :
  map (fun p : string * string => semver.Compare p.1 p.2)
    [("v1.0.0-alpha", "v1.0.0-alpha.1"); ("v1.0.0-alpha.1", "v1.0.0-alpha.beta");
     ("v1.0.0-alpha.beta", "v1.0.0-beta"); ("v1.0.0-beta", "v1.0.0-beta.2");
     ("v1.0.0-beta.2", "v1.0.0-beta.11"); ("v1.0.0-beta.11", "v1.0.0-rc.1");
     ("v1.0.0-rc.1", "v1.0.0"); ("v1.9.0", "v1.10.0")]
  = [-1; -1; -1; -1; -1; -1; -1; -1]%Z
  /\ semver.Compare "v1.0.0+a" "v1" = 0%Z
  /\ semver.Compare "v2.0.0" "v1.99.99" = 1%Z
  /\ semver.Compare "bad" "v0.0.0-0" = (-1)%Z.
Proof. repeat split; vm_compute; reflexivity. Qed.

(** ** Facts about the library functions *)

Lemma sdrop_length (n : nat) (s : string) :
  String.length (sdrop n s) = (String.length s - n)%nat.
Proof.
  revert s; induction n as [|n IH]; intros [|c s]; simpl; auto with arith.
Qed.

Lemma compareInt_zero (x y : string) : semver.compareInt x y = 0%Z <-> x = y.
Proof.
  unfold semver.compareInt.
  destruct (String.eqb_spec x y) as [->|Hne]; [tauto|].
  split; [|tauto].
  repeat match goal with |- context [if ?b then _ else _] => destruct b end;
    discriminate.
Qed.

Lemma nextIdent_rest_length (x : string) :
  (String.length (semver.nextIdent x).2 <= String.length x)%nat.
Proof. unfold semver.nextIdent; simpl. rewrite sdrop_length. lia. Qed.

Lemma prereleaseLoop_nonzero (fuel : nat) :
  forall x y : string,
    (String.length x <= fuel)%nat -> semver.prereleaseLoop fuel x y <> 0%Z.
Proof.
  induction fuel as [|k IH]; intros x y Hlen.
  - destruct x as [|c x]; simpl in *; [discriminate | lia].
  - destruct x as [|c x]; [simpl; discriminate|].
    destruct y as [|d y]; [simpl; discriminate|].
    cbn [semver.prereleaseLoop String.eqb orb sdrop].
    replace (String.eqb (String c x) "") with false by reflexivity.
    replace (String.eqb (String d y) "") with false by reflexivity.
    cbn [orb].
    pose proof (nextIdent_rest_length x) as Hx.
    destruct (semver.nextIdent x) as [dx x'].
    destruct (semver.nextIdent y) as [dy y'].
    simpl in Hx, Hlen.
    destruct (negb (String.eqb dx dy)).
    + repeat match goal with |- context [if ?b then _ else _] => destruct b end;
        discriminate.
    + apply IH. lia.
Qed.

(** The fuel [comparePrerelease] passes is enough: any larger amount gives
    the same answer. *)
Lemma prereleaseLoop_fuel (n : nat) :
  forall (m : nat) (x y : string),
    (String.length x <= n)%nat -> (String.length x <= m)%nat ->
    semver.prereleaseLoop n x y = semver.prereleaseLoop m x y.
Proof.
  induction n as [|n IH]; intros m x y Hn Hm.
  - destruct x; simpl in Hn; [|lia]. destruct m; reflexivity.
  - destruct m as [|m].
    + destruct x; simpl in Hm; [|lia]. reflexivity.
    + destruct x as [|c x]; [reflexivity|].
      destruct y as [|d y]; [reflexivity|].
      cbn [semver.prereleaseLoop sdrop].
      replace (String.eqb (String c x) "") with false by reflexivity.
      replace (String.eqb (String d y) "") with false by reflexivity.
      cbn [orb].
      pose proof (nextIdent_rest_length x) as Hx.
      destruct (semver.nextIdent x) as [dx x'].
      destruct (semver.nextIdent y) as [dy y'].
      simpl in Hx, Hn, Hm.
      destruct (negb (String.eqb dx dy)); [reflexivity|].
      apply IH; lia.
Qed.

Lemma comparePrerelease_zero (x y : string) :
  semver.comparePrerelease x y = 0%Z <-> x = y.
Proof.
  unfold semver.comparePrerelease.
  destruct (String.eqb_spec x y) as [->|Hne]; [tauto|].
  split; [|tauto].
  destruct (String.eqb x ""); [discriminate|].
  destruct (String.eqb y ""); [discriminate|].
  intros H. exfalso. revert H. apply prereleaseLoop_nonzero. lia.
Qed.

(** Two valid versions compare equal exactly when they have the same major,
    minor, patch and prerelease parts (build metadata plays no role). *)
Lemma Compare_zero_parts (v w : string) (pv pw : semver.parsed) :
  semver.parse v = Some pv -> semver.parse w = Some pw ->
  semver.Compare v w = 0%Z <->
  semver.major pv = semver.major pw /\ semver.minor pv = semver.minor pw
  /\ semver.patch pv = semver.patch pw
  /\ semver.prerelease pv = semver.prerelease pw.
Proof.
  intros Hv Hw. unfold semver.Compare. rewrite Hv, Hw.
  pose proof (compareInt_zero (semver.major pv) (semver.major pw)) as Hma.
  pose proof (compareInt_zero (semver.minor pv) (semver.minor pw)) as Hmi.
  pose proof (compareInt_zero (semver.patch pv) (semver.patch pw)) as Hpa.
  pose proof (comparePrerelease_zero (semver.prerelease pv) (semver.prerelease pw)) as Hpre.
  destruct (Z.eqb_spec (semver.compareInt (semver.major pv) (semver.major pw)) 0) as [E1|E1];
    cbn [negb]; [|tauto].
  destruct (Z.eqb_spec (semver.compareInt (semver.minor pv) (semver.minor pw)) 0) as [E2|E2];
    cbn [negb]; [|tauto].
  destruct (Z.eqb_spec (semver.compareInt (semver.patch pv) (semver.patch pw)) 0) as [E3|E3];
    cbn [negb]; [|tauto].
  tauto.
Qed.

(** ** The loops of [isDeprecated] and [isRetracted] *)

Lemma isDeprecated_range_find (cs : list modfile.Comment) :
  internal.isDeprecated_range cs =
  match find (fun c => strings.HasPrefix (internal.commentText c) internal.prefix) cs with
  | Some c =>
      (true, strings.TrimSpace
               (sdrop (String.length internal.prefix) (internal.commentText c)))
  | None => (false, "")
  end.
Proof.
  induction cs as [|c cs IH]; simpl; [reflexivity|].
  destruct (strings.HasPrefix (internal.commentText c) internal.prefix);
    [reflexivity | exact IH].
Qed.

Lemma find_first {A : Type} (p : A -> bool) (pre : list A) (x : A) (post : list A) :
  forallb (fun a => negb (p a)) pre = true -> p x = true ->
  find p (pre ++ x :: post)%list = Some x.
Proof.
  intros Hpre Hx. induction pre as [|a pre IH]; simpl in *.
  - now rewrite Hx.
  - apply andb_prop in Hpre as [Ha Hpre].
    destruct (p a); [discriminate | auto].
Qed.

Lemma find_none {A : Type} (p : A -> bool) (l : list A) :
  forallb (fun a => negb (p a)) l = true -> find p l = None.
Proof.
  induction l as [|a l IH]; simpl; [reflexivity|].
  intros H. apply andb_prop in H as [Ha Hl].
  destruct (p a); [discriminate | auto].
Qed.

Lemma isRetracted_range_find (ds : list modfile.Retract) (v : string) :
  internal.isRetracted_range (map Some ds) v =
  Some match find (internal.inInterval v) ds with
       | Some r => (true, modfile.Rationale r)
       | None => (false, "")
       end.
Proof.
  induction ds as [|d ds IH]; simpl; [reflexivity|].
  destruct (internal.inInterval v d); [reflexivity | exact IH].
Qed.

Lemma isRetracted_range_first (pre : list modfile.Retract) (d : modfile.Retract)
    (post : list (option modfile.Retract)) (v : string) :
  forallb (fun r => negb (internal.inInterval v r)) pre = true ->
  internal.inInterval v d = true ->
  internal.isRetracted_range (map Some pre ++ Some d :: post)%list v =
  Some (true, modfile.Rationale d).
Proof.
  intros Hpre Hd. induction pre as [|a pre IH]; simpl in *.
  - now rewrite Hd.
  - apply andb_prop in Hpre as [Ha Hpre].
    destruct (internal.inInterval v a); [discriminate | auto].
Qed.

Lemma isRetracted_range_parsed (rs : list (option modfile.Retract)) (v : string) :
  forallb (fun r : option modfile.Retract =>
             match r with Some _ => true | None => false end) rs = true ->
  exists t, internal.isRetracted_range rs v = Some t.
Proof.
  induction rs as [|[r|] rs IH]; simpl; intros H; [eauto | | discriminate].
  destruct (internal.inInterval v r); eauto.
Qed.

Lemma inInterval_bounds (v : string) (r : modfile.Retract) :
  internal.inInterval v r = true <->
  (0 <= semver.Compare v (modfile.Low r))%Z
  /\ (semver.Compare v (modfile.High r) <= 0)%Z.
Proof.
  unfold internal.inInterval. rewrite andb_true_iff, !Z.leb_le. tauto.
Qed.

(** ** Retraction *)

(** C5: when the retract directives of the manifest are [pre], then [d],
    then anything ([post] may hold further directives whose range contains
    the version), no directive of [pre] contains the resolved version and
    [d] does, [isRetracted] answers [true] with the rationale of [d]: the
    first directive in file order whose inclusive range contains the
    version. *)
Theorem isRetracted_first_matching_directive
    (f : modfile.File) (pre : list modfile.Retract) (d : modfile.Retract)
    (post : list (option modfile.Retract)) (resolvedVersion : string) :
  modfile.File_Retract f = (map Some pre ++ Some d :: post)%list ->
  forallb (fun r => negb (internal.inInterval resolvedVersion r)) pre = true ->
  internal.inInterval resolvedVersion d = true ->
  internal.isRetracted (Some f) resolvedVersion = Some (true, modfile.Rationale d).
Proof.
  intros Hf Hpre Hd. unfold internal.isRetracted; simpl. rewrite Hf.
  now apply isRetracted_range_first.
Qed.

Lemma isRetracted_first_matching_directive_witness :
  forallb (fun r => internal.inInterval "v1.1.5" r)
    [modfile.mkRetract "v1.0.0" "v1.2.0" "bug" None;
     modfile.mkRetract "v1.1.0" "v1.5.0" "security" None] = true
  /\ internal.isRetracted (Some sampleFile) "v1.1.5" = Some (true, "bug")
  /\ internal.isRetracted (Some sampleFile) "v1.3.0" = Some (true, "security").
Proof.
  split; [vm_compute; reflexivity|]. split.
  - apply (isRetracted_first_matching_directive sampleFile []
             (modfile.mkRetract "v1.0.0" "v1.2.0" "bug" None)
             [retract "v1.1.0" "v1.5.0" "security"] "v1.1.5");
      vm_compute; reflexivity.
  - apply (isRetracted_first_matching_directive sampleFile
             [modfile.mkRetract "v1.0.0" "v1.2.0" "bug" None]
             (modfile.mkRetract "v1.1.0" "v1.5.0" "security" None)
             [] "v1.3.0");
      vm_compute; reflexivity.
Defined.

(** C3, as stated, at the bare versions 1.0.0, 1.2.0 and 1.2.1:
    [semver.Compare] rejects a version without the leading "v" and holds all
    rejected strings equal, and below every valid one.  So
    [retract [1.0.0, 1.2.0]] matches 1.2.1, and the directive as a parsed
    go.mod holds it, [retract [v1.0.0, v1.2.0]], does not match 1.2.0. *)
Lemma isRetracted_bare_versions_match :
  semver.Compare "1.2.1" "1.0.0" = 0%Z
  /\ semver.Compare "1.2.1" "1.2.0" = 0%Z
  /\ internal.isRetracted (Some retractBugBare) "1.2.1" = Some (true, "bug")
  /\ internal.isRetracted (Some retractBugBare) "1.2.1" <> Some (false, "")
  /\ semver.Compare "1.2.0" "v1.0.0" = (-1)%Z
  /\ internal.isRetracted (Some retractBug) "1.2.0" = Some (false, "")
  /\ internal.isRetracted (Some retractBug) "1.2.0" <> Some (true, "bug").
Proof.
  repeat split; try (vm_compute; reflexivity); vm_compute; discriminate.
Qed.

(** C3, amended: versions are in the module form [semver] accepts (leading
    "v").  For a manifest with the directives [ds], [isRetracted] answers
    with the first directive [r] such that
    [Compare v (Low r) >= 0] and [Compare v (High r) <= 0], both ends
    included, and with [(false, "")] when there is none.  A directive with
    [low = high], a valid version, retracts exactly the valid versions whose
    major, minor, patch and prerelease parts are those of [low]: one
    semantic version.  [retract [v1.0.0, v1.2.0]] with rationale "bug"
    retracts v1.0.0 and v1.2.0 with that rationale and does not retract
    v1.2.1.  The order is the one of semantic versions, not of strings:
    [retract [v1.9.0, v1.10.0]] retracts v1.9.5 although "v1.10.0" is below
    "v1.9.0" as a string. *)
Theorem isRetracted_inclusive_semver_interval :
  (forall (f : modfile.File) (ds : list modfile.Retract) (v : string),
      modfile.File_Retract f = map Some ds ->
      internal.isRetracted (Some f) v =
      Some match find (fun r =>
                         (0 <=? semver.Compare v (modfile.Low r))%Z
                         && (semver.Compare v (modfile.High r) <=? 0)%Z) ds with
           | Some r => (true, modfile.Rationale r)
           | None => (false, "")
           end)
  /\ (forall (low rationale v : string) (pv pl : semver.parsed),
      semver.parse v = Some pv ->
      semver.parse low = Some pl ->
      internal.isRetracted
        (Some (modfile.mkFile None [retract low low rationale])) v
      = Some (true, rationale)
      <-> semver.major pv = semver.major pl
          /\ semver.minor pv = semver.minor pl
          /\ semver.patch pv = semver.patch pl
          /\ semver.prerelease pv = semver.prerelease pl)
  /\ internal.isRetracted (Some retractBug) "v1.0.0" = Some (true, "bug")
  /\ internal.isRetracted (Some retractBug) "v1.2.0" = Some (true, "bug")
  /\ internal.isRetracted (Some retractBug) "v1.2.1" = Some (false, "")
  /\ String.ltb "v1.10.0" "v1.9.0" = true
  /\ internal.isRetracted
       (Some (modfile.mkFile None [retract "v1.9.0" "v1.10.0" "broken"])) "v1.9.5"
     = Some (true, "broken").
Proof.
  split; [|split].
  - intros f ds v Hf. unfold internal.isRetracted; simpl. rewrite Hf.
    apply isRetracted_range_find.
  - intros low rationale v pv pl Hv Hl.
    rewrite <- (Compare_zero_parts v low pv pl Hv Hl).
    unfold internal.isRetracted; simpl.
    pose proof (inInterval_bounds v (modfile.mkRetract low low rationale None)) as Hb.
    simpl in Hb.
    destruct (internal.inInterval v (modfile.mkRetract low low rationale None)).
    + split; [intros _|reflexivity]. destruct Hb as [Hb _].
      specialize (Hb eq_refl). lia.
    + split; [discriminate|]. intros H0. destruct Hb as [_ Hb].
      assert (false = true) by (apply Hb; lia). discriminate.
  - repeat split; vm_compute; reflexivity.
Qed.

Lemma isRetracted_inclusive_semver_interval_witness :
  modfile.File_Retract sampleFile
  = map Some [modfile.mkRetract "v1.0.0" "v1.2.0" "bug" None;
              modfile.mkRetract "v1.1.0" "v1.5.0" "security" None]
  /\ internal.isRetracted (Some sampleFile) "v1.5.0" = Some (true, "security")
  /\ internal.isRetracted (Some sampleFile) "v1.5.1" = Some (false, "")
  /\ internal.isRetracted
       (Some (modfile.mkFile None [retract "v2.0.0" "v2.0.0" "withdrawn"]))
       "v2.0.0+incompatible"
     = Some (true, "withdrawn").
Proof.
  pose proof isRetracted_inclusive_semver_interval as [Hfind [Hone _]].
  split; [reflexivity|]. split; [|split].
  - rewrite (Hfind sampleFile
               [modfile.mkRetract "v1.0.0" "v1.2.0" "bug" None;
                modfile.mkRetract "v1.1.0" "v1.5.0" "security" None]
               "v1.5.0" eq_refl).
    vm_compute; reflexivity.
  - rewrite (Hfind sampleFile
               [modfile.mkRetract "v1.0.0" "v1.2.0" "bug" None;
                modfile.mkRetract "v1.1.0" "v1.5.0" "security" None]
               "v1.5.1" eq_refl).
    vm_compute; reflexivity.
  - apply (Hone "v2.0.0" "withdrawn" "v2.0.0+incompatible"
             (semver.mkParsed "2" "0" "0" "" "" "+incompatible")
             (semver.mkParsed "2" "0" "0" "" "" "") eq_refl eq_refl).
    repeat split.
Defined.

(** ** The lifecycle fields of a module *)

Lemma PopulateModule_parsed {R : Type} (r : internal.RawLatestInfo)
    (f : modfile.File) (m : internal.Module_ R) :
  internal.GoModFile r = Some f -> parsed f = true ->
  exists d dc t tr,
    internal.isDeprecated (Some f) = Some (d, dc)
    /\ internal.isRetracted (Some f) (internal.Version m) = Some (t, tr)
    /\ internal.PopulateModule r m
       = internal.Returned
           (internal.mkModule (internal.Version m) d dc t tr (internal.Rest m)).
Proof.
  intros Hf Hp. unfold parsed in Hp. apply andb_prop in Hp as [Hmod Hret].
  destruct (isRetracted_range_parsed _ (internal.Version m) Hret) as [[t tr] Ht].
  assert (Hd : exists d dc, internal.isDeprecated (Some f) = Some (d, dc)).
  { unfold internal.isDeprecated; simpl.
    destruct (modfile.File_Module f) as [md|]; [|eauto].
    destruct (modfile.Mod_Syntax md) as [ln|]; [|discriminate]. simpl.
    destruct (internal.isDeprecated_range _) as [d dc]. eauto. }
  destruct Hd as (d & dc & Hd).
  exists d, dc, t, tr. repeat split; [exact Hd | exact Ht |].
  unfold internal.PopulateModule. rewrite Hf, Hd. simpl.
  unfold internal.isRetracted in Ht; simpl in Ht. now rewrite Ht.
Qed.

(** On a parsed manifest (a file as [modfile.Parse] returns it) and for
    any version, [isDeprecated], [isRetracted] and [PopulateModule] return:
    none of them panics.  Absent data gives the default: without a module
    declaration the deprecation is [(false, "")], without retract directives
    the retraction is [(false, "")], and without both the four lifecycle
    fields of the module are set to their defaults. *)
Lemma lifecycle_returns {R : Type}
    (r : internal.RawLatestInfo) (f : modfile.File) (m : internal.Module_ R)
    (resolvedVersion : string) :
  internal.GoModFile r = Some f ->
  parsed f = true ->
  (exists d, internal.isDeprecated (Some f) = Some d)
  /\ (exists t, internal.isRetracted (Some f) resolvedVersion = Some t)
  /\ (exists m', internal.PopulateModule r m = internal.Returned m')
  /\ (modfile.File_Module f = None ->
      internal.isDeprecated (Some f) = Some (false, ""))
  /\ (modfile.File_Retract f = [] ->
      internal.isRetracted (Some f) resolvedVersion = Some (false, ""))
  /\ (modfile.File_Module f = None -> modfile.File_Retract f = [] ->
      internal.PopulateModule r m
      = internal.Returned
          (internal.mkModule (internal.Version m) false "" false "" (internal.Rest m))).
Proof.
  intros Hf Hp.
  destruct (PopulateModule_parsed r f m Hf Hp) as (d & dc & t & tr & Hd & Ht & Hm).
  assert (Hnomod : modfile.File_Module f = None ->
                   internal.isDeprecated (Some f) = Some (false, "")).
  { intros H. unfold internal.isDeprecated; simpl. now rewrite H. }
  assert (Hnoret : forall v, modfile.File_Retract f = [] ->
                   internal.isRetracted (Some f) v = Some (false, "")).
  { intros v H. unfold internal.isRetracted; simpl. now rewrite H. }
  repeat split; eauto.
  - unfold parsed in Hp. apply andb_prop in Hp as [_ Hret].
    unfold internal.isRetracted; simpl.
    apply isRetracted_range_parsed, Hret.
  - intros H1 H2. rewrite Hm.
    rewrite (Hnomod H1) in Hd. rewrite (Hnoret _ H2) in Ht.
    now inversion Hd; inversion Ht.
Qed.

(** C9: whatever the raw latest information and the module, and whether
    the call returns or panics, [PopulateModule] leaves the module as it
    was except for [Deprecated], [DeprecationComment], [Retracted] and
    [RetractionRationale]: the version and every other field are those of
    the module given. *)
Theorem PopulateModule_frame {R : Type}
    (r : internal.RawLatestInfo) (m : internal.Module_ R) :
  let m' := internal.final (internal.PopulateModule r m) in
  internal.Version m' = internal.Version m
  /\ internal.Rest m' = internal.Rest m
  /\ m' = internal.mkModule (internal.Version m)
            (internal.Deprecated m') (internal.DeprecationComment m')
            (internal.Retracted m') (internal.RetractionRationale m')
            (internal.Rest m).
Proof.
  unfold internal.PopulateModule.
  destruct (internal.isDeprecated (internal.GoModFile r)) as [[d dc]|];
    [|destruct m; simpl; auto].
  simpl.
  destruct (internal.isRetracted (internal.GoModFile r) (internal.Version m))
    as [[t tr]|]; simpl; auto.
Qed.

(** C10: [PopulateModule] computes the retraction for the version of the
    module it populates, from the go.mod file of the raw latest
    information, which also gives the deprecation; the [Version] (and the
    [ModulePath]) of the raw latest information do not enter the result.
    With the sample go.mod, which retracts v1.0.0 to v1.5.0, the module at
    v1.1.0 is marked retracted when the raw latest version is v1.9.0, and
    the module at v1.9.0 is not when the raw latest version is v1.1.0. *)
Theorem PopulateModule_uses_module_version {R : Type} :
  (forall (path path' version version' : string) (f : option modfile.File)
          (m : internal.Module_ R),
      internal.PopulateModule (internal.mkRawLatestInfo path version f) m
      = internal.PopulateModule (internal.mkRawLatestInfo path' version' f) m)
  /\ (forall (r : internal.RawLatestInfo) (m m' : internal.Module_ R),
      internal.PopulateModule r m = internal.Returned m' ->
      internal.isDeprecated (internal.GoModFile r)
      = Some (internal.Deprecated m', internal.DeprecationComment m')
      /\ internal.isRetracted (internal.GoModFile r) (internal.Version m)
         = Some (internal.Retracted m', internal.RetractionRationale m'))
  /\ internal.PopulateModule
       (internal.mkRawLatestInfo "example.com/m" "v1.9.0" (Some sampleFile))
       (sampleModule "v1.1.0")
     = internal.Returned
         (internal.mkModule "v1.1.0" true "use baz instead" true "bug" ["LICENSE"])
  /\ internal.PopulateModule
       (internal.mkRawLatestInfo "example.com/m" "v1.1.0" (Some sampleFile))
       (sampleModule "v1.9.0")
     = internal.Returned
         (internal.mkModule "v1.9.0" true "use baz instead" false "" ["LICENSE"]).
Proof.
  split; [reflexivity|]. split; [|split; vm_compute; reflexivity].
  intros r m m'. unfold internal.PopulateModule.
  destruct (internal.isDeprecated (internal.GoModFile r)) as [[d dc]|];
    [|discriminate].
  simpl.
  destruct (internal.isRetracted (internal.GoModFile r) (internal.Version m))
    as [[t tr]|]; [|discriminate].
  intros H. inversion H; subst; simpl. auto.
Qed.

Lemma PopulateModule_uses_module_version_witness :
  internal.PopulateModule
    (internal.mkRawLatestInfo "example.com/m" "v1.9.0" (Some retractBug))
    (sampleModule "v1.2.0")
  = internal.Returned (internal.mkModule "v1.2.0" false "" true "bug" ["LICENSE"])
  /\ internal.isRetracted (Some retractBug) "v1.2.0" = Some (true, "bug").
Proof.
  split; [vm_compute; reflexivity|].
  apply (proj1 (proj2 (@PopulateModule_uses_module_version (list string)))
           (internal.mkRawLatestInfo "example.com/m" "v1.9.0" (Some retractBug))
           (sampleModule "v1.2.0")
           (internal.mkModule "v1.2.0" false "" true "bug" ["LICENSE"])).
  vm_compute; reflexivity.
Defined.

(** ** The store *)

Section Store.

Variable regresses : list worker.Unit -> list worker.Unit -> bool.
Context {Raw : Type}.
Variable fetch : string * string -> option Raw.
Variable extract : Raw -> option (list worker.Unit * internal.RawLatestInfo).

Lemma storedUnits_insert (st : worker.Store) (key : string * string)
    (m : worker.StoredModule) :
  worker.storedUnits (<[key := m]> st) key = internal.Rest m.
Proof. unfold worker.storedUnits. now rewrite lookup_insert_eq. Qed.

Lemma GetUnit_insert (st : worker.Store) (key : string * string)
    (m : worker.StoredModule) (path : string) :
  worker.GetUnit (<[key := m]> st) key path
  = find (fun u => String.eqb (worker.Path u) path) (internal.Rest m).
Proof. unfold worker.GetUnit. now rewrite storedUnits_insert. Qed.

Lemma Replace_cases (st : worker.Store) (key : string * string)
    (candidate : worker.StoredModule) :
  worker.Replace regresses st key candidate
  = (st, Some (derrors.Wrap "insert module" derrors.DBModuleInsertInvalid))
  \/ worker.Replace regresses st key candidate = (<[key := candidate]> st, None).
Proof. unfold worker.Replace. destruct (_ && _); auto. Qed.

Lemma Replace_rejects (st : worker.Store) (key : string * string)
    (candidate : worker.StoredModule) :
  worker.storedUnits st key <> [] ->
  worker.degenerate regresses (worker.storedUnits st key) (internal.Rest candidate)
  = true ->
  worker.Replace regresses st key candidate
  = (st, Some (derrors.Wrap "insert module" derrors.DBModuleInsertInvalid)).
Proof.
  intros Hne Hdeg. unfold worker.Replace. rewrite Hdeg.
  destruct (worker.storedUnits st key); [congruence | reflexivity].
Qed.

Lemma Replace_accepts (st : worker.Store) (key : string * string)
    (candidate : worker.StoredModule) :
  worker.degenerate regresses (worker.storedUnits st key) (internal.Rest candidate)
  = false ->
  worker.Replace regresses st key candidate = (<[key := candidate]> st, None).
Proof.
  intros Hdeg. unfold worker.Replace. rewrite Hdeg. now rewrite andb_false_r.
Qed.

Lemma Is_sentinel (e : derrors.error) (k : derrors.Kind) :
  derrors.Is e (derrors.Sentinel k) = bool_decide (rootKind e = k).
Proof.
  induction e as [k'|ctx e IH]; simpl.
  - rewrite orb_false_r. apply bool_decide_ext. split; congruence.
  - exact IH.
Qed.

(** The candidate record [FetchAndUpdateState] hands to [Replace] when the
    fetch and the extraction succeed on a parsed manifest. *)
Lemma FetchAndUpdateState_replace
    (st : worker.Store) (key : string * string) (raw : Raw)
    (units : list worker.Unit) (info : internal.RawLatestInfo) (f : modfile.File) :
  fetch key = Some raw ->
  extract raw = Some (units, info) ->
  internal.GoModFile info = Some f ->
  parsed f = true ->
  exists m : worker.StoredModule,
    internal.Rest m = units
    /\ worker.FetchAndUpdateState regresses fetch extract st key
       = Some (worker.Replace regresses st key m).
Proof.
  intros Hfetch Hextract Hf Hp. unfold worker.FetchAndUpdateState.
  rewrite Hfetch, Hextract.
  destruct (PopulateModule_parsed info f
              (internal.mkModule key.2 false "" false "" units) Hf Hp)
    as (d & dc & t & tr & _ & _ & Hm).
  rewrite Hm. eexists. split; [|reflexivity]. reflexivity.
Qed.

(** A valid ingestion over any stored state: the candidate set becomes the
    stored set of the key, and nothing else changes. *)
Lemma ingest_valid_replaces
    (st : worker.Store) (key : string * string) (raw : Raw)
    (units : list worker.Unit) (info : internal.RawLatestInfo) (f : modfile.File) :
  fetch key = Some raw ->
  extract raw = Some (units, info) ->
  internal.GoModFile info = Some f ->
  parsed f = true ->
  worker.degenerate regresses (worker.storedUnits st key) units = false ->
  exists st' : worker.Store,
    worker.FetchAndUpdateState regresses fetch extract st key = Some (st', None)
    /\ worker.storedUnits st' key = units
    /\ (forall path,
          worker.GetUnit st' key path
          = find (fun u => String.eqb (worker.Path u) path) units)
    /\ (forall k, k <> key -> st' !! k = st !! k).
Proof.
  intros Hfetch Hextract Hf Hp Hdeg.
  destruct (FetchAndUpdateState_replace st key raw units info f
              Hfetch Hextract Hf Hp) as (m & Hm & Hrun).
  exists (<[key := m]> st). rewrite Hrun, Replace_accepts by (now rewrite Hm).
  split; [reflexivity|]. split; [now rewrite storedUnits_insert|]. split.
  - intros path. now rewrite GetUnit_insert, Hm.
  - intros k Hk. now apply lookup_insert_ne.
Qed.

(** C1: for a key stored with a non-empty unit set, a re-ingestion whose
    candidate set is degenerate relative to the stored one (the empty set
    always is, whatever the regression policy) returns an error that
    [errors.Is] recognises as the "insert invalid" sentinel, and the store
    it leaves is the store it found: the record of the key, and of every
    other key, is unchanged.  The same holds of [Replace] called with any
    degenerate candidate. *)
Theorem reingest_degenerate_rejected
    (st : worker.Store) (key : string * string) (old : worker.StoredModule)
    (raw : Raw) (units : list worker.Unit) (info : internal.RawLatestInfo)
    (f : modfile.File) :
  st !! key = Some old ->
  internal.Rest old <> [] ->
  fetch key = Some raw ->
  extract raw = Some (units, info) ->
  internal.GoModFile info = Some f ->
  parsed f = true ->
  worker.degenerate regresses (internal.Rest old) units = true ->
  worker.degenerate regresses (internal.Rest old) [] = true
  /\ (exists e,
        worker.FetchAndUpdateState regresses fetch extract st key
        = Some (st, Some e)
        /\ derrors.Is e derrors.DBModuleInsertInvalid = true)
  /\ (forall candidate : worker.StoredModule,
        worker.degenerate regresses (internal.Rest old) (internal.Rest candidate)
        = true ->
        worker.Replace regresses st key candidate
        = (st, Some (derrors.Wrap "insert module" derrors.DBModuleInsertInvalid))).
Proof.
  intros Hold Hne Hfetch Hextract Hf Hp Hdeg.
  assert (Hstored : worker.storedUnits st key = internal.Rest old).
  { unfold worker.storedUnits. now rewrite Hold. }
  assert (Hrej : forall candidate : worker.StoredModule,
             worker.degenerate regresses (internal.Rest old) (internal.Rest candidate)
             = true ->
             worker.Replace regresses st key candidate
             = (st, Some (derrors.Wrap "insert module" derrors.DBModuleInsertInvalid))).
  { intros candidate Hc. apply Replace_rejects; rewrite Hstored; assumption. }
  split; [reflexivity|]. split; [|exact Hrej].
  destruct (FetchAndUpdateState_replace st key raw units info f
              Hfetch Hextract Hf Hp) as (m & Hm & Hrun).
  rewrite Hrun, Hrej by (now rewrite Hm).
  eexists. split; reflexivity.
Qed.

End Store.

Lemma reingest_degenerate_rejected_witness :
  let stored : worker.Store :=
    {[ sampleKey := internal.mkModule "v1.0.0" false "" false "" [unitFoo; unitBar] ]} in
  stored !! sampleKey
  = Some (internal.mkModule "v1.0.0" false "" false "" [unitFoo; unitBar])
  /\ worker.degenerate dropsStoredUnit [unitFoo; unitBar] [unitFoo] = true
  /\ exists e,
       worker.FetchAndUpdateState dropsStoredUnit (proxy [unitFoo]) extractAll
         stored sampleKey
       = Some (stored, Some e)
       /\ derrors.Is e derrors.DBModuleInsertInvalid = true.
Proof.
  intros stored.
  assert (Hold : stored !! sampleKey
                 = Some (internal.mkModule "v1.0.0" false "" false "" [unitFoo; unitBar]))
    by apply lookup_singleton_eq.
  split; [exact Hold|]. split; [vm_compute; reflexivity|].
  refine (proj1 (proj2 (reingest_degenerate_rejected dropsStoredUnit
                          (proxy [unitFoo]) extractAll
                          stored sampleKey _ ([unitFoo], sampleInfo) [unitFoo]
                          sampleInfo (modfile.mkFile (Some (moduleDecl [] [])) [])
                          Hold _ eq_refl eq_refl eq_refl eq_refl _))).
  - discriminate.
  - vm_compute; reflexivity.
Defined.

(** C2: a valid re-ingestion supersedes the stored record.  In general:
    over any stored state, an ingestion whose candidate set is not
    degenerate succeeds, the stored set of the key is then exactly the
    candidate set, a unit is visible only if it is in the candidate set, and
    no other key changes.  In particular, from an absent key, ingesting the
    set {A} and then the set {A', B}, where A' is A with refreshed metadata
    (same path), both units carry their mandatory fields and the policy
    holds {A', B} no regression from {A}: both calls succeed, B is not
    visible after the first and is visible after the second as the record B
    itself (readme, documentation and licenses included), A's path shows the
    refreshed A', and the stored set is exactly [A'; B]. *)
Theorem reingest_valid_supersedes {Raw : Type}
    (regresses : list worker.Unit -> list worker.Unit -> bool)
    (fetch1 fetch2 : string * string -> option Raw)
    (extract : Raw -> option (list worker.Unit * internal.RawLatestInfo))
    (st : worker.Store) (key : string * string) (raw1 raw2 : Raw)
    (info1 info2 : internal.RawLatestInfo) (f1 f2 : modfile.File)
    (A A' B : worker.Unit) :
  st !! key = None ->
  fetch1 key = Some raw1 -> extract raw1 = Some ([A], info1) ->
  internal.GoModFile info1 = Some f1 -> parsed f1 = true ->
  fetch2 key = Some raw2 -> extract raw2 = Some ([A'; B], info2) ->
  internal.GoModFile info2 = Some f2 -> parsed f2 = true ->
  worker.Path A' = worker.Path A ->
  worker.Path B <> worker.Path A ->
  worker.missingMandatory A' = false ->
  worker.missingMandatory B = false ->
  regresses [A] [A'; B] = false ->
  (forall (st0 : worker.Store) (units : list worker.Unit),
      extract raw2 = Some (units, info2) ->
      worker.degenerate regresses (worker.storedUnits st0 key) units = false ->
      exists st' : worker.Store,
        worker.FetchAndUpdateState regresses fetch2 extract st0 key = Some (st', None)
        /\ worker.storedUnits st' key = units
        /\ (forall path u, worker.GetUnit st' key path = Some u -> In u units)
        /\ (forall k, k <> key -> st' !! k = st0 !! k))
  /\ exists st1 st2 : worker.Store,
       worker.FetchAndUpdateState regresses fetch1 extract st key = Some (st1, None)
       /\ worker.storedUnits st1 key = [A]
       /\ worker.GetUnit st1 key (worker.Path B) = None
       /\ worker.FetchAndUpdateState regresses fetch2 extract st1 key = Some (st2, None)
       /\ worker.storedUnits st2 key = [A'; B]
       /\ worker.GetUnit st2 key (worker.Path A) = Some A'
       /\ worker.GetUnit st2 key (worker.Path B) = Some B
       /\ (forall path u, worker.GetUnit st2 key path = Some u -> u = A' \/ u = B)
       /\ (forall k, k <> key -> st2 !! k = st !! k).
Proof.
  intros Habs Hfetch1 Hextract1 Hf1 Hp1 Hfetch2 Hextract2 Hf2 Hp2 HA' HB HmA HmB Hreg.
  split.
  - intros st0 units Hex Hdeg.
    destruct (ingest_valid_replaces regresses fetch2 extract st0 key raw2 units
                info2 f2 Hfetch2 Hex Hf2 Hp2 Hdeg)
      as (st' & Hrun & Hst & Hget & Hother).
    exists st'. repeat split; try assumption.
    intros path u Hu. rewrite Hget in Hu. now apply find_some in Hu as [Hin _].
  - destruct (FetchAndUpdateState_replace regresses fetch1 extract st key raw1 [A]
                info1 f1 Hfetch1 Hextract1 Hf1 Hp1) as (m1 & Hm1 & Hrun1).
    assert (Hrep1 : worker.Replace regresses st key m1 = (<[key := m1]> st, None)).
    { unfold worker.Replace, worker.storedUnits. now rewrite Habs. }
    rewrite Hrep1 in Hrun1.
    assert (HneBA : String.eqb (worker.Path A) (worker.Path B) = false).
    { apply String.eqb_neq. congruence. }
    assert (Hdeg2 : worker.degenerate regresses
                      (worker.storedUnits (<[key := m1]> st) key) [A'; B] = false).
    { rewrite storedUnits_insert, Hm1. unfold worker.degenerate.
      simpl. now rewrite HmA, HmB, Hreg. }
    destruct (ingest_valid_replaces regresses fetch2 extract (<[key := m1]> st) key
                raw2 [A'; B] info2 f2 Hfetch2 Hextract2 Hf2 Hp2 Hdeg2)
      as (st2 & Hrun2 & Hst2 & Hget2 & Hother2).
    exists (<[key := m1]> st), st2.
    split; [exact Hrun1|]. split; [now rewrite storedUnits_insert|].
    split; [rewrite GetUnit_insert, Hm1; simpl; now rewrite HneBA|].
    split; [exact Hrun2|]. split; [exact Hst2|].
    split; [rewrite Hget2; simpl; now rewrite HA', String.eqb_refl|].
    split; [rewrite Hget2; simpl; now rewrite HA', HneBA, String.eqb_refl|].
    split.
    + intros path u Hu. rewrite Hget2 in Hu. apply find_some in Hu as [Hin _].
      simpl in Hin. intuition.
    + intros k Hk. rewrite (Hother2 k Hk). now apply lookup_insert_ne.
Qed.

Lemma reingest_valid_supersedes_witness :
  worker.missingMandatory unitFoo = false
  /\ worker.missingMandatory unitBar = false
  /\ dropsStoredUnit [unitFooOld] [unitFoo; unitBar] = false
  /\ exists st1 st2 : worker.Store,
       worker.FetchAndUpdateState dropsStoredUnit (proxy [unitFooOld]) extractAll
         ∅ sampleKey
       = Some (st1, None)
       /\ worker.storedUnits st1 sampleKey = [unitFooOld]
       /\ worker.GetUnit st1 sampleKey (worker.Path unitBar) = None
       /\ worker.FetchAndUpdateState dropsStoredUnit (proxy [unitFoo; unitBar])
            extractAll st1 sampleKey
          = Some (st2, None)
       /\ worker.storedUnits st2 sampleKey = [unitFoo; unitBar]
       /\ worker.GetUnit st2 sampleKey (worker.Path unitFooOld) = Some unitFoo
       /\ worker.GetUnit st2 sampleKey (worker.Path unitBar) = Some unitBar
       /\ (forall path u,
             worker.GetUnit st2 sampleKey path = Some u -> u = unitFoo \/ u = unitBar)
       /\ (forall k, k <> sampleKey -> st2 !! k = (∅ : worker.Store) !! k).
Proof.
  split; [reflexivity|]. split; [reflexivity|]. split; [vm_compute; reflexivity|].
  refine (proj2 (reingest_valid_supersedes dropsStoredUnit
                   (proxy [unitFooOld]) (proxy [unitFoo; unitBar]) extractAll
                   ∅ sampleKey ([unitFooOld], sampleInfo)
                   ([unitFoo; unitBar], sampleInfo) sampleInfo sampleInfo
                   (modfile.mkFile (Some (moduleDecl [] [])) [])
                   (modfile.mkFile (Some (moduleDecl [] [])) [])
                   unitFooOld unitFoo unitBar
                   (lookup_empty sampleKey) eq_refl eq_refl eq_refl eq_refl
                   eq_refl eq_refl eq_refl eq_refl eq_refl _ eq_refl eq_refl _)).
  - vm_compute; discriminate.
  - vm_compute; reflexivity.
Defined.

(** C7: the "insert invalid" sentinel is a value of its own, different from
    the sentinels of the fetch, extraction and storage failures, and
    [errors.Is] tells them apart on every error value: an error that is the
    "insert invalid" one is none of the others.  Whenever
    [FetchAndUpdateState] ends with an error, that error is the "insert
    invalid" one exactly when the fetch and the extraction succeeded (the
    store declined the candidate); it is the fetch failure exactly when the
    fetch failed and the extraction failure exactly when the extraction
    failed. *)
Theorem insert_invalid_distinguished :
  derrors.DBModuleInsertInvalid <> derrors.Sentinel derrors.FetchFailed
  /\ derrors.DBModuleInsertInvalid <> derrors.Sentinel derrors.ExtractionFailed
  /\ derrors.DBModuleInsertInvalid <> derrors.Sentinel derrors.StorageUnavailable
  /\ (forall e : derrors.error,
        derrors.Is e derrors.DBModuleInsertInvalid = true ->
        derrors.Is e (derrors.Sentinel derrors.FetchFailed) = false
        /\ derrors.Is e (derrors.Sentinel derrors.ExtractionFailed) = false
        /\ derrors.Is e (derrors.Sentinel derrors.StorageUnavailable) = false)
  /\ (forall (regresses : list worker.Unit -> list worker.Unit -> bool)
             (Raw : Type) (fetch : string * string -> option Raw)
             (extract : Raw -> option (list worker.Unit * internal.RawLatestInfo))
             (st st' : worker.Store) (key : string * string) (e : derrors.error),
        worker.FetchAndUpdateState regresses fetch extract st key
        = Some (st', Some e) ->
        (derrors.Is e derrors.DBModuleInsertInvalid = true
         <-> exists raw c, fetch key = Some raw /\ extract raw = Some c)
        /\ (derrors.Is e (derrors.Sentinel derrors.FetchFailed) = true
            <-> fetch key = None)
        /\ (derrors.Is e (derrors.Sentinel derrors.ExtractionFailed) = true
            <-> exists raw, fetch key = Some raw /\ extract raw = None)).
Proof.
  split; [discriminate|]. split; [discriminate|]. split; [discriminate|]. split.
  - intros e. unfold derrors.DBModuleInsertInvalid. rewrite !Is_sentinel.
    intros He. apply bool_decide_eq_true_1 in He. rewrite He. auto.
  - intros regresses Raw fetch extract st st' key e.
    unfold worker.FetchAndUpdateState.
    destruct (fetch key) as [raw|] eqn:Hfetch.
    + destruct (extract raw) as [[units info]|] eqn:Hextract.
      * destruct (internal.PopulateModule _ _) as [m|m]; [|discriminate].
        destruct (Replace_cases regresses st key m) as [-> | ->]; [|discriminate].
        intros H; inversion H; subst.
        split; [|split]; (split; [intros He | intros Hex]).
        -- eauto.
        -- reflexivity.
        -- cbn in He; discriminate He.
        -- discriminate Hex.
        -- cbn in He; discriminate He.
        -- destruct Hex as (raw' & Hr & Hx). inversion Hr; subst.
           rewrite Hextract in Hx. discriminate Hx.
      * intros H; inversion H; subst.
        split; [|split]; (split; [intros He | intros Hex]).
        -- cbn in He; discriminate He.
        -- destruct Hex as (raw' & c & Hr & Hx). inversion Hr; subst.
           rewrite Hextract in Hx. discriminate Hx.
        -- cbn in He; discriminate He.
        -- discriminate Hex.
        -- eauto.
        -- reflexivity.
    + intros H; inversion H; subst.
      split; [|split]; (split; [intros He | intros Hex]).
      * cbn in He; discriminate He.
      * destruct Hex as (raw' & c & Hr & Hx). discriminate Hr.
      * reflexivity.
      * reflexivity.
      * cbn in He; discriminate He.
      * destruct Hex as (raw' & Hr & Hx). discriminate Hr.
Qed.

Lemma insert_invalid_distinguished_witness :
  let stored : worker.Store :=
    {[ sampleKey := internal.mkModule "v1.0.0" false "" false "" [unitFoo; unitBar] ]} in
  let rejected := derrors.Wrap "insert module" derrors.DBModuleInsertInvalid in
  worker.FetchAndUpdateState dropsStoredUnit (proxy [unitFoo]) extractAll
    stored sampleKey
  = Some (stored, Some rejected)
  /\ derrors.Is rejected derrors.DBModuleInsertInvalid = true
  /\ derrors.Is rejected (derrors.Sentinel derrors.FetchFailed) = false
  /\ derrors.Is rejected (derrors.Sentinel derrors.ExtractionFailed) = false.
Proof.
  intros stored rejected.
  assert (Hrun : worker.FetchAndUpdateState dropsStoredUnit (proxy [unitFoo])
                   extractAll stored sampleKey
                 = Some (stored, Some rejected)).
  { unfold worker.FetchAndUpdateState. simpl. apply f_equal.
    apply Replace_rejects.
    - unfold worker.storedUnits, stored. rewrite lookup_singleton_eq. discriminate.
    - unfold worker.storedUnits, stored. rewrite lookup_singleton_eq.
      vm_compute; reflexivity. }
  split; [exact Hrun|].
  destruct insert_invalid_distinguished as (_ & _ & _ & Hkinds & Hcalls).
  destruct (Hcalls dropsStoredUnit _ (proxy [unitFoo]) extractAll stored stored
              sampleKey rejected Hrun)
    as (Hinv & _ & _).
  assert (His : derrors.Is rejected derrors.DBModuleInsertInvalid = true).
  { apply Hinv. exists ([unitFoo], sampleInfo), ([unitFoo], sampleInfo).
    split; reflexivity. }
  split; [exact His|]. destruct (Hkinds rejected His) as (H1 & H2 & _). auto.
Defined.

(** C8: the lifecycle status is a function of the go.mod file and the
    version of the module: two modules of the same version get the same four
    lifecycle fields from the same raw latest information, and populating an
    already populated module changes nothing.  Ingesting the same contents a
    second time leaves the store exactly as the first ingestion left it. *)
Theorem lifecycle_recomputation_idempotent {R Raw : Type} :
  (forall (r : internal.RawLatestInfo) (m m' : internal.Module_ R),
      internal.PopulateModule r m = internal.Returned m' ->
      internal.PopulateModule r m' = internal.Returned m')
  /\ (forall (r : internal.RawLatestInfo) (m1 m2 m1' : internal.Module_ R),
      internal.Version m1 = internal.Version m2 ->
      internal.PopulateModule r m1 = internal.Returned m1' ->
      exists m2',
        internal.PopulateModule r m2 = internal.Returned m2'
        /\ internal.Deprecated m2' = internal.Deprecated m1'
        /\ internal.DeprecationComment m2' = internal.DeprecationComment m1'
        /\ internal.Retracted m2' = internal.Retracted m1'
        /\ internal.RetractionRationale m2' = internal.RetractionRationale m1')
  /\ (forall (regresses : list worker.Unit -> list worker.Unit -> bool)
             (fetch : string * string -> option Raw)
             (extract : Raw -> option (list worker.Unit * internal.RawLatestInfo))
             (st st1 : worker.Store) (key : string * string)
             (result : option derrors.error),
      worker.FetchAndUpdateState regresses fetch extract st key
      = Some (st1, result) ->
      exists result',
        worker.FetchAndUpdateState regresses fetch extract st1 key
        = Some (st1, result')).
Proof.
  split; [|split].
  - intros r m m'. unfold internal.PopulateModule.
    destruct (internal.isDeprecated (internal.GoModFile r)) as [[d dc]|];
      [|discriminate].
    simpl.
    destruct (internal.isRetracted (internal.GoModFile r) (internal.Version m))
      as [[t tr]|] eqn:Ht; [|discriminate].
    intros H; inversion H; subst; simpl. now rewrite Ht.
  - intros r m1 m2 m1' Hv. unfold internal.PopulateModule.
    destruct (internal.isDeprecated (internal.GoModFile r)) as [[d dc]|];
      [|discriminate].
    simpl. rewrite <- Hv.
    destruct (internal.isRetracted (internal.GoModFile r) (internal.Version m1))
      as [[t tr]|]; [|discriminate].
    intros H; inversion H; subst; simpl. eexists. split; [reflexivity|]. auto.
  - intros regresses fetch extract st st1 key result.
    unfold worker.FetchAndUpdateState.
    destruct (fetch key) as [raw|]; [|intros H; inversion H; subst; eauto].
    destruct (extract raw) as [[units info]|]; [|intros H; inversion H; subst; eauto].
    destruct (internal.PopulateModule _ _) as [m|m]; [|discriminate].
    destruct (Replace_cases regresses st key m) as [Hrep | Hrep]; rewrite Hrep;
      intros H; inversion H; subst.
    + rewrite Hrep. eauto.
    + destruct (Replace_cases regresses (<[key := m]> st) key m) as [-> | ->];
        [eauto|].
      rewrite insert_insert_eq. eauto.
Qed.

Lemma lifecycle_recomputation_idempotent_witness :
  let r := internal.mkRawLatestInfo "example.com/m" "v1.9.0" (Some sampleFile) in
  let m' := internal.mkModule "v1.1.0" true "use baz instead" true "bug" ["LICENSE"] in
  internal.PopulateModule r (sampleModule "v1.1.0") = internal.Returned m'
  /\ internal.PopulateModule r m' = internal.Returned m'
  /\ exists st1 result,
       worker.FetchAndUpdateState dropsStoredUnit (proxy [unitFoo; unitBar])
         extractAll ∅ sampleKey = Some (st1, None)
       /\ worker.FetchAndUpdateState dropsStoredUnit (proxy [unitFoo; unitBar])
            extractAll st1 sampleKey = Some (st1, result).
Proof.
  intros r m'.
  assert (H : internal.PopulateModule r (sampleModule "v1.1.0") = internal.Returned m')
    by (vm_compute; reflexivity).
  destruct (@lifecycle_recomputation_idempotent (list string)
              (list worker.Unit * internal.RawLatestInfo)) as (Hidem & _ & Htwice).
  split; [exact H|]. split; [exact (Hidem r (sampleModule "v1.1.0") m' H)|].
  assert (Hfirst : worker.FetchAndUpdateState dropsStoredUnit
                     (proxy [unitFoo; unitBar]) extractAll ∅ sampleKey
                   = Some (<[sampleKey :=
                               internal.mkModule "v1.0.0" false "" false ""
                                 [unitFoo; unitBar]]> ∅, None)).
  { unfold worker.FetchAndUpdateState. simpl. apply f_equal.
    unfold worker.Replace, worker.storedUnits. now rewrite lookup_empty. }
  destruct (Htwice dropsStoredUnit (proxy [unitFoo; unitBar]) extractAll ∅ _
              sampleKey None Hfirst) as (result & Hsecond).
  eauto.
Defined.

(** ** Further properties of the deprecation scan *)

Lemma app_cons (c : ascii) (a b : string) :
  (String c a ++ b)%string = String c (a ++ b).
Proof. reflexivity. Qed.

Lemma app_empty_l (b : string) : ("" ++ b)%string = b.
Proof. reflexivity. Qed.

Lemma length_app (a b : string) :
  String.length (a ++ b) = (String.length a + String.length b)%nat.
Proof.
  induction a as [|c a IH]; [reflexivity|].
  rewrite app_cons. simpl. now rewrite IH.
Qed.

Lemma byte_at_app_l (a b : string) (k : nat) :
  (k < String.length a)%nat -> byte_at (a ++ b) k = byte_at a k.
Proof.
  revert k; induction a as [|c a IH]; intros k Hk; simpl in Hk; [lia|].
  rewrite app_cons. destruct k as [|k]; [reflexivity|].
  unfold byte_at in *; simpl. apply IH. lia.
Qed.

Lemma byte_at_app_r (a b : string) (n : nat) :
  byte_at (a ++ b) (String.length a + n) = byte_at b n.
Proof.
  induction a as [|c a IH]; [reflexivity|].
  rewrite app_cons. unfold byte_at in *; simpl. exact IH.
Qed.

Lemma stake_app (a b : string) : stake (String.length a) (a ++ b) = a.
Proof.
  induction a as [|c a IH]; [now destruct b|].
  rewrite app_cons. simpl. now rewrite IH.
Qed.

Lemma sdrop_app (a b : string) : sdrop (String.length a) (a ++ b) = b.
Proof.
  induction a as [|c a IH]; [reflexivity|]. rewrite app_cons. simpl. exact IH.
Qed.

Lemma app_assoc_string (a b c : string) : ((a ++ b) ++ c = a ++ (b ++ c))%string.
Proof.
  induction a as [|x a IH]; [reflexivity|]. rewrite !app_cons. now rewrite IH.
Qed.

Lemma app_empty_r (a : string) : (a ++ "")%string = a.
Proof.
  induction a as [|x a IH]; [reflexivity|]. rewrite app_cons. now rewrite IH.
Qed.

Lemma asciiSpace_ascii (b : N) :
  strings.asciiSpace b = true -> (utf8.RuneSelf <=? b)%N = false.
Proof.
  unfold strings.asciiSpace, utf8.RuneSelf. rewrite !orb_true_iff, !N.eqb_eq.
  intros H. apply N.leb_gt. lia.
Qed.

Lemma plainByte_spec (b : N) :
  plainByte b = true ->
  (utf8.RuneSelf <=? b)%N = false /\ strings.asciiSpace b = false.
Proof.
  unfold plainByte. rewrite andb_true_iff, negb_true_iff, N.ltb_lt.
  intros [Hlt Hsp]. split; [apply N.leb_gt; exact Hlt | exact Hsp].
Qed.

Lemma allSpace_byte_at (b : string) (n : nat) :
  allSpace b = true -> (n < String.length b)%nat ->
  strings.asciiSpace (byte_at b n) = true.
Proof.
  revert n; induction b as [|c b IH]; intros n Hb Hn; simpl in *; [lia|].
  apply andb_prop in Hb as [Hc Hb].
  destruct n as [|n]; [exact Hc|].
  unfold byte_at in *; simpl. apply IH; [exact Hb | lia].
Qed.

Lemma allSpace_app (a b : string) :
  allSpace a = true -> allSpace b = true -> allSpace (a ++ b) = true.
Proof.
  induction a as [|c a IH]; intros Ha Hb; [exact Hb|].
  rewrite app_cons. simpl in *.
  apply andb_prop in Ha as [Hc Ha]. now rewrite Hc, IH.
Qed.

(** The first loop of [TrimSpace] steps over leading ASCII white space. *)
Lemma TrimSpace_leading (a s : string) :
  allSpace a = true -> strings.TrimSpace (a ++ s) = strings.TrimSpace s.
Proof.
  induction a as [|c a IH]; intros Ha; [reflexivity|].
  rewrite app_cons. simpl in *.
  apply andb_prop in Ha as [Hc Ha].
  now rewrite (asciiSpace_ascii _ Hc), Hc, IH.
Qed.

Lemma TrimSpace_allSpace (b : string) :
  allSpace b = true -> strings.TrimSpace b = "".
Proof.
  intros Hb. rewrite <- (app_empty_r b). now rewrite TrimSpace_leading.
Qed.

(** The second loop of [TrimSpace] steps back over trailing ASCII white
    space. *)
Lemma trimSpaceStop_trailing (t b : string) (n : nat) :
  allSpace b = true -> (n <= String.length b)%nat ->
  strings.trimSpaceStop (t ++ b) (String.length t + n)
  = strings.trimSpaceStop (t ++ b) (String.length t).
Proof.
  intros Hb. induction n as [|n IH]; intros Hn.
  - now rewrite Nat.add_0_r.
  - rewrite Nat.add_succ_r. cbn [strings.trimSpaceStop].
    rewrite byte_at_app_r.
    pose proof (allSpace_byte_at b n Hb ltac:(lia)) as Hsp.
    rewrite (asciiSpace_ascii _ Hsp), Hsp. apply IH. lia.
Qed.

Lemma trimSpaceStop_plain (t b : string) :
  t <> "" -> plainByte (byte_at t (String.length t - 1)) = true ->
  strings.trimSpaceStop (t ++ b) (String.length t) = t.
Proof.
  intros Hne Hlast.
  destruct (String.length t) as [|k] eqn:Hlen.
  - destruct t; [congruence | discriminate].
  - cbn [strings.trimSpaceStop].
    replace (S k - 1)%nat with k in Hlast by lia.
    rewrite byte_at_app_l by lia.
    destruct (plainByte_spec _ Hlast) as [H1 H2]. rewrite H1, H2.
    rewrite <- Hlen. apply stake_app.
Qed.

(** [TrimSpace] gives back a text with clean ends from any ASCII white-space
    padding. *)
Lemma TrimSpace_padded (a t b : string) :
  allSpace a = true -> allSpace b = true -> cleanEnds t = true ->
  strings.TrimSpace (a ++ t ++ b) = t.
Proof.
  intros Ha Hb Ht. rewrite TrimSpace_leading by exact Ha.
  destruct t as [|c t']; [now apply TrimSpace_allSpace|].
  unfold cleanEnds in Ht. apply andb_prop in Ht as [Hfirst Hlast].
  destruct (plainByte_spec _ Hfirst) as [H1 H2].
  rewrite app_cons. cbn [strings.TrimSpace]. rewrite H1, H2.
  rewrite <- app_cons.
  rewrite length_app, trimSpaceStop_trailing by (exact Hb || lia).
  apply trimSpaceStop_plain; [discriminate | exact Hlast].
Qed.

Lemma HasPrefix_app (p rest : string) : strings.HasPrefix (p ++ rest) p = true.
Proof.
  unfold strings.HasPrefix. rewrite length_app, stake_app, String.eqb_refl.
  rewrite andb_true_r. apply Nat.leb_le. lia.
Qed.

Lemma TrimPrefix_app (p rest : string) : strings.TrimPrefix (p ++ rest) p = rest.
Proof. unfold strings.TrimPrefix. now rewrite HasPrefix_app, sdrop_app. Qed.

(** The text [isDeprecated] tests for a comment token that is "//", ASCII
    white space, a text with clean ends, ASCII white space. *)
Lemma commentText_padded (c : modfile.Comment) (a t b : string) :
  modfile.Token c = ("//" ++ a ++ t ++ b)%string ->
  allSpace a = true -> allSpace b = true -> cleanEnds t = true ->
  internal.commentText c = t.
Proof.
  intros Htoken Ha Hb Ht. unfold internal.commentText.
  rewrite Htoken, TrimPrefix_app. now apply TrimSpace_padded.
Qed.

Lemma cleanEnds_last (t : string) :
  t <> "" -> cleanEnds t = true ->
  plainByte (byte_at t (String.length t - 1)) = true.
Proof.
  intros Hne Ht. destruct t as [|c t]; [congruence|].
  unfold cleanEnds in Ht. now apply andb_prop in Ht as [_ Hlast].
Qed.

Lemma cleanEnds_between (c : ascii) (t r : string) :
  plainByte (byte_val c) = true -> r <> "" ->
  plainByte (byte_at r (String.length r - 1)) = true ->
  cleanEnds (String c t ++ r) = true.
Proof.
  intros Hc Hr Hlast. rewrite app_cons. unfold cleanEnds. rewrite Hc. cbn [andb].
  rewrite <- app_cons, length_app.
  replace (String.length (String c t) + String.length r - 1)%nat
    with (String.length (String c t) + (String.length r - 1))%nat.
  - now rewrite byte_at_app_r.
  - destruct r; [congruence | simpl; lia].
Qed.

(** The scan answers with the first marked comment (the loop lemma behind
    the deprecation results). *)
Lemma isDeprecated_at (mf : modfile.File) (md : modfile.Module_) (ln : modfile.Line)
    (pre : list modfile.Comment) (c : modfile.Comment) (post : list modfile.Comment) :
  modfile.File_Module mf = Some md ->
  modfile.Mod_Syntax md = Some ln ->
  (modfile.Before (modfile.Line_Comments ln)
   ++ modfile.Suffix (modfile.Line_Comments ln))%list = (pre ++ c :: post)%list ->
  forallb (fun c' =>
             negb (strings.HasPrefix (internal.commentText c') internal.prefix))
    pre = true ->
  strings.HasPrefix (internal.commentText c) internal.prefix = true ->
  internal.isDeprecated (Some mf)
  = Some (true, strings.TrimSpace
                  (sdrop (String.length internal.prefix) (internal.commentText c))).
Proof.
  intros Hmd Hln Hsplit Hpre Hc.
  unfold internal.isDeprecated; simpl. rewrite Hmd; simpl. rewrite Hln; simpl.
  rewrite Hsplit, isDeprecated_range_find.
  now rewrite (find_first _ pre c post Hpre Hc).
Qed.

(** X1: a deprecation notice written as "//", optional blanks,
    "Deprecated:", optional blanks, a reason, optional blanks (blanks being
    ASCII white space, the reason empty or beginning and ending with an
    ASCII byte that is not white space) is read back exactly: when it is the
    first marked comment of the module line, [isDeprecated] answers [true]
    with that reason, blanks removed and everything between the ends of the
    reason kept byte for byte. *)
Theorem isDeprecated_notice_roundtrip
    (mf : modfile.File) (md : modfile.Module_) (ln : modfile.Line)
    (pre : list modfile.Comment) (c : modfile.Comment) (post : list modfile.Comment)
    (a b e reason : string) :
  modfile.File_Module mf = Some md ->
  modfile.Mod_Syntax md = Some ln ->
  (modfile.Before (modfile.Line_Comments ln)
   ++ modfile.Suffix (modfile.Line_Comments ln))%list = (pre ++ c :: post)%list ->
  forallb (fun c' =>
             negb (strings.HasPrefix
                     (strings.TrimSpace (strings.TrimPrefix (modfile.Token c') "//"))
                     "Deprecated:"))
    pre = true ->
  modfile.Token c = ("//" ++ a ++ "Deprecated:" ++ b ++ reason ++ e)%string ->
  allSpace a = true -> allSpace b = true -> allSpace e = true ->
  cleanEnds reason = true ->
  internal.isDeprecated (Some mf) = Some (true, reason).
Proof.
  intros Hmd Hln Hsplit Hpre Htoken Ha Hb He Hreason.
  assert (Htext : exists rest,
             internal.commentText c = ("Deprecated:" ++ rest)%string
             /\ strings.TrimSpace rest = reason).
  { destruct (String.eqb_spec reason "") as [-> | Hne].
    - exists "". split; [|reflexivity].
      apply (commentText_padded c a "Deprecated:" (b ++ e));
        [| exact Ha | now apply allSpace_app | reflexivity].
      rewrite Htoken. now rewrite app_empty_l.
    - exists (b ++ reason)%string. split.
      + apply (commentText_padded c a ("Deprecated:" ++ b ++ reason) e);
          [| exact Ha | exact He |].
        * rewrite Htoken. now rewrite !app_assoc_string.
        * rewrite <- app_assoc_string.
          apply cleanEnds_between;
            [reflexivity | exact Hne | now apply cleanEnds_last].
      + rewrite <- (app_empty_r reason) at 1.
        now apply TrimSpace_padded. }
  destruct Htext as (rest & Htext & Hrest).
  rewrite (isDeprecated_at mf md ln pre c post Hmd Hln Hsplit Hpre).
  - rewrite Htext. unfold internal.prefix. now rewrite sdrop_app, Hrest.
  - rewrite Htext. apply HasPrefix_app.
Qed.

Lemma isDeprecated_notice_roundtrip_witness :
  let tab := String (ascii_of_nat 9) "" in
  let notice :=
    lineComment ("//" ++ (tab ++ " ") ++ "Deprecated:" ++ "  "
                 ++ "use  example.com/n (see #12)." ++ (" " ++ tab))%string in
  let mf :=
    modfile.mkFile
      (Some (moduleDecl [lineComment "// Module m."] [notice; lineComment "// Deprecated: x"]))
      [] in
  cleanEnds "use  example.com/n (see #12)." = true
  /\ internal.isDeprecated (Some mf) = Some (true, "use  example.com/n (see #12).").
Proof.
  intros tab notice mf. split; [reflexivity|].
  apply (isDeprecated_notice_roundtrip mf _ _
           [lineComment "// Module m."] notice [lineComment "// Deprecated: x"]
           (tab ++ " ") "  " (" " ++ tab) "use  example.com/n (see #12)."
           eq_refl eq_refl eq_refl);
    reflexivity.
Defined.

(** ** Further properties of the retraction scan *)

Lemma IsValid_parse (v : string) :
  semver.IsValid v = true <-> exists p, semver.parse v = Some p.
Proof.
  unfold semver.IsValid. destruct (semver.parse v) as [p|]; split;
    try discriminate; eauto. intros [p Hp]; discriminate.
Qed.

Lemma IsValid_false_parse (v : string) :
  semver.IsValid v = false <-> semver.parse v = None.
Proof.
  unfold semver.IsValid. destruct (semver.parse v) as [p|]; split;
    congruence.
Qed.

(** [Compare] reads a valid version only through its major, minor, patch
    and prerelease parts. *)
Lemma Compare_same_parts (v w : string) (pv pw : semver.parsed) :
  semver.parse v = Some pv -> semver.parse w = Some pw ->
  semver.major pv = semver.major pw -> semver.minor pv = semver.minor pw ->
  semver.patch pv = semver.patch pw ->
  semver.prerelease pv = semver.prerelease pw ->
  forall x, semver.Compare v x = semver.Compare w x.
Proof.
  intros Hv Hw Hma Hmi Hpa Hpre x. unfold semver.Compare.
  rewrite Hv, Hw. destruct (semver.parse x) as [px|]; [|reflexivity].
  now rewrite Hma, Hmi, Hpa, Hpre.
Qed.

Lemma inInterval_same_precedence (v w : string) (r : modfile.Retract) :
  semver.IsValid v = true -> semver.IsValid w = true ->
  semver.Compare v w = 0%Z ->
  internal.inInterval v r = internal.inInterval w r.
Proof.
  intros Hv Hw Hvw.
  apply IsValid_parse in Hv as [pv Hv]. apply IsValid_parse in Hw as [pw Hw].
  apply (Compare_zero_parts v w pv pw Hv Hw) in Hvw as (Hma & Hmi & Hpa & Hpre).
  unfold internal.inInterval.
  now rewrite !(Compare_same_parts v w pv pw Hv Hw Hma Hmi Hpa Hpre).
Qed.

(** X2: two valid versions that [semver.Compare] holds equal (as v2.0.0 and
    v2.0.0+incompatible, or v1 and v1.0.0: build metadata and the short
    forms do not count) get the same answer from [isRetracted], on every
    manifest, panics included. *)
Theorem isRetracted_same_precedence
    (mf : option modfile.File) (v w : string) :
  semver.IsValid v = true -> semver.IsValid w = true ->
  semver.Compare v w = 0%Z ->
  internal.isRetracted mf v = internal.isRetracted mf w.
Proof.
  intros Hv Hw Hvw. destruct mf as [f|]; [|reflexivity].
  unfold internal.isRetracted; simpl.
  induction (modfile.File_Retract f) as [|[r|] rs IH]; simpl;
    [reflexivity | | reflexivity].
  now rewrite (inInterval_same_precedence v w r Hv Hw Hvw), IH.
Qed.

Lemma isRetracted_same_precedence_witness :
  semver.Compare "v1.1.0+build.7" "v1.1" = 0%Z
  /\ internal.isRetracted (Some sampleFile) "v1.1.0+build.7"
     = internal.isRetracted (Some sampleFile) "v1.1"
  /\ internal.isRetracted (Some sampleFile) "v1.1" = Some (true, "bug").
Proof.
  split; [vm_compute; reflexivity|]. split; [|vm_compute; reflexivity].
  apply isRetracted_same_precedence; vm_compute; reflexivity.
Defined.

(** X3: a resolved version that is not a valid semantic version (no leading
    "v", a leading zero, a missing part after a dot, ...) is never reported
    retracted by a manifest whose directives have valid lower bounds, as
    those of a parsed go.mod are: the answer is [(false, "")]. *)
Theorem isRetracted_invalid_version
    (f : modfile.File) (ds : list modfile.Retract) (resolvedVersion : string) :
  modfile.File_Retract f = map Some ds ->
  forallb (fun r => semver.IsValid (modfile.Low r)) ds = true ->
  semver.IsValid resolvedVersion = false ->
  internal.isRetracted (Some f) resolvedVersion = Some (false, "").
Proof.
  intros Hf Hds Hv. unfold internal.isRetracted; simpl. rewrite Hf. clear Hf.
  apply IsValid_false_parse in Hv.
  induction ds as [|d ds IH]; simpl in *; [reflexivity|].
  apply andb_prop in Hds as [Hd Hds].
  apply IsValid_parse in Hd as [pl Hl].
  unfold internal.inInterval at 1. unfold semver.Compare at 1.
  rewrite Hv, Hl. simpl. exact (IH Hds).
Qed.

Lemma isRetracted_invalid_version_witness :
  semver.IsValid "1.1.0" = false
  /\ semver.IsValid "v1.01.0" = false
  /\ internal.isRetracted (Some sampleFile) "1.1.0" = Some (false, "")
  /\ internal.isRetracted (Some sampleFile) "v1.01.0" = Some (false, "").
Proof.
  split; [reflexivity|]. split; [reflexivity|].
  split;
    apply (isRetracted_invalid_version sampleFile
             [modfile.mkRetract "v1.0.0" "v1.2.0" "bug" None;
              modfile.mkRetract "v1.1.0" "v1.5.0" "security" None]);
    reflexivity.
Defined.

(** X4: a directive whose two bounds are both invalid versions matches
    exactly the invalid resolved versions: every string that is not a valid
    version is reported retracted with its rationale, and no valid version
    is. *)
Theorem isRetracted_invalid_bounds
    (md : option modfile.Module_) (r : modfile.Retract) (resolvedVersion : string) :
  semver.IsValid (modfile.Low r) = false ->
  semver.IsValid (modfile.High r) = false ->
  internal.isRetracted (Some (modfile.mkFile md [Some r])) resolvedVersion
  = Some (if semver.IsValid resolvedVersion then (false, "")
          else (true, modfile.Rationale r)).
Proof.
  intros Hl Hh. apply IsValid_false_parse in Hl, Hh.
  unfold internal.isRetracted; simpl.
  unfold internal.inInterval, semver.Compare, semver.IsValid.
  rewrite Hl, Hh. now destruct (semver.parse resolvedVersion).
Qed.

Lemma isRetracted_invalid_bounds_witness :
  semver.IsValid "1.0.0" = false
  /\ internal.isRetracted (Some retractBugBare) "not a version" = Some (true, "bug")
  /\ internal.isRetracted (Some retractBugBare) "v1.1.0" = Some (false, "").
Proof.
  split; [reflexivity|]. split.
  - exact (isRetracted_invalid_bounds None
             (modfile.mkRetract "1.0.0" "1.2.0" "bug" None) "not a version"
             eq_refl eq_refl).
  - exact (isRetracted_invalid_bounds None
             (modfile.mkRetract "1.0.0" "1.2.0" "bug" None) "v1.1.0"
             eq_refl eq_refl).
Defined.

Lemma isRetracted_range_app (rs1 rs2 : list (option modfile.Retract)) (v : string) :
  internal.isRetracted_range (rs1 ++ rs2)%list v
  = match internal.isRetracted_range rs1 v with
    | Some (false, _) => internal.isRetracted_range rs2 v
    | answer => answer
    end.
Proof.
  induction rs1 as [|[r|] rs1 IH]; simpl; [reflexivity | | reflexivity].
  destruct (internal.inInterval v r); [reflexivity | exact IH].
Qed.

(** X5: the directives are scanned as one sequence: on the directives
    [rs1] followed by [rs2], [isRetracted] gives the answer of [rs1] when
    that is a retraction (or a panic) and the answer of [rs2] otherwise,
    whatever the module declarations.  So directives added after the
    existing ones never change the rationale of, or withdraw, a retraction
    the existing ones establish. *)
Theorem isRetracted_append
    (md md1 md2 : option modfile.Module_) (rs1 rs2 : list (option modfile.Retract))
    (resolvedVersion : string) :
  internal.isRetracted (Some (modfile.mkFile md (rs1 ++ rs2)%list)) resolvedVersion
  = match internal.isRetracted (Some (modfile.mkFile md1 rs1)) resolvedVersion with
    | Some (false, _) =>
        internal.isRetracted (Some (modfile.mkFile md2 rs2)) resolvedVersion
    | answer => answer
    end
  /\ forall rationale,
       internal.isRetracted (Some (modfile.mkFile md1 rs1)) resolvedVersion
       = Some (true, rationale) ->
       internal.isRetracted (Some (modfile.mkFile md (rs1 ++ rs2)%list)) resolvedVersion
       = Some (true, rationale).
Proof.
  unfold internal.isRetracted; simpl. rewrite isRetracted_range_app.
  split; [reflexivity|]. intros rationale H. now rewrite H.
Qed.

Lemma isRetracted_append_witness :
  internal.isRetracted (Some retractBug) "v1.1.0" = Some (true, "bug")
  /\ internal.isRetracted
       (Some (modfile.mkFile None
                [retract "v1.0.0" "v1.2.0" "bug"; retract "v1.1.0" "v1.1.0" "typo"]))
       "v1.1.0"
     = Some (true, "bug").
Proof.
  split; [vm_compute; reflexivity|].
  apply (proj2 (isRetracted_append None None None
                  [retract "v1.0.0" "v1.2.0" "bug"]
                  [retract "v1.1.0" "v1.1.0" "typo"] "v1.1.0")).
  vm_compute; reflexivity.
Defined.

Lemma isRetracted_range_None (rs : list (option modfile.Retract)) (v : string) :
  internal.isRetracted_range rs v = None <->
  exists pre post,
    rs = (map Some pre ++ None :: post)%list
    /\ forallb (fun r => negb (internal.inInterval v r)) pre = true.
Proof.
  induction rs as [|[r|] rs IH]; simpl.
  - split; [discriminate|]. intros (pre & post & H & _).
    destruct pre; discriminate.
  - destruct (internal.inInterval v r) eqn:Hr.
    + split; [discriminate|]. intros (pre & post & H & Hpre).
      destruct pre as [|p pre]; [discriminate|].
      simpl in H, Hpre. inversion H; subst. rewrite Hr in Hpre. discriminate.
    + rewrite IH. split.
      * intros (pre & post & H & Hpre). exists (r :: pre), post.
        simpl. now rewrite H, Hr.
      * intros (pre & post & H & Hpre).
        destruct pre as [|p pre]; [discriminate|].
        simpl in H, Hpre. inversion H; subst.
        apply andb_prop in Hpre as [_ Hpre]. eauto.
  - split; [|reflexivity]. intros _. exists [], rs. split; reflexivity.
Qed.

(** X6: [isRetracted] panics on a nil manifest, and on a manifest value
    exactly when a nil entry of the retract list is reached, that is, when
    the list is some directives, none of which contains the version,
    followed by a nil entry.  A nil entry after the first directive that
    contains the version is never looked at. *)
Theorem isRetracted_panics_iff (f : modfile.File) (resolvedVersion : string) :
  internal.isRetracted None resolvedVersion = None
  /\ (internal.isRetracted (Some f) resolvedVersion = None <->
      exists pre post,
        modfile.File_Retract f = (map Some pre ++ None :: post)%list
        /\ forallb (fun r => negb (internal.inInterval resolvedVersion r)) pre = true).
Proof.
  split; [reflexivity|]. unfold internal.isRetracted; simpl.
  apply isRetracted_range_None.
Qed.

Lemma isRetracted_panics_iff_witness :
  let f := modfile.mkFile None [retract "v1.0.0" "v1.2.0" "bug"; None] in
  internal.isRetracted (Some f) "v1.3.0" = None
  /\ internal.isRetracted (Some f) "v1.1.0" = Some (true, "bug").
Proof.
  intros f. split; [|vm_compute; reflexivity].
  apply (proj2 (isRetracted_panics_iff f "v1.3.0")).
  exists [modfile.mkRetract "v1.0.0" "v1.2.0" "bug" None], [].
  split; vm_compute; reflexivity.
Defined.

(** ** Further properties of [PopulateModule] *)

Lemma isDeprecated_range_false (cs : list modfile.Comment) (s : string) :
  internal.isDeprecated_range cs = (false, s) -> s = "".
Proof.
  induction cs as [|c cs IH]; simpl; [congruence|].
  destruct (strings.HasPrefix _ _); [discriminate | exact IH].
Qed.

Lemma isRetracted_range_false (rs : list (option modfile.Retract)) (v s : string) :
  internal.isRetracted_range rs v = Some (false, s) -> s = "".
Proof.
  induction rs as [|[r|] rs IH]; simpl; [congruence | | discriminate].
  destruct (internal.inInterval v r); [discriminate | exact IH].
Qed.

(** X7: after [PopulateModule] returns, a module that is not marked
    deprecated has an empty deprecation comment and a module that is not
    marked retracted has an empty retraction rationale, whatever the two
    fields held before the call. *)
Theorem PopulateModule_unmarked_empty {R : Type}
    (r : internal.RawLatestInfo) (m m' : internal.Module_ R) :
  internal.PopulateModule r m = internal.Returned m' ->
  (internal.Deprecated m' = false -> internal.DeprecationComment m' = "")
  /\ (internal.Retracted m' = false -> internal.RetractionRationale m' = "").
Proof.
  unfold internal.PopulateModule.
  destruct (internal.isDeprecated (internal.GoModFile r)) as [[d dc]|] eqn:Hd;
    [|discriminate].
  simpl.
  destruct (internal.isRetracted (internal.GoModFile r) (internal.Version m))
    as [[t tr]|] eqn:Ht; [|discriminate].
  intros H; inversion H; subst; simpl. clear H. split; intros ->.
  - unfold internal.isDeprecated in Hd.
    destruct (internal.GoModFile r) as [f|]; [simpl in Hd|discriminate].
    destruct (modfile.File_Module f) as [md|]; [|congruence].
    destruct (modfile.Mod_Syntax md) as [ln|]; [simpl in Hd|discriminate].
    inversion Hd as [Hd']. now apply isDeprecated_range_false in Hd'.
  - unfold internal.isRetracted in Ht.
    destruct (internal.GoModFile r) as [f|]; [simpl in Ht|discriminate].
    now apply isRetracted_range_false in Ht.
Qed.

Lemma PopulateModule_unmarked_empty_witness :
  let stale :=
    internal.mkModule "v1.9.0" true "old notice" true "old rationale" ["LICENSE"] in
  let r := internal.mkRawLatestInfo "example.com/m" "v1.9.0" (Some retractBug) in
  internal.PopulateModule r stale
  = internal.Returned (internal.mkModule "v1.9.0" false "" false "" ["LICENSE"])
  /\ internal.DeprecationComment (internal.final (internal.PopulateModule r stale)) = ""
  /\ internal.RetractionRationale (internal.final (internal.PopulateModule r stale)) = "".
Proof.
  intros stale r. split; [vm_compute; reflexivity|].
  destruct (PopulateModule_unmarked_empty r stale
              (internal.mkModule "v1.9.0" false "" false "" ["LICENSE"]) eq_refl)
    as [Hd Ht].
  split; [exact (Hd eq_refl) | exact (Ht eq_refl)].
Defined.

(** ** The order of [semver.Compare] on valid versions *)

Lemma string_compare_refl (x : string) : String.compare x x = Eq.
Proof.
  induction x as [|c x IH]; simpl; [reflexivity|].
  unfold Ascii.compare. now rewrite N.compare_refl.
Qed.

Lemma string_compare_trans (x : string) :
  forall y z : string,
    String.compare x y = Lt -> String.compare y z = Lt -> String.compare x z = Lt.
Proof.
  induction x as [|a x IH]; intros [|b y] [|c z]; simpl; try discriminate;
    try reflexivity.
  unfold Ascii.compare.
  destruct (N.compare_spec (N_of_ascii a) (N_of_ascii b)) as [Hab|Hab|Hab];
    destruct (N.compare_spec (N_of_ascii b) (N_of_ascii c)) as [Hbc|Hbc|Hbc];
    try discriminate; intros H1 H2.
  - rewrite Hab, Hbc, N.compare_refl. eauto.
  - replace (N_of_ascii a ?= N_of_ascii c)%N with Lt; [reflexivity|].
    symmetry. apply N.compare_lt_iff. lia.
  - replace (N_of_ascii a ?= N_of_ascii c)%N with Lt; [reflexivity|].
    symmetry. apply N.compare_lt_iff. lia.
  - replace (N_of_ascii a ?= N_of_ascii c)%N with Lt; [reflexivity|].
    symmetry. apply N.compare_lt_iff. lia.
Qed.

Lemma ltb_irrefl (x : string) : String.ltb x x = false.
Proof. unfold String.ltb. now rewrite string_compare_refl. Qed.

Lemma ltb_trans (x y z : string) :
  String.ltb x y = true -> String.ltb y z = true -> String.ltb x z = true.
Proof.
  unfold String.ltb. intros Hxy Hyz.
  destruct (String.compare x y) eqn:E1; try discriminate.
  destruct (String.compare y z) eqn:E2; try discriminate.
  now rewrite (string_compare_trans x y z E1 E2).
Qed.

Lemma ltb_antisym (x y : string) :
  x <> y -> String.ltb y x = negb (String.ltb x y).
Proof.
  intros Hne. unfold String.ltb. rewrite (String.compare_antisym x y).
  destruct (String.compare y x) eqn:E; simpl; try reflexivity.
  apply String.compare_eq_iff in E. congruence.
Qed.

Lemma cmpIdent_range (a b : string) : cmpIdent a b = (-1)%Z \/ cmpIdent a b = 1%Z.
Proof.
  unfold cmpIdent.
  repeat match goal with |- context [if ?c then _ else _] => destruct c end; auto.
Qed.

Lemma cmpIdent_antisym (a b : string) :
  a <> b -> cmpIdent b a = (- cmpIdent a b)%Z.
Proof.
  intros Hne. unfold cmpIdent. rewrite (ltb_antisym a b Hne).
  destruct (semver.isNum a), (semver.isNum b); simpl; try reflexivity;
    destruct (Nat.ltb_spec (String.length a) (String.length b));
    destruct (Nat.ltb_spec (String.length b) (String.length a));
    try lia; try reflexivity; now destruct (String.ltb a b).
Qed.

Lemma cmpIdent_lt (a b : string) :
  cmpIdent a b = (-1)%Z <->
  (semver.isNum a = true /\ semver.isNum b = false)
  \/ (semver.isNum a = true /\ semver.isNum b = true
      /\ ((String.length a < String.length b)%nat
          \/ (String.length a = String.length b /\ String.ltb a b = true)))
  \/ (semver.isNum a = false /\ semver.isNum b = false /\ String.ltb a b = true).
Proof.
  unfold cmpIdent.
  destruct (semver.isNum a), (semver.isNum b); simpl;
    destruct (Nat.ltb_spec (String.length a) (String.length b));
    destruct (Nat.ltb_spec (String.length b) (String.length a));
    destruct (String.ltb a b); split; intros Hx; try discriminate; try lia;
      intuition (try discriminate; try lia).
Qed.

Lemma cmpIdent_trans (a b c : string) :
  cmpIdent a b = (-1)%Z -> cmpIdent b c = (-1)%Z -> cmpIdent a c = (-1)%Z.
Proof.
  rewrite !cmpIdent_lt.
  intros [(Ha & Hb) | [(Ha & Hb & Hab) | (Ha & Hb & Hab)]]
         [(Hb' & Hc) | [(Hb' & Hc & Hbc) | (Hb' & Hc & Hbc)]];
    try congruence.
  - left. auto.
  - left. auto.
  - right; left. repeat split; try assumption.
    destruct Hab as [Hab | [Hab Hlt]], Hbc as [Hbc | [Hbc Hlt']]; try (left; lia).
    right. split; [lia | eapply ltb_trans; eassumption].
  - right; right. repeat split; try assumption. eapply ltb_trans; eassumption.
Qed.

Lemma cmpIdent_irrefl (a : string) : cmpIdent a a = 1%Z.
Proof.
  unfold cmpIdent. rewrite ltb_irrefl, Nat.ltb_irrefl.
  now destruct (semver.isNum a).
Qed.

Lemma cmpIdent_lt_neq (a b : string) : cmpIdent a b = (-1)%Z -> a <> b.
Proof. intros H ->. rewrite cmpIdent_irrefl in H. discriminate. Qed.

Lemma prereleaseLoop_empty_l (fuel : nat) (y : string) :
  semver.prereleaseLoop fuel "" y = (-1)%Z.
Proof. destruct fuel; reflexivity. Qed.

Lemma prereleaseLoop_empty_r (fuel : nat) (c : ascii) (x : string) :
  semver.prereleaseLoop fuel (String c x) "" = 1%Z.
Proof. destruct fuel; reflexivity. Qed.

Lemma prereleaseLoop_step (k : nat) (c d : ascii) (xr yr : string) :
  semver.prereleaseLoop (S k) (String c xr) (String d yr)
  = if String.eqb (semver.nextIdent xr).1 (semver.nextIdent yr).1
    then semver.prereleaseLoop k (semver.nextIdent xr).2 (semver.nextIdent yr).2
    else cmpIdent (semver.nextIdent xr).1 (semver.nextIdent yr).1.
Proof.
  cbn [semver.prereleaseLoop sdrop].
  replace (String.eqb (String c xr) "") with false by reflexivity.
  replace (String.eqb (String d yr) "") with false by reflexivity.
  cbn [orb].
  destruct (semver.nextIdent xr) as [dx x'], (semver.nextIdent yr) as [dy y'].
  simpl. destruct (String.eqb dx dy); reflexivity.
Qed.

Lemma prereleaseLoop_range (fuel : nat) :
  forall x y : string,
    (String.length x <= fuel)%nat ->
    semver.prereleaseLoop fuel x y = (-1)%Z \/ semver.prereleaseLoop fuel x y = 1%Z.
Proof.
  induction fuel as [|k IH]; intros x y Hlen.
  - destruct x; [left; reflexivity | simpl in Hlen; lia].
  - destruct x as [|c xr]; [left; reflexivity|].
    destruct y as [|d yr]; [right; reflexivity|].
    rewrite prereleaseLoop_step.
    destruct (String.eqb _ _); [|apply cmpIdent_range].
    apply IH. pose proof (nextIdent_rest_length xr). simpl in Hlen. lia.
Qed.

Lemma prereleaseLoop_trans (fuel : nat) :
  forall x y z : string,
    (String.length x <= fuel)%nat -> (String.length y <= fuel)%nat ->
    (String.length z <= fuel)%nat ->
    semver.prereleaseLoop fuel x y = (-1)%Z ->
    semver.prereleaseLoop fuel y z = (-1)%Z ->
    semver.prereleaseLoop fuel x z = (-1)%Z.
Proof.
  induction fuel as [|k IH]; intros x y z Hx Hy Hz Hxy Hyz.
  - destruct x; [reflexivity | simpl in Hx; lia].
  - destruct x as [|c xr]; [reflexivity|].
    destruct y as [|d yr]; [discriminate|].
    destruct z as [|e zr]; [discriminate|].
    rewrite prereleaseLoop_step in *.
    pose proof (nextIdent_rest_length xr). pose proof (nextIdent_rest_length yr).
    pose proof (nextIdent_rest_length zr). simpl in Hx, Hy, Hz.
    destruct (String.eqb_spec (semver.nextIdent xr).1 (semver.nextIdent yr).1)
      as [Exy|Nxy];
      destruct (String.eqb_spec (semver.nextIdent yr).1 (semver.nextIdent zr).1)
        as [Eyz|Nyz].
    + rewrite Exy, Eyz, String.eqb_refl.
      apply (IH _ (semver.nextIdent yr).2); try lia; assumption.
    + rewrite Exy. rewrite (proj2 (String.eqb_neq _ _) Nyz). exact Hyz.
    + rewrite <- Eyz. rewrite (proj2 (String.eqb_neq _ _) Nxy). exact Hxy.
    + pose proof (cmpIdent_trans _ _ _ Hxy Hyz) as Hxz.
      rewrite (proj2 (String.eqb_neq _ _) (cmpIdent_lt_neq _ _ Hxz)). exact Hxz.
Qed.

Lemma stake_sdrop (n : nat) (s : string) : (stake n s ++ sdrop n s)%string = s.
Proof.
  revert s; induction n as [|n IH]; intros [|c s]; simpl; try reflexivity.
  rewrite app_cons. now rewrite IH.
Qed.

Lemma byte_val_inj (c d : ascii) : byte_val c = byte_val d -> c = d.
Proof.
  unfold byte_val. intros H.
  rewrite <- (ascii_N_embedding c), <- (ascii_N_embedding d). now rewrite H.
Qed.

(** What follows an identifier is empty or begins with the dot. *)
Lemma nextIdent_rest_head (s : string) :
  match (semver.nextIdent s).2 with
  | String c _ => byte_val c = 46%N
  | EmptyString => True
  end.
Proof.
  unfold semver.nextIdent; simpl. induction s as [|c s IH]; simpl; [exact I|].
  destruct (N.eqb_spec (byte_val c) 46) as [E|E]; simpl; [exact E | exact IH].
Qed.

Lemma nextIdent_rest_sameHead (s t : string) :
  sameHead (semver.nextIdent s).2 (semver.nextIdent t).2.
Proof.
  pose proof (nextIdent_rest_head s) as Hs. pose proof (nextIdent_rest_head t) as Ht.
  unfold sameHead.
  destruct (semver.nextIdent s).2 as [|c ?]; [exact I|].
  destruct (semver.nextIdent t).2 as [|d ?]; [exact I|].
  apply byte_val_inj. congruence.
Qed.

Lemma nextIdent_join (s : string) :
  ((semver.nextIdent s).1 ++ (semver.nextIdent s).2)%string = s.
Proof. unfold semver.nextIdent; simpl. apply stake_sdrop. Qed.

Lemma prereleaseLoop_antisym (fuel : nat) :
  forall x y : string,
    (String.length x <= fuel)%nat -> (String.length y <= fuel)%nat ->
    x <> y -> sameHead x y ->
    semver.prereleaseLoop fuel y x = (- semver.prereleaseLoop fuel x y)%Z.
Proof.
  induction fuel as [|k IH]; intros x y Hx Hy Hne Hhead.
  - destruct x; [|simpl in Hx; lia]. destruct y; [congruence | simpl in Hy; lia].
  - destruct x as [|c xr], y as [|d yr]; try congruence; try reflexivity.
    simpl in Hhead. subst d.
    rewrite !prereleaseLoop_step. rewrite (String.eqb_sym (semver.nextIdent yr).1).
    pose proof (nextIdent_rest_length xr). pose proof (nextIdent_rest_length yr).
    simpl in Hx, Hy.
    destruct (String.eqb_spec (semver.nextIdent xr).1 (semver.nextIdent yr).1)
      as [E|N].
    + apply IH; try lia; [|apply nextIdent_rest_sameHead].
      intros E'. apply Hne. f_equal.
      rewrite <- (nextIdent_join xr), <- (nextIdent_join yr). now rewrite E, E'.
    + now apply cmpIdent_antisym.
Qed.

Lemma prereleaseForm_sameHead (x y : string) :
  prereleaseForm x -> prereleaseForm y -> sameHead x y.
Proof.
  intros Hx Hy. destruct x as [|c x], y as [|d y]; simpl; try exact I.
  destruct Hx as [Hx|Hx]; [discriminate|]. destruct Hy as [Hy|Hy]; [discriminate|].
  simpl in Hx, Hy. apply N.eqb_eq in Hx, Hy. apply byte_val_inj. congruence.
Qed.

Lemma comparePrerelease_loop (x y : string) (fuel : nat) :
  x <> y -> x <> "" -> y <> "" -> (String.length x <= fuel)%nat ->
  semver.comparePrerelease x y = semver.prereleaseLoop fuel x y.
Proof.
  intros Hne Hx Hy Hlen. unfold semver.comparePrerelease.
  rewrite (proj2 (String.eqb_neq _ _) Hne), (proj2 (String.eqb_neq _ _) Hx),
    (proj2 (String.eqb_neq _ _) Hy).
  apply prereleaseLoop_fuel; lia.
Qed.

Lemma comparePrerelease_empty_l (y : string) :
  y <> "" -> semver.comparePrerelease "" y = 1%Z.
Proof.
  intros Hy. unfold semver.comparePrerelease.
  rewrite (proj2 (String.eqb_neq "" y)) by congruence. reflexivity.
Qed.

Lemma comparePrerelease_empty_r (x : string) :
  x <> "" -> semver.comparePrerelease x "" = (-1)%Z.
Proof.
  intros Hx. unfold semver.comparePrerelease.
  now rewrite !(proj2 (String.eqb_neq x "") Hx).
Qed.

Lemma comparePrerelease_good : goodOrder prereleaseForm semver.comparePrerelease.
Proof.
  split.
  - intros x y. destruct (String.eqb_spec x y) as [->|Hne].
    { right; left. now apply comparePrerelease_zero. }
    destruct (String.eqb_spec x "") as [->|Hx].
    { right; right. apply comparePrerelease_empty_l. congruence. }
    destruct (String.eqb_spec y "") as [->|Hy].
    { left. now apply comparePrerelease_empty_r. }
    rewrite (comparePrerelease_loop x y (String.length x)) by (assumption || lia).
    destruct (prereleaseLoop_range (String.length x) x y); [lia | auto | auto].
  - apply comparePrerelease_zero.
  - intros x y Dx Dy. destruct (String.eqb_spec x y) as [->|Hne].
    { now rewrite (proj2 (comparePrerelease_zero y y) eq_refl). }
    destruct (String.eqb_spec x "") as [->|Hx].
    { rewrite comparePrerelease_empty_l, comparePrerelease_empty_r by congruence.
      reflexivity. }
    destruct (String.eqb_spec y "") as [->|Hy].
    { rewrite comparePrerelease_empty_l, comparePrerelease_empty_r by congruence.
      reflexivity. }
    rewrite (comparePrerelease_loop x y (String.length x + String.length y))
      by (assumption || lia).
    rewrite (comparePrerelease_loop y x (String.length x + String.length y))
      by (congruence || lia).
    apply prereleaseLoop_antisym; try lia; try assumption.
    now apply prereleaseForm_sameHead.
  - intros x y z Dx Dy Dz Hxy Hyz.
    assert (Hx : x <> "").
    { intros ->. destruct (String.eqb_spec "" y) as [<-|Hne].
      - rewrite (proj2 (comparePrerelease_zero "" "") eq_refl) in Hxy. discriminate.
      - rewrite comparePrerelease_empty_l in Hxy by congruence. discriminate. }
    assert (Hy : y <> "").
    { intros ->. destruct (String.eqb_spec "" z) as [<-|Hne].
      - rewrite (proj2 (comparePrerelease_zero "" "") eq_refl) in Hyz. discriminate.
      - rewrite comparePrerelease_empty_l in Hyz by congruence. discriminate. }
    destruct (String.eqb_spec z "") as [->|Hz];
      [now apply comparePrerelease_empty_r|].
    assert (Nxy : x <> y).
    { intros ->. rewrite (proj2 (comparePrerelease_zero y y) eq_refl) in Hxy.
      discriminate. }
    assert (Nyz : y <> z).
    { intros ->. rewrite (proj2 (comparePrerelease_zero z z) eq_refl) in Hyz.
      discriminate. }
    set (n := (String.length x + String.length y + String.length z)%nat).
    rewrite (comparePrerelease_loop x y n) in Hxy by (assumption || lia).
    rewrite (comparePrerelease_loop y z n) in Hyz by (assumption || lia).
    assert (Nxz : x <> z).
    { intros ->.
      rewrite (prereleaseLoop_antisym n z y) in Hyz
        by (lia || congruence || now apply prereleaseForm_sameHead).
      lia. }
    rewrite (comparePrerelease_loop x z n) by (assumption || lia).
    apply (prereleaseLoop_trans n x y z); (lia || assumption).
Qed.

Lemma compareInt_lt (x y : string) :
  semver.compareInt x y = (-1)%Z <->
  x <> y /\ ((String.length x < String.length y)%nat
             \/ (String.length x = String.length y /\ String.ltb x y = true)).
Proof.
  unfold semver.compareInt.
  destruct (String.eqb_spec x y) as [->|Hne]; [split; [discriminate | tauto]|].
  destruct (Nat.ltb_spec (String.length x) (String.length y));
    destruct (Nat.ltb_spec (String.length y) (String.length x));
    destruct (String.ltb x y); split; intros Hx; try discriminate; try lia;
      intuition (try discriminate; try lia).
Qed.

Lemma compareInt_good : goodOrder (fun _ : string => True) semver.compareInt.
Proof.
  split.
  - intros x y. unfold semver.compareInt.
    repeat match goal with |- context [if ?c then _ else _] => destruct c end; auto.
  - apply compareInt_zero.
  - intros x y _ _. unfold semver.compareInt. rewrite (String.eqb_sym y x).
    destruct (String.eqb_spec x y) as [->|Hne]; [reflexivity|].
    rewrite (ltb_antisym x y Hne).
    destruct (Nat.ltb_spec (String.length x) (String.length y));
      destruct (Nat.ltb_spec (String.length y) (String.length x));
      try lia; try reflexivity; now destruct (String.ltb x y).
  - intros x y z _ _ _. rewrite !compareInt_lt.
    intros [Nxy Hxy] [Nyz Hyz].
    assert (Hlt : (String.length x < String.length z)%nat
                  \/ (String.length x = String.length z /\ String.ltb x z = true)).
    { destruct Hxy as [Hxy | [Hxy Lxy]], Hyz as [Hyz | [Hyz Lyz]];
        try (left; lia).
      right. split; [lia | eapply ltb_trans; eassumption]. }
    split; [|exact Hlt].
    intros ->. destruct Hlt as [Hlt | [_ Hlt]]; [lia|].
    rewrite ltb_irrefl in Hlt. discriminate.
Qed.

(** Chaining two orders as [Compare] does gives an order on the pairs. *)
Lemma lexOrder_good {A B : Type} (DA : A -> Prop) (DB : B -> Prop)
    (c1 : A -> A -> Z) (c2 : B -> B -> Z) :
  goodOrder DA c1 -> goodOrder DB c2 ->
  goodOrder (fun p : A * B => DA p.1 /\ DB p.2) (lexOrder c1 c2).
Proof.
  intros [R1 Z1 A1 T1] [R2 Z2 A2 T2]. split.
  - intros [a b] [a' b']. unfold lexOrder; simpl.
    destruct (Z.eqb_spec (c1 a a') 0); simpl; [apply R2|].
    destruct (R1 a a') as [H|[H|H]]; auto; congruence.
  - intros [a b] [a' b']. unfold lexOrder; simpl.
    destruct (Z.eqb_spec (c1 a a') 0) as [E|E]; simpl.
    + rewrite Z2. apply Z1 in E. subst. split; congruence.
    + split; [congruence|]. intros H; inversion H; subst.
      exfalso. apply E. now apply Z1.
  - intros [a b] [a' b'] [Da Db] [Da' Db']. unfold lexOrder; simpl in *.
    rewrite (A1 a a' Da Da').
    destruct (Z.eqb_spec (c1 a a') 0) as [E|E].
    + rewrite E. simpl. now apply A2.
    + destruct (Z.eqb_spec (- c1 a a') 0); [lia | reflexivity].
  - intros [a b] [a' b'] [a'' b''] [Da Db] [Da' Db'] [Da'' Db''].
    unfold lexOrder; simpl in *.
    destruct (Z.eqb_spec (c1 a a') 0) as [E1|E1];
      destruct (Z.eqb_spec (c1 a' a'') 0) as [E2|E2]; simpl; intros H1 H2.
    + apply Z1 in E1, E2. subst.
      rewrite (proj2 (Z1 a'' a'') eq_refl). simpl. eauto.
    + apply Z1 in E1. subst. destruct (Z.eqb_spec (c1 a' a'') 0); [lia|]. exact H2.
    + apply Z1 in E2. subst. destruct (Z.eqb_spec (c1 a a'') 0); [lia|]. exact H1.
    + rewrite (T1 a a' a'' Da Da' Da'' H1 H2). reflexivity.
Qed.

Lemma prereleaseScan_ge (v rest : string) :
  forall i start i' start',
    semver.prereleaseScan v rest i start = Some (i', start') -> (i <= i')%nat.
Proof.
  induction rest as [|c rest IH]; intros i start i' start'; simpl.
  - intros H; inversion H; lia.
  - destruct (byte_val c =? 43)%N; [intros H; inversion H; lia|].
    destruct (negb (semver.isIdentChar c) && negb (byte_val c =? 46)%N);
      [discriminate|].
    destruct (byte_val c =? 46)%N.
    + destruct ((start =? i)%nat || semver.isBadNum (semver.slice v start i));
        [discriminate|].
      intros H. apply IH in H. lia.
    + intros H. apply IH in H. lia.
Qed.

Lemma parsePrerelease_form (v pre rest : string) :
  semver.parsePrerelease v = Some (pre, rest) -> semver.startsWith 45 pre = true.
Proof.
  unfold semver.parsePrerelease. destruct v as [|c v']; [discriminate|].
  destruct (N.eqb_spec (byte_val c) 45) as [E|E]; simpl; [|discriminate].
  destruct (semver.prereleaseScan (String c v') v' 1 1) as [[i start]|] eqn:Hscan;
    [|discriminate].
  apply prereleaseScan_ge in Hscan.
  destruct ((start =? i)%nat || semver.isBadNum _); [discriminate|].
  intros H; inversion H; subst.
  destruct i as [|i]; [lia|]. simpl. now apply N.eqb_eq.
Qed.

Lemma parseTail_form (ma mi pa v : string) (p : semver.parsed) :
  semver.parseTail ma mi pa v = Some p ->
  semver.major p = ma /\ semver.minor p = mi /\ semver.patch p = pa
  /\ prereleaseForm (semver.prerelease p).
Proof.
  unfold semver.parseTail.
  destruct (semver.startsWith 45 v) eqn:Hdash.
  - destruct (semver.parsePrerelease v) as [[pre v']|] eqn:Hpre; [|discriminate].
    apply parsePrerelease_form in Hpre.
    destruct (if semver.startsWith 43 v' then _ else _) as [[bu v'']|];
      [|discriminate].
    destruct (negb (String.eqb v'' "")); [discriminate|].
    intros H; inversion H; subst; simpl. repeat split. now right.
  - destruct (if semver.startsWith 43 v then _ else _) as [[bu v'']|];
      [|discriminate].
    destruct (negb (String.eqb v'' "")); [discriminate|].
    intros H; inversion H; subst; simpl. repeat split. now left.
Qed.

Lemma parse_prerelease_form (v : string) (p : semver.parsed) :
  semver.parse v = Some p -> prereleaseForm (semver.prerelease p).
Proof.
  unfold semver.parse. destruct v as [|c v1]; [discriminate|].
  destruct (negb (byte_val c =? 118)%N); [discriminate|].
  destruct (semver.parseInt v1) as [[ma v]|]; [|discriminate].
  destruct (String.eqb v ""); [intros H; inversion H; now left|].
  destruct (negb (semver.startsWith 46 v)); [discriminate|].
  destruct (semver.parseInt (sdrop 1 v)) as [[mi v']|]; [|discriminate].
  destruct (String.eqb v' ""); [intros H; inversion H; now left|].
  destruct (negb (semver.startsWith 46 v')); [discriminate|].
  destruct (semver.parseInt (sdrop 1 v')) as [[pa v'']|]; [|discriminate].
  intros H. now apply parseTail_form in H.
Qed.

(** On the parts of two parsed versions, [Compare] is the chain of
    [compareInt] on major, minor and patch and [comparePrerelease]. *)
Lemma Compare_parsed (v w : string) (pv pw : semver.parsed) :
  semver.parse v = Some pv -> semver.parse w = Some pw ->
  semver.Compare v w
  = lexOrder semver.compareInt
      (lexOrder semver.compareInt
         (lexOrder semver.compareInt semver.comparePrerelease))
      (precedenceKey pv) (precedenceKey pw).
Proof. intros Hv Hw. unfold semver.Compare. now rewrite Hv, Hw. Qed.

Lemma goodOrder_weaken {A : Type} (D D' : A -> Prop) (c : A -> A -> Z) :
  (forall x, D' x -> D x) -> goodOrder D c -> goodOrder D' c.
Proof.
  intros HD [R Z An T]. split; [exact R | exact Z | |].
  - intros x y Dx Dy. apply An; now apply HD.
  - intros x y z Dx Dy Dz. apply T; now apply HD.
Qed.

Lemma precedenceKey_good :
  goodOrder
    (fun k : string * (string * (string * string)) => prereleaseForm k.2.2.2)
    (lexOrder semver.compareInt
       (lexOrder semver.compareInt
          (lexOrder semver.compareInt semver.comparePrerelease))).
Proof.
  refine (goodOrder_weaken _ _ _ _
            (lexOrder_good _ _ _ _ compareInt_good
               (lexOrder_good _ _ _ _ compareInt_good
                  (lexOrder_good _ _ _ _ compareInt_good comparePrerelease_good)))).
  intros k Hk. simpl. tauto.
Qed.

Lemma precedenceKey_form (v : string) (p : semver.parsed) :
  semver.parse v = Some p -> prereleaseForm (precedenceKey p).2.2.2.
Proof. intros H. now apply parse_prerelease_form in H. Qed.

Lemma Compare_range (v w : string) :
  semver.Compare v w = (-1)%Z \/ semver.Compare v w = 0%Z \/ semver.Compare v w = 1%Z.
Proof.
  destruct (semver.parse v) as [pv|] eqn:Hv, (semver.parse w) as [pw|] eqn:Hw.
  - rewrite (Compare_parsed v w pv pw Hv Hw). apply precedenceKey_good.
  - unfold semver.Compare. rewrite Hv, Hw. auto.
  - unfold semver.Compare. rewrite Hv, Hw. auto.
  - unfold semver.Compare. rewrite Hv, Hw. auto.
Qed.

Lemma Compare_refl (v : string) : semver.Compare v v = 0%Z.
Proof.
  destruct (semver.parse v) as [pv|] eqn:Hv.
  - rewrite (Compare_parsed v v pv pv Hv Hv). now apply precedenceKey_good.
  - unfold semver.Compare. now rewrite Hv.
Qed.

(** [Compare] is antisymmetric, on all strings. *)
Lemma Compare_antisym (v w : string) :
  semver.Compare w v = (- semver.Compare v w)%Z.
Proof.
  destruct (semver.parse v) as [pv|] eqn:Hv, (semver.parse w) as [pw|] eqn:Hw.
  - rewrite (Compare_parsed v w pv pw Hv Hw), (Compare_parsed w v pw pv Hw Hv).
    apply precedenceKey_good;
      [exact (precedenceKey_form v pv Hv) | exact (precedenceKey_form w pw Hw)].
  - unfold semver.Compare. now rewrite Hv, Hw.
  - unfold semver.Compare. now rewrite Hv, Hw.
  - unfold semver.Compare. now rewrite Hv, Hw.
Qed.

(** [Compare] is transitive, on all strings: invalid ones are equal to each
    other and below the valid ones. *)
Lemma Compare_le_trans (u v w : string) :
  (semver.Compare u v <= 0)%Z -> (semver.Compare v w <= 0)%Z ->
  (semver.Compare u w <= 0)%Z.
Proof.
  destruct (semver.parse u) as [pu|] eqn:Hu; cycle 1.
  { intros _ _. unfold semver.Compare. rewrite Hu.
    destruct (semver.parse w); lia. }
  destruct (semver.parse v) as [pv|] eqn:Hv; cycle 1.
  { unfold semver.Compare at 1. rewrite Hu, Hv. lia. }
  destruct (semver.parse w) as [pw|] eqn:Hw; cycle 1.
  { intros _. unfold semver.Compare at 1. rewrite Hv, Hw. lia. }
  rewrite (Compare_parsed u v pu pv Hu Hv), (Compare_parsed v w pv pw Hv Hw),
    (Compare_parsed u w pu pw Hu Hw).
  pose proof precedenceKey_good as [R Z _ T].
  pose proof (precedenceKey_form u pu Hu) as Du.
  pose proof (precedenceKey_form v pv Hv) as Dv.
  pose proof (precedenceKey_form w pw Hw) as Dw.
  set (c := lexOrder _ _) in *.
  intros Huv Hvw.
  destruct (R (precedenceKey pu) (precedenceKey pv)) as [E1|[E1|E1]]; [| |lia];
    destruct (R (precedenceKey pv) (precedenceKey pw)) as [E2|[E2|E2]]; try lia.
  - rewrite (T _ _ _ Du Dv Dw E1 E2). lia.
  - apply Z in E2. rewrite <- E2. lia.
  - apply Z in E1. rewrite E1. lia.
  - apply Z in E1. rewrite E1. lia.
Qed.

(** ** Retract directives as intervals of the version order *)

Lemma isRetracted_range_member (ds : list modfile.Retract) (r : modfile.Retract)
    (v : string) :
  In r ds -> internal.inInterval v r = true ->
  exists rationale,
    internal.isRetracted_range (map Some ds) v = Some (true, rationale).
Proof.
  intros Hin Hr. induction ds as [|d ds IH]; simpl in *; [contradiction|].
  destruct (internal.inInterval v d) eqn:Hd; [eauto|].
  destruct Hin as [-> | Hin]; [congruence | auto].
Qed.

Lemma inInterval_low (r : modfile.Retract) :
  (semver.Compare (modfile.Low r) (modfile.High r) <= 0)%Z ->
  internal.inInterval (modfile.Low r) r = true.
Proof.
  intros H. apply inInterval_bounds. rewrite Compare_refl. lia.
Qed.

Lemma inInterval_high (r : modfile.Retract) :
  (semver.Compare (modfile.Low r) (modfile.High r) <= 0)%Z ->
  internal.inInterval (modfile.High r) r = true.
Proof.
  intros H. apply inInterval_bounds.
  rewrite Compare_refl, (Compare_antisym (modfile.Low r) (modfile.High r)). lia.
Qed.

Lemma inInterval_reversed (r : modfile.Retract) (v : string) :
  (0 < semver.Compare (modfile.Low r) (modfile.High r))%Z ->
  internal.inInterval v r = false.
Proof.
  intros Hrev. destruct (internal.inInterval v r) eqn:Hin; [|reflexivity].
  apply inInterval_bounds in Hin as [Hlo Hhi].
  rewrite (Compare_antisym (modfile.Low r) v) in Hlo.
  assert (semver.Compare (modfile.Low r) (modfile.High r) <= 0)%Z
    by (apply (Compare_le_trans _ v); lia).
  lia.
Qed.

Lemma inInterval_convex (r : modfile.Retract) (u v w : string) :
  internal.inInterval u r = true -> internal.inInterval w r = true ->
  (semver.Compare u v <= 0)%Z -> (semver.Compare v w <= 0)%Z ->
  internal.inInterval v r = true.
Proof.
  rewrite !inInterval_bounds. intros [Hu _] [_ Hw] Huv Hvw. split.
  - rewrite (Compare_antisym (modfile.Low r) v).
    rewrite (Compare_antisym (modfile.Low r) u) in Hu.
    assert (semver.Compare (modfile.Low r) v <= 0)%Z
      by (apply (Compare_le_trans _ u); lia).
    lia.
  - apply (Compare_le_trans _ w); assumption.
Qed.

(** X8: both ends of a retract directive are retracted.  For a manifest
    whose retract entries are the directives [ds], and a directive of it
    whose lower bound is not above its upper bound, [isRetracted] reports
    the lower bound and the upper bound themselves as retracted (with the
    rationale of the first directive that contains them). *)
Theorem isRetracted_bounds_included
    (f : modfile.File) (ds : list modfile.Retract) (r : modfile.Retract) :
  modfile.File_Retract f = map Some ds ->
  In r ds ->
  (semver.Compare (modfile.Low r) (modfile.High r) <= 0)%Z ->
  (exists rationale,
      internal.isRetracted (Some f) (modfile.Low r) = Some (true, rationale))
  /\ (exists rationale,
      internal.isRetracted (Some f) (modfile.High r) = Some (true, rationale)).
Proof.
  intros Hf Hin Hord. unfold internal.isRetracted; simpl. rewrite Hf. split.
  - apply (isRetracted_range_member ds r); [exact Hin | now apply inInterval_low].
  - apply (isRetracted_range_member ds r); [exact Hin | now apply inInterval_high].
Qed.

Lemma isRetracted_bounds_included_witness :
  (semver.Compare "v1.1.0-rc.1" "v1.5.0+meta" <= 0)%Z
  /\ (exists rationale,
        internal.isRetracted
          (Some (modfile.mkFile None [retract "v1.1.0-rc.1" "v1.5.0+meta" "security"]))
          "v1.5.0+meta"
        = Some (true, rationale)).
Proof.
  split; [vm_compute; discriminate|].
  apply (isRetracted_bounds_included
           (modfile.mkFile None [retract "v1.1.0-rc.1" "v1.5.0+meta" "security"])
           [modfile.mkRetract "v1.1.0-rc.1" "v1.5.0+meta" "security" None]
           (modfile.mkRetract "v1.1.0-rc.1" "v1.5.0+meta" "security" None)
           eq_refl).
  - left; reflexivity.
  - vm_compute; discriminate.
Defined.

(** X9: a retract directive whose lower bound is above its upper bound
    matches no version at all, valid or not: removing it from the manifest
    changes no answer of [isRetracted]. *)
Theorem isRetracted_reversed_directive
    (md : option modfile.Module_) (pre post : list (option modfile.Retract))
    (r : modfile.Retract) (resolvedVersion : string) :
  (0 < semver.Compare (modfile.Low r) (modfile.High r))%Z ->
  internal.isRetracted (Some (modfile.mkFile md (pre ++ Some r :: post)%list))
    resolvedVersion
  = internal.isRetracted (Some (modfile.mkFile md (pre ++ post)%list)) resolvedVersion.
Proof.
  intros Hrev. unfold internal.isRetracted; simpl.
  rewrite !isRetracted_range_app. simpl.
  now rewrite (inInterval_reversed r resolvedVersion Hrev).
Qed.

Lemma isRetracted_reversed_directive_witness :
  (0 < semver.Compare "v1.2.0" "v1.0.0")%Z
  /\ internal.isRetracted
       (Some (modfile.mkFile None [retract "v1.2.0" "v1.0.0" "bug"])) "v1.1.0"
     = Some (false, "").
Proof.
  split; [vm_compute; reflexivity|].
  exact (eq_trans
           (isRetracted_reversed_directive None [] []
              (modfile.mkRetract "v1.2.0" "v1.0.0" "bug" None) "v1.1.0" eq_refl)
           eq_refl).
Defined.

(** X10: the versions a directive retracts form an interval of the version
    order.  If a directive of the manifest contains the versions [u] and
    [w], every version [v] with [u <= v <= w] under [semver.Compare] is
    reported retracted (with the rationale of the first directive that
    contains it). *)
Theorem isRetracted_between
    (f : modfile.File) (ds : list modfile.Retract) (r : modfile.Retract)
    (u v w : string) :
  modfile.File_Retract f = map Some ds ->
  In r ds ->
  internal.inInterval u r = true ->
  internal.inInterval w r = true ->
  (semver.Compare u v <= 0)%Z ->
  (semver.Compare v w <= 0)%Z ->
  exists rationale, internal.isRetracted (Some f) v = Some (true, rationale).
Proof.
  intros Hf Hin Hu Hw Huv Hvw. unfold internal.isRetracted; simpl. rewrite Hf.
  apply (isRetracted_range_member ds r); [exact Hin|].
  now apply (inInterval_convex r u v w).
Qed.

Lemma isRetracted_between_witness :
  internal.inInterval "v1.0.1" (modfile.mkRetract "v1.0.0" "v1.2.0" "bug" None) = true
  /\ internal.inInterval "v1.2.0-rc.1" (modfile.mkRetract "v1.0.0" "v1.2.0" "bug" None)
     = true
  /\ exists rationale,
       internal.isRetracted (Some retractBug) "v1.1.7+meta" = Some (true, rationale).
Proof.
  split; [vm_compute; reflexivity|]. split; [vm_compute; reflexivity|].
  apply (isRetracted_between retractBug
           [modfile.mkRetract "v1.0.0" "v1.2.0" "bug" None]
           (modfile.mkRetract "v1.0.0" "v1.2.0" "bug" None)
           "v1.0.1" "v1.1.7+meta" "v1.2.0-rc.1" eq_refl).
  - left; reflexivity.
  - vm_compute; reflexivity.
  - vm_compute; reflexivity.
  - vm_compute; discriminate.
  - vm_compute; discriminate.
Defined.

(** ** Comments that are no deprecation notice, and panics *)

(** X11: the marker counts only at the start of the comment text.  When
    every comment before and next to the module line is "//", optional
    blanks, a text with clean ends that does not begin with "Deprecated:",
    optional blanks (so the marker in the middle of the text, in another
    letter case or after another "//" is no notice), [isDeprecated] answers
    [(false, "")]. *)
Theorem isDeprecated_marker_at_start
    (mf : modfile.File) (md : modfile.Module_) (ln : modfile.Line) :
  modfile.File_Module mf = Some md ->
  modfile.Mod_Syntax md = Some ln ->
  Forall (fun c : modfile.Comment =>
            exists a t b : string,
              modfile.Token c = ("//" ++ a ++ t ++ b)%string
              /\ allSpace a = true /\ allSpace b = true /\ cleanEnds t = true
              /\ strings.HasPrefix t "Deprecated:" = false)
    (modfile.Before (modfile.Line_Comments ln)
     ++ modfile.Suffix (modfile.Line_Comments ln))%list ->
  internal.isDeprecated (Some mf) = Some (false, "").
Proof.
  intros Hmd Hln Hall.
  unfold internal.isDeprecated; simpl. rewrite Hmd; simpl. rewrite Hln; simpl.
  f_equal. induction Hall as [|c cs (a & t & b & Htok & Ha & Hb & Ht & Hno) _ IH];
    simpl; [reflexivity|].
  rewrite (commentText_padded c a t b Htok Ha Hb Ht).
  unfold internal.prefix. now rewrite Hno.
Qed.

Lemma isDeprecated_marker_at_start_witness :
  let mf :=
    modfile.mkFile
      (Some (moduleDecl
               [lineComment "// NOTE: Deprecated: use baz instead";
                lineComment "//deprecated: use baz instead"]
               [lineComment "// // Deprecated: use baz instead "]))
      [] in
  internal.isDeprecated (Some mf) = Some (false, "").
Proof.
  intros mf.
  apply (isDeprecated_marker_at_start mf _ _ eq_refl eq_refl).
  repeat constructor.
  - exists " ", "NOTE: Deprecated: use baz instead", "". repeat split.
  - exists "", "deprecated: use baz instead", "". repeat split.
  - exists " ", "// Deprecated: use baz instead", " ". repeat split.
Defined.

(** X12: how [PopulateModule] panics.  On a nil go.mod file, or a module
    declaration without its syntax line, it panics before any assignment:
    the module is untouched.  When the deprecation scan returns and the
    retract list reaches a nil entry before any directive contains the
    module's version, it panics after the first assignment: [Deprecated] and
    [DeprecationComment] hold the new answer, [Retracted] and
    [RetractionRationale] still their old values. *)
Theorem PopulateModule_panic_state {R : Type}
    (r : internal.RawLatestInfo) (m : internal.Module_ R) :
  (internal.GoModFile r = None ->
   internal.PopulateModule r m = internal.Panicked m)
  /\ (forall f md,
        internal.GoModFile r = Some f ->
        modfile.File_Module f = Some md ->
        modfile.Mod_Syntax md = None ->
        internal.PopulateModule r m = internal.Panicked m)
  /\ (forall f pre post d dc,
        internal.GoModFile r = Some f ->
        internal.isDeprecated (Some f) = Some (d, dc) ->
        modfile.File_Retract f = (map Some pre ++ None :: post)%list ->
        forallb (fun x => negb (internal.inInterval (internal.Version m) x)) pre
        = true ->
        internal.PopulateModule r m
        = internal.Panicked
            (internal.mkModule (internal.Version m) d dc (internal.Retracted m)
               (internal.RetractionRationale m) (internal.Rest m))).
Proof.
  split; [|split].
  - intros Hf. unfold internal.PopulateModule. now rewrite Hf.
  - intros f md Hf Hmd Hsyn. unfold internal.PopulateModule, internal.isDeprecated.
    rewrite Hf; simpl. rewrite Hmd; simpl. now rewrite Hsyn.
  - intros f pre post d dc Hf Hd Hret Hpre.
    assert (Hnone : internal.isRetracted (Some f) (internal.Version m) = None).
    { unfold internal.isRetracted; simpl. apply isRetracted_range_None. eauto. }
    unfold internal.PopulateModule. rewrite Hf, Hd.
    cbn -[internal.isRetracted]. now rewrite Hnone.
Qed.

Lemma PopulateModule_panic_state_witness :
  let f :=
    modfile.mkFile
      (Some (moduleDecl [lineComment "// Deprecated: use baz instead"] []))
      [retract "v1.0.0" "v1.2.0" "bug"; None] in
  let r := internal.mkRawLatestInfo "example.com/m" "v1.9.0" (Some f) in
  internal.PopulateModule r (sampleModule "v1.3.0")
  = internal.Panicked
      (internal.mkModule "v1.3.0" true "use baz instead" false "" ["LICENSE"])
  /\ internal.PopulateModule r (sampleModule "v1.1.0")
     = internal.Returned
         (internal.mkModule "v1.1.0" true "use baz instead" true "bug" ["LICENSE"]).
Proof.
  intros f r. split; [|vm_compute; reflexivity].
  apply (proj2 (proj2 (PopulateModule_panic_state r (sampleModule "v1.3.0")))
           f [modfile.mkRetract "v1.0.0" "v1.2.0" "bug" None] []
           true "use baz instead" eq_refl);
    vm_compute; reflexivity.
Defined.

(** ** Pre-releases at the bounds of a directive *)

Lemma Compare_prerelease_below_release (v w : string) (pv pw : semver.parsed) :
  semver.parse v = Some pv -> semver.parse w = Some pw ->
  semver.major pv = semver.major pw -> semver.minor pv = semver.minor pw ->
  semver.patch pv = semver.patch pw ->
  semver.prerelease pv <> "" -> semver.prerelease pw = "" ->
  semver.Compare v w = (-1)%Z.
Proof.
  intros Hv Hw Hma Hmi Hpa Hpre Hrel. unfold semver.Compare. rewrite Hv, Hw.
  rewrite Hma, Hmi, Hpa, Hrel.
  rewrite !(proj2 (compareInt_zero _ _) eq_refl). simpl.
  now apply comparePrerelease_empty_r.
Qed.

(** X13: a pre-release of a bound lies below that bound.  For a directive
    whose bound is a release (no prerelease part) and a version with the
    same major, minor and patch numbers and a prerelease part: such a
    pre-release of the lower bound is not retracted by the directive, and
    such a pre-release of the upper bound is retracted by it as soon as it
    is not below the lower bound. *)
Theorem isRetracted_prerelease_of_bound
    (md : option modfile.Module_) (r : modfile.Retract) (v : string)
    (pv pl ph : semver.parsed) :
  semver.parse v = Some pv ->
  semver.parse (modfile.Low r) = Some pl ->
  semver.parse (modfile.High r) = Some ph ->
  semver.prerelease pv <> "" ->
  (semver.major pv = semver.major pl -> semver.minor pv = semver.minor pl ->
   semver.patch pv = semver.patch pl -> semver.prerelease pl = "" ->
   internal.isRetracted (Some (modfile.mkFile md [Some r])) v = Some (false, ""))
  /\ (semver.major pv = semver.major ph -> semver.minor pv = semver.minor ph ->
      semver.patch pv = semver.patch ph -> semver.prerelease ph = "" ->
      (semver.Compare (modfile.Low r) v <= 0)%Z ->
      internal.isRetracted (Some (modfile.mkFile md [Some r])) v
      = Some (true, modfile.Rationale r)).
Proof.
  intros Hv Hl Hh Hpre. unfold internal.isRetracted; simpl.
  unfold internal.inInterval. split.
  - intros Hma Hmi Hpa Hrel.
    now rewrite (Compare_prerelease_below_release v _ pv pl Hv Hl Hma Hmi Hpa Hpre Hrel).
  - intros Hma Hmi Hpa Hrel Hlow.
    rewrite (Compare_prerelease_below_release v _ pv ph Hv Hh Hma Hmi Hpa Hpre Hrel).
    rewrite (Compare_antisym (modfile.Low r) v).
    destruct (Z.leb_spec 0 (- semver.Compare (modfile.Low r) v)); [reflexivity | lia].
Qed.

Lemma isRetracted_prerelease_of_bound_witness :
  internal.isRetracted (Some retractBug) "v1.0.0-rc.1" = Some (false, "")
  /\ internal.isRetracted (Some retractBug) "v1.2.0-rc.1" = Some (true, "bug").
Proof.
  pose proof (isRetracted_prerelease_of_bound None
                (modfile.mkRetract "v1.0.0" "v1.2.0" "bug" None) "v1.0.0-rc.1"
                (semver.mkParsed "1" "0" "0" "" "-rc.1" "")
                (semver.mkParsed "1" "0" "0" "" "" "")
                (semver.mkParsed "1" "2" "0" "" "" "")
                eq_refl eq_refl eq_refl) as Hlow.
  pose proof (isRetracted_prerelease_of_bound None
                (modfile.mkRetract "v1.0.0" "v1.2.0" "bug" None) "v1.2.0-rc.1"
                (semver.mkParsed "1" "2" "0" "" "-rc.1" "")
                (semver.mkParsed "1" "0" "0" "" "" "")
                (semver.mkParsed "1" "2" "0" "" "" "")
                eq_refl eq_refl eq_refl) as Hhigh.
  split.
  - apply Hlow; [discriminate | reflexivity..].
  - apply Hhigh; [discriminate | reflexivity.. | vm_compute; discriminate].
Defined.

(** ** White space: what the decoders of unicode/utf8 accept *)

Lemma In_rangeN (n : N) (k : nat) (lo : N) :
  (lo <= n)%N -> (n < lo + N.of_nat k)%N -> In n (rangeN lo k).
Proof.
  revert lo; induction k as [|k IH]; intros lo H1 H2; [lia|].
  simpl. destruct (N.eq_dec lo n) as [->|Hne]; [now left|].
  right. apply IH; lia.
Qed.

Lemma allBytes_spec (P : N -> bool) :
  allBytes P = true -> forall n, (n < 256)%N -> P n = true.
Proof.
  unfold allBytes. rewrite forallb_forall. intros H n Hn. apply H.
  apply In_rangeN; simpl; lia.
Qed.

Lemma byte_val_bound (c : ascii) : (byte_val c < 256)%N.
Proof. apply N_ascii_bounded. Qed.

Lemma check1_ok : check1 = true.
Proof. vm_compute. reflexivity. Qed.

Lemma check2_ok : check2 = true.
Proof. vm_compute. reflexivity. Qed.

Lemma check3_ok : check3 = true.
Proof. vm_compute. reflexivity. Qed.

Lemma check4_ok : check4 = true.
Proof. vm_compute. reflexivity. Qed.

Lemma checkStart_ok : checkStart = true.
Proof. vm_compute. reflexivity. Qed.


Lemma eqBytes_eq (xs : list N) : forall ys, eqBytes xs ys = true -> xs = ys.
Proof.
  induction xs as [|x xs IH]; intros [|y ys]; simpl; try discriminate; [reflexivity|].
  intros H. apply andb_prop in H as [Hx Hxs]. apply N.eqb_eq in Hx.
  now rewrite Hx, (IH ys Hxs).
Qed.

Lemma isWhiteSpaceBytes_In (bs : list N) :
  isWhiteSpaceBytes bs = true -> In bs whiteSpaceBytes.
Proof.
  unfold isWhiteSpaceBytes. rewrite existsb_exists.
  intros (ws & Hin & Heq). apply eqBytes_eq in Heq. now subst.
Qed.

Lemma first_multi (x : N) (sz : nat) (lo hi : N) :
  utf8.first x = utf8.fi_multi sz lo hi ->
  (sz = 2 \/ sz = 3 \/ sz = 4)%nat /\ (128 <= lo)%N /\ (hi <= 191)%N /\ (194 <= x)%N.
Proof.
  unfold utf8.first, utf8.locb, utf8.hicb.
  repeat match goal with
         | |- context [if (?a <? ?b)%N then _ else _] => destruct (N.ltb_spec a b)
         | |- context [if (?a =? ?b)%N then _ else _] => destruct (N.eqb_spec a b)
         end;
    intros Hx; inversion Hx; subst; repeat split; try lia; auto.
Qed.

Lemma first_as (x : N) : utf8.first x = utf8.fi_as -> (x < 128)%N.
Proof.
  unfold utf8.first.
  repeat match goal with
         | |- context [if (?a <? ?b)%N then _ else _] => destruct (N.ltb_spec a b)
         | |- context [if (?a =? ?b)%N then _ else _] => destruct (N.eqb_spec a b)
         end; intros Hx; try discriminate; lia.
Qed.

Lemma IsSpace_large (r : N) : (65536 <= r)%N -> unicode.IsSpace r = false.
Proof.
  intros H. unfold unicode.IsSpace.
  destruct (N.leb_spec r 255); [lia|].
  repeat match goal with
         | |- context [(?a =? ?b)%N] => destruct (N.eqb_spec a b); [lia|]
         | |- context [(?a <=? ?b)%N] => destruct (N.leb_spec a b); try lia
         end; reflexivity.
Qed.

Lemma lor_large (x y : N) : (65536 <= x)%N -> (65536 <= N.lor x y)%N.
Proof.
  intros Hx.
  assert (H16 : (16 <= N.log2 (N.lor x y))%N).
  { rewrite N.log2_lor. apply N.le_trans with (N.log2 x); [|apply N.le_max_l].
    change 16%N with (N.log2 65536). now apply N.log2_le_mono. }
  assert (Hpos : (0 < N.lor x y)%N).
  { destruct (N.eq_dec (N.lor x y) 0%N) as [E|E]; [|lia].
    apply N.lor_eq_0_l in E. lia. }
  pose proof (N.log2_spec _ Hpos) as [Hlow _].
  apply N.le_trans with (2 ^ N.log2 (N.lor x y))%N; [|exact Hlow].
  change 65536%N with (2 ^ 16)%N. apply N.pow_le_mono_r; lia.
Qed.

Lemma bytesToString_app1 (c0 : ascii) (rest : string) :
  (bytesToString [byte_val c0] ++ rest)%string = String c0 rest.
Proof. simpl. unfold byte_val. now rewrite ascii_N_embedding. Qed.

(** A rune that [DecodeRuneInString] gives and [unicode.IsSpace] accepts
    stands in the string as one of the encodings of [whiteSpaceBytes]. *)
Lemma DecodeRune_space (s : string) (r : N) (n : nat) :
  utf8.DecodeRuneInString s = (r, n) -> unicode.IsSpace r = true ->
  exists bs rest,
    In bs whiteSpaceBytes /\ s = (bytesToString bs ++ rest)%string
    /\ length bs = n.
Proof.
  unfold utf8.DecodeRuneInString.
  destruct s as [|c0 s]; [intros H; inversion H; subst; discriminate|].
  change (String.length (String c0 s) <? 1)%nat with false. cbv iota.
  change (byte_at (String c0 s) 0) with (byte_val c0).
  pose proof (byte_val_bound c0) as B0.
  destruct (utf8.first (byte_val c0)) as [| |sz lo hi] eqn:Hfirst.
  - intros H Hsp; inversion H; subst.
    pose proof (allBytes_spec _ check1_ok _ B0) as Hc. simpl in Hc.
    rewrite Hfirst, Hsp in Hc. apply isWhiteSpaceBytes_In in Hc.
    exists [byte_val c0], s. repeat split; [exact Hc|].
    unfold byte_val. simpl. now rewrite ascii_N_embedding.
  - intros H; inversion H; subst; discriminate.
  - destruct (first_multi _ _ _ _ Hfirst) as (Hsz & Hlo & Hhi & _).
    destruct (Nat.ltb_spec (String.length (String c0 s)) sz) as [Hn|Hn];
      [intros H; inversion H; subst; discriminate|].
    destruct s as [|c1 s]; [simpl in Hn; lia|].
    change (byte_at (String c0 (String c1 s)) 1) with (byte_val c1).
    pose proof (byte_val_bound c1) as B1.
    destruct (utf8.outside (byte_val c1) lo hi) eqn:Ho1;
      [intros H; inversion H; subst; discriminate|].
    destruct (Nat.leb_spec sz 2) as [Hs2|Hs2].
    { intros H Hsp; inversion H; subst.
      pose proof (allBytes_spec _ check2_ok _ B0) as Hc. simpl in Hc.
      rewrite Hfirst in Hc.
      replace (sz <=? 2)%nat with true in Hc by (symmetry; apply Nat.leb_le; lia).
      pose proof (allBytes_spec _ Hc _ B1) as Hc1. simpl in Hc1.
      rewrite Ho1 in Hc1. unfold decode2 in Hc1. simpl in Hc1. rewrite Hsp in Hc1.
      apply isWhiteSpaceBytes_In in Hc1.
      exists [byte_val c0; byte_val c1], s. repeat split; [exact Hc1|].
      unfold byte_val. simpl. now rewrite !ascii_N_embedding. }
    destruct s as [|c2 s]; [simpl in Hn; lia|].
    change (byte_at (String c0 (String c1 (String c2 s))) 2) with (byte_val c2).
    pose proof (byte_val_bound c2) as B2.
    destruct (utf8.outside (byte_val c2) utf8.locb utf8.hicb) eqn:Ho2;
      [intros H; inversion H; subst; discriminate|].
    destruct (Nat.leb_spec sz 3) as [Hs3|Hs3].
    { intros H Hsp; inversion H; subst.
      pose proof (allBytes_spec _ check3_ok _ B0) as Hc. simpl in Hc.
      rewrite Hfirst in Hc.
      replace (sz <=? 2)%nat with false in Hc by (symmetry; apply Nat.leb_gt; lia).
      replace (sz <=? 3)%nat with true in Hc by (symmetry; apply Nat.leb_le; lia).
      simpl in Hc.
      pose proof (allBytes_spec _ Hc _ B1) as Hc1. simpl in Hc1.
      rewrite Ho1 in Hc1. simpl in Hc1.
      pose proof (allBytes_spec _ Hc1 _ B2) as Hc2. simpl in Hc2.
      rewrite Ho2 in Hc2. unfold decode3 in Hc2. simpl in Hc2. rewrite Hsp in Hc2.
      apply isWhiteSpaceBytes_In in Hc2.
      exists [byte_val c0; byte_val c1; byte_val c2], s. repeat split; [exact Hc2|].
      unfold byte_val. simpl. now rewrite !ascii_N_embedding. }
    destruct s as [|c3 s]; [simpl in Hn; lia|].
    change (byte_at (String c0 (String c1 (String c2 (String c3 s)))) 3)
      with (byte_val c3).
    destruct (utf8.outside (byte_val c3) utf8.locb utf8.hicb) eqn:Ho3;
      [intros H; inversion H; subst; discriminate|].
    intros H Hsp; inversion H; subst. exfalso.
    pose proof (allBytes_spec _ check4_ok _ B0) as Hc. simpl in Hc.
    rewrite Hfirst in Hc.
    replace (sz <=? 3)%nat with false in Hc by (symmetry; apply Nat.leb_gt; lia).
    simpl in Hc.
    pose proof (allBytes_spec _ Hc _ B1) as Hc1. simpl in Hc1.
    rewrite Ho1 in Hc1. simpl in Hc1. apply N.leb_le in Hc1.
    rewrite IsSpace_large in Hsp; [discriminate|].
    now apply lor_large, lor_large.
Qed.

Ltac each_whiteSpace H :=
  vm_compute in H;
  repeat (destruct H as [H | H]; [subst | ]); [.. | contradiction H].

Lemma whiteSpace_shape (w : string) :
  In w whiteSpace ->
  exists c0 w', w = String c0 w'
    /\ ((byte_val c0 < 128)%N \/ (194 <= byte_val c0)%N)
    /\ allCont w' = true.
Proof.
  intros H. each_whiteSpace H;
    (eexists; eexists; split; [reflexivity|]; split;
     [vm_compute; first [left; reflexivity | right; discriminate] | reflexivity]).
Qed.

Lemma whiteSpace_decode (w rest : string) :
  In w whiteSpace ->
  exists r, utf8.DecodeRuneInString (w ++ rest) = (r, String.length w)
            /\ unicode.IsSpace r = true.
Proof.
  intros H. each_whiteSpace H;
    (eexists; split; [lazy; reflexivity | reflexivity]).
Qed.

Lemma whiteSpace_last (w : string) :
  In w whiteSpace ->
  (exists c, w = String c "" /\ strings.asciiSpace (byte_val c) = true)
  \/ ((2 <= String.length w)%nat
      /\ (utf8.RuneSelf <=? byte_at w (String.length w - 1))%N = true
      /\ (utf8.RuneSelf <=? byte_at w 0)%N = true).
Proof.
  intros H. each_whiteSpace H;
    first [ left; eexists; split; reflexivity
          | right; split; [simpl; lia | split; reflexivity] ].
Qed.

Lemma asciiSpace_whiteSpace (c : ascii) :
  strings.asciiSpace (byte_val c) = true -> In (String c "") whiteSpace.
Proof.
  unfold strings.asciiSpace. rewrite !orb_true_iff, !N.eqb_eq.
  intros H.
  assert (Hc : c = ascii_of_N (byte_val c))
    by (unfold byte_val; now rewrite ascii_N_embedding).
  rewrite Hc.
  destruct H as [[[[[H|H]|H]|H]|H]|H]; rewrite H; vm_compute; tauto.
Qed.

Lemma pieces_app (ws1 ws2 : list string) :
  pieces (ws1 ++ ws2)%list = (pieces ws1 ++ pieces ws2)%string.
Proof.
  induction ws1 as [|w ws1 IH]; [reflexivity|].
  simpl. now rewrite IH, app_assoc_string.
Qed.

Lemma blank_empty : blank "".
Proof. exists []. split; [constructor | reflexivity]. Qed.

Lemma blank_app (a b : string) : blank a -> blank b -> blank (a ++ b).
Proof.
  intros (wa & Ha & ->) (wb & Hb & ->). exists (wa ++ wb)%list.
  split; [now apply Forall_app | now rewrite pieces_app].
Qed.

Lemma blank_piece (w : string) : In w whiteSpace -> blank w.
Proof.
  intros H. exists [w]. split; [constructor; [exact H | constructor]|].
  simpl. now rewrite app_empty_r.
Qed.

Lemma blank_head (b b' : string) (c : ascii) :
  blank b -> b = String c b' -> (byte_val c < 128)%N \/ (194 <= byte_val c)%N.
Proof.
  intros (ws & Hws & ->). induction Hws as [|w ws Hw Hws IH]; [discriminate|].
  simpl. destruct (whiteSpace_shape w Hw) as (c0 & w' & -> & Hc0 & _).
  rewrite app_cons. intros E. inversion E; subst. exact Hc0.
Qed.

Lemma rune_at (c : ascii) (s : string) :
  (if (byte_val c <? utf8.RuneSelf)%N then (byte_val c, 1%nat)
   else utf8.DecodeRuneInString (String c s))
  = utf8.DecodeRuneInString (String c s).
Proof.
  destruct (N.ltb_spec (byte_val c) utf8.RuneSelf) as [Hlt|Hge]; [|reflexivity].
  unfold utf8.DecodeRuneInString.
  change (String.length (String c s) <? 1)%nat with false. cbv iota.
  change (byte_at (String c s) 0) with (byte_val c).
  unfold utf8.first. unfold utf8.RuneSelf in Hlt.
  now replace (byte_val c <? 128)%N with true by (symmetry; apply N.ltb_lt; lia).
Qed.

Lemma indexFunc_from_step (f : N -> bool) (truth : bool) (c : ascii) (s : string)
    (i : nat) :
  strings.indexFunc_from f truth (String c s) i 0
  = let '(r, wid) := utf8.DecodeRuneInString (String c s) in
    if Bool.eqb (f r) truth then Some i
    else strings.indexFunc_from f truth s (S i) (wid - 1).
Proof. cbn [strings.indexFunc_from]. now rewrite rune_at. Qed.

Lemma indexFunc_from_skip (f : N -> bool) (truth : bool) (x s : string) (i : nat) :
  strings.indexFunc_from f truth (x ++ s) i (String.length x)
  = strings.indexFunc_from f truth s (i + String.length x) 0.
Proof.
  revert i; induction x as [|c x IH]; intros i.
  - rewrite app_empty_l. simpl. now rewrite Nat.add_0_r.
  - rewrite app_cons. cbn [String.length strings.indexFunc_from].
    rewrite IH. f_equal. lia.
Qed.

Lemma indexFunc_from_piece (w rest : string) (i : nat) :
  In w whiteSpace ->
  strings.indexFunc_from unicode.IsSpace false (w ++ rest) i 0
  = strings.indexFunc_from unicode.IsSpace false rest (i + String.length w) 0.
Proof.
  intros Hw. destruct (whiteSpace_decode w rest Hw) as (r & Hdec & Hsp).
  destruct (whiteSpace_shape w Hw) as (c0 & w' & -> & _ & _).
  rewrite app_cons in *. rewrite indexFunc_from_step, Hdec, Hsp.
  cbn [Bool.eqb String.length]. rewrite Nat.sub_succ, Nat.sub_0_r.
  rewrite indexFunc_from_skip. f_equal. lia.
Qed.

Lemma indexFunc_from_blank (ws : list string) (rest : string) (i : nat) :
  Forall (fun w => In w whiteSpace) ws ->
  strings.indexFunc_from unicode.IsSpace false (pieces ws ++ rest) i 0
  = strings.indexFunc_from unicode.IsSpace false rest
      (i + String.length (pieces ws)) 0.
Proof.
  intros Hws. revert i; induction Hws as [|w ws Hw Hws IH]; intros i.
  - simpl. now rewrite app_empty_l, Nat.add_0_r.
  - simpl. rewrite app_assoc_string, indexFunc_from_piece by exact Hw.
    rewrite IH, length_app. f_equal. lia.
Qed.

Lemma bytesToString_length (bs : list N) :
  String.length (bytesToString bs) = length bs.
Proof. induction bs as [|b bs IH]; simpl; [reflexivity | now rewrite IH]. Qed.

Lemma bytesToString_whiteSpace (bs : list N) :
  In bs whiteSpaceBytes -> In (bytesToString bs) whiteSpace.
Proof. apply in_map. Qed.

Lemma beginsWith_app (w rest : string) : beginsWith w (w ++ rest) = true.
Proof.
  induction w as [|c w IH]; [reflexivity|].
  rewrite app_cons. simpl. now rewrite Ascii.eqb_refl, IH.
Qed.

Lemma beginsWith_spec (w t : string) :
  beginsWith w t = true -> exists rest, t = (w ++ rest)%string.
Proof.
  revert t; induction w as [|c w IH]; intros t H.
  - exists t. reflexivity.
  - destruct t as [|d t]; [discriminate|]. simpl in H.
    apply andb_prop in H as [Hc Hw]. apply Ascii.eqb_eq in Hc. subst d.
    destruct (IH t Hw) as (rest & ->). exists rest. now rewrite app_cons.
Qed.

(** An encoding at the head of [t ++ b] lies within [t], when [b] is
    blank: its continuation bytes cannot be the head of [b]. *)
Lemma beginsWith_cont (w' t b rest : string) :
  allCont w' = true -> blank b ->
  (t ++ b)%string = (w' ++ rest)%string -> beginsWith w' t = true.
Proof.
  intros Hc Hb. revert t; induction w' as [|c w' IH]; intros t E; [reflexivity|].
  simpl in Hc. apply andb_prop in Hc as [Hc Hc'].
  apply andb_prop in Hc as [Hlo Hhi]. apply N.leb_le in Hlo, Hhi.
  rewrite app_cons in E. destruct t as [|d t].
  - rewrite app_empty_l in E. destruct (blank_head _ _ _ Hb E); lia.
  - rewrite app_cons in E. inversion E; subst. simpl.
    rewrite Ascii.eqb_refl. now apply IH.
Qed.

Lemma beginsWith_straddle (w t b rest : string) :
  In w whiteSpace -> blank b -> t <> "" ->
  (t ++ b)%string = (w ++ rest)%string -> beginsWith w t = true.
Proof.
  intros Hw Hb Ht E.
  destruct (whiteSpace_shape w Hw) as (c0 & w' & -> & _ & Hc).
  destruct t as [|d t]; [congruence|].
  rewrite !app_cons in E. inversion E; subst. simpl.
  rewrite Ascii.eqb_refl. now apply beginsWith_cont with b rest.
Qed.

Lemma beginsBlank_false (w t : string) :
  beginsBlank t = false -> In w whiteSpace -> beginsWith w t = false.
Proof.
  intros H Hw. destruct (beginsWith w t) eqn:E; [|reflexivity].
  assert (beginsBlank t = true); [|congruence].
  unfold beginsBlank. apply existsb_exists. now exists w.
Qed.

(** The first rune of a text that does not begin with white space is no
    white space, whatever blank string follows the text. *)
Lemma first_rune_not_space (t b : string) (r : N) (n : nat) :
  t <> "" -> beginsBlank t = false -> blank b ->
  utf8.DecodeRuneInString (t ++ b) = (r, n) -> unicode.IsSpace r = false.
Proof.
  intros Ht Hbeg Hb Hdec. destruct (unicode.IsSpace r) eqn:Hsp; [|reflexivity].
  destruct (DecodeRune_space _ _ _ Hdec Hsp) as (bs & rest & Hin & E & _).
  apply bytesToString_whiteSpace in Hin.
  pose proof (beginsWith_straddle _ _ _ _ Hin Hb Ht E) as Hw.
  now rewrite (beginsBlank_false _ _ Hbeg Hin) in Hw.
Qed.

Lemma indexFunc_from_stop (t b : string) (i : nat) :
  t <> "" -> beginsBlank t = false -> blank b ->
  strings.indexFunc_from unicode.IsSpace false (t ++ b) i 0 = Some i.
Proof.
  intros Ht Hbeg Hb.
  destruct (utf8.DecodeRuneInString (t ++ b)) as [r n] eqn:Hdec.
  pose proof (first_rune_not_space _ _ _ _ Ht Hbeg Hb Hdec) as Hsp.
  destruct t as [|c t']; [congruence|]. rewrite app_cons in *.
  now rewrite indexFunc_from_step, Hdec, Hsp.
Qed.

Lemma TrimLeftFunc_blank (a t b : string) :
  blank a -> blank b -> beginsBlank t = false ->
  strings.TrimLeftFunc (a ++ t ++ b) unicode.IsSpace
  = match t with EmptyString => EmptyString | _ => (t ++ b)%string end.
Proof.
  intros Ha Hb Hbeg. unfold strings.TrimLeftFunc, strings.indexFunc.
  destruct (string_dec t "") as [->|Ht].
  - rewrite app_empty_l.
    destruct (blank_app a b Ha Hb) as (ws & Hws & ->).
    rewrite <- (app_empty_r (pieces ws)), indexFunc_from_blank by exact Hws.
    reflexivity.
  - destruct Ha as (ws & Hws & ->).
    rewrite indexFunc_from_blank, indexFunc_from_stop by assumption.
    simpl. rewrite sdrop_app. destruct t; [congruence | reflexivity].
Qed.

(** ** Reading runes backwards *)

Lemma stake_length (s : string) : stake (String.length s) s = s.
Proof. induction s as [|c s IH]; simpl; [reflexivity | now rewrite IH]. Qed.

Lemma stake_app_l (x y : string) (i : nat) :
  (i <= String.length x)%nat -> stake i (x ++ y) = stake i x.
Proof.
  revert i; induction x as [|c x IH]; intros i Hi; simpl in Hi.
  - replace i with 0%nat by lia. now destruct y.
  - rewrite app_cons. destruct i as [|i]; [reflexivity|].
    simpl. rewrite IH by lia. reflexivity.
Qed.

Lemma sdrop_app_l (x y : string) (i : nat) :
  (i <= String.length x)%nat -> sdrop i (x ++ y) = (sdrop i x ++ y)%string.
Proof.
  revert i; induction x as [|c x IH]; intros i Hi; simpl in Hi.
  - replace i with 0%nat by lia. reflexivity.
  - rewrite app_cons. destruct i as [|i]; [reflexivity|].
    simpl. apply IH. lia.
Qed.

Lemma sdrop_nth (t : string) (k : nat) :
  (k < String.length t)%nat ->
  exists c, sdrop k t = String c (sdrop (S k) t) /\ byte_at t k = byte_val c.
Proof.
  revert k; induction t as [|d t IH]; intros k Hk; simpl in Hk; [lia|].
  destruct k as [|k].
  - exists d. split; reflexivity.
  - destruct (IH k ltac:(lia)) as (c & E & Hb). exists c. split; [exact E|].
    unfold byte_at in *. exact Hb.
Qed.

Lemma length_zero (s : string) : String.length s = 0%nat -> s = "".
Proof. destruct s; [reflexivity | discriminate]. Qed.

Lemma RuneStart_spec (b : N) :
  (b < 256)%N -> utf8.RuneStart b = ((b <? 128) || (191 <? b))%N.
Proof.
  intros Hb. pose proof (allBytes_spec _ checkStart_ok _ Hb) as H.
  simpl in H. now apply Bool.eqb_prop in H.
Qed.

Lemma allCont_byte_at (w : string) (k : nat) :
  allCont w = true -> (k < String.length w)%nat ->
  utf8.RuneStart (byte_at w k) = false.
Proof.
  revert k; induction w as [|c w IH]; intros k Hc Hk; simpl in Hk; [lia|].
  simpl in Hc. apply andb_prop in Hc as [Hc Hw]. apply andb_prop in Hc as [Hlo Hhi].
  destruct k as [|k].
  - change (byte_at (String c w) 0) with (byte_val c).
    rewrite RuneStart_spec by apply byte_val_bound.
    apply N.leb_le in Hlo, Hhi. apply orb_false_iff.
    split; [apply N.ltb_ge | apply N.ltb_ge]; lia.
  - unfold byte_at in *. simpl. apply IH; [exact Hw | lia].
Qed.

Lemma asciiSpace_IsSpace (b : N) :
  strings.asciiSpace b = true -> unicode.IsSpace b = true.
Proof.
  unfold strings.asciiSpace. rewrite !orb_true_iff, !N.eqb_eq.
  intros [[[[[H|H]|H]|H]|H]|H]; rewrite H; reflexivity.
Qed.

Lemma whiteSpace_length (w : string) :
  In w whiteSpace -> (1 <= String.length w <= 3)%nat.
Proof. intros H. each_whiteSpace H; simpl; lia. Qed.

Lemma scanStart_le (s : string) (steps : nat) :
  forall start lim, (utf8.scanStart s start lim steps <= start)%Z.
Proof.
  induction steps as [|k IH]; intros start lim; simpl; [lia|].
  destruct (start <? lim)%Z; [lia|].
  destruct (utf8.RuneStart _); [lia|].
  specialize (IH (start - 1)%Z lim). lia.
Qed.

Lemma scanStart_find (s : string) (p : nat) (lim : Z) (steps : nat) :
  (lim <= Z.of_nat p)%Z ->
  utf8.RuneStart (byte_at s p) = true ->
  forall start : Z,
    (Z.of_nat p <= start)%Z -> (start - Z.of_nat p < Z.of_nat steps)%Z ->
    (forall q : nat, (p < q)%nat -> (Z.of_nat q <= start)%Z ->
                     utf8.RuneStart (byte_at s q) = false) ->
    utf8.scanStart s start lim steps = Z.of_nat p.
Proof.
  intros Hlim Hp. induction steps as [|k IH]; intros start H1 H2 Hq; [lia|].
  cbn [utf8.scanStart].
  replace (start <? lim)%Z with false by (symmetry; apply Z.ltb_ge; lia).
  destruct (Z.eq_dec start (Z.of_nat p)) as [->|Hne].
  - now rewrite Nat2Z.id, Hp.
  - rewrite (Hq (Z.to_nat start)) by lia.
    apply IH; [lia | lia |]. intros q Hq1 Hq2. apply Hq; lia.
Qed.

Lemma DecodeLastRune_ascii (x : string) (c : ascii) :
  (byte_val c < utf8.RuneSelf)%N ->
  utf8.DecodeLastRuneInString (x ++ String c "") = (byte_val c, 1%nat).
Proof.
  intros Hc. unfold utf8.DecodeLastRuneInString.
  rewrite length_app. cbn [String.length].
  replace (Z.of_nat (String.length x + 1) =? 0)%Z with false
    by (symmetry; apply Z.eqb_neq; lia).
  replace (Z.to_nat (Z.of_nat (String.length x + 1) - 1))
    with (String.length x + 0)%nat by lia.
  rewrite byte_at_app_r. change (byte_at (String c "") 0) with (byte_val c).
  now replace (byte_val c <? utf8.RuneSelf)%N with true
    by (symmetry; now apply N.ltb_lt).
Qed.

(** Read backwards, a string that ends with a white-space encoding gives
    that character. *)
Lemma DecodeLastRune_whiteSpace (x w : string) :
  In w whiteSpace ->
  exists r, utf8.DecodeLastRuneInString (x ++ w) = (r, String.length w)
            /\ unicode.IsSpace r = true.
Proof.
  intros Hw. destruct (whiteSpace_last w Hw) as [(c & -> & Hc)|(Hlen & Hlast & Hfirst)].
  - exists (byte_val c). split; [|now apply asciiSpace_IsSpace].
    apply DecodeLastRune_ascii. apply asciiSpace_ascii in Hc. now apply N.leb_gt in Hc.
  - destruct (whiteSpace_decode w "" Hw) as (r & Hdec & Hsp).
    rewrite app_empty_r in Hdec. exists r. split; [|exact Hsp].
    pose proof (whiteSpace_length w Hw) as Hlen3.
    destruct (whiteSpace_shape w Hw) as (c0 & w' & E & _ & Hcont).
    unfold utf8.DecodeLastRuneInString. rewrite length_app.
    set (n := String.length x). set (m := String.length w) in *.
    replace (Z.of_nat (n + m) =? 0)%Z with false by (symmetry; apply Z.eqb_neq; lia).
    replace (Z.to_nat (Z.of_nat (n + m) - 1)) with (n + (m - 1))%nat by lia.
    unfold n at 1. rewrite byte_at_app_r.
    replace (byte_at w (m - 1) <? utf8.RuneSelf)%N with false
      by (symmetry; apply N.ltb_ge; now apply N.leb_le in Hlast).
    assert (Hscan : utf8.scanStart (x ++ w) (Z.of_nat (n + m) - 1 - 1)
                      (Z.max 0 (Z.of_nat (n + m) - Z.of_nat utf8.UTFMax)) utf8.UTFMax
                    = Z.of_nat n).
    { apply scanStart_find.
      - unfold utf8.UTFMax. lia.
      - replace n with (n + 0)%nat at 1 by lia. unfold n at 1. rewrite byte_at_app_r.
        rewrite RuneStart_spec by (unfold byte_at; destruct (get 0 w);
                                   [apply byte_val_bound | lia]).
        apply N.leb_le in Hfirst. unfold utf8.RuneSelf in Hfirst.
        apply orb_true_iff. right.
        subst w. change (byte_at (String c0 w') 0) with (byte_val c0) in *.
        apply N.ltb_lt.
        destruct (whiteSpace_shape _ Hw) as (c1 & w1 & E1 & Hc1 & _).
        inversion E1; subst. lia.
      - lia.
      - unfold utf8.UTFMax. lia.
      - intros q Hq1 Hq2. replace q with (n + (q - n))%nat by lia.
        unfold n at 1. rewrite byte_at_app_r. subst w.
        change m with (S (String.length w')) in *.
        destruct (q - n)%nat as [|k] eqn:Ek; [lia|].
        change (byte_at (String c0 w') (S k)) with (byte_at w' k).
        apply allCont_byte_at; [exact Hcont | lia]. }
    rewrite Hscan.
    replace (Z.of_nat n <? 0)%Z with false by (symmetry; apply Z.ltb_ge; lia).
    rewrite Nat2Z.id. unfold n at 1. rewrite sdrop_app, Hdec.
    now replace (Z.of_nat n + Z.of_nat m =? Z.of_nat (n + m))%Z with true
      by (symmetry; apply Z.eqb_eq; lia).
Qed.

Lemma Decode_ascii (c : ascii) (s : string) :
  (byte_val c < utf8.RuneSelf)%N ->
  utf8.DecodeRuneInString (String c s) = (byte_val c, 1%nat).
Proof.
  intros Hc. rewrite <- rune_at.
  now replace (byte_val c <? utf8.RuneSelf)%N with true
    by (symmetry; now apply N.ltb_lt).
Qed.

Lemma Decode_size (s : string) (r : N) (n : nat) :
  utf8.DecodeRuneInString s = (r, n) -> (n <= String.length s)%nat.
Proof.
  unfold utf8.DecodeRuneInString.
  destruct s as [|c0 s]; [intros H; inversion H; simpl; lia|].
  change (String.length (String c0 s) <? 1)%nat with false. cbv iota.
  cbv zeta.
  destruct (utf8.first _) as [| |sz lo hi] eqn:Hfirst;
    try (intros H; inversion H; simpl; lia).
  destruct (first_multi _ _ _ _ Hfirst) as (Hsz & _).
  destruct (Nat.ltb_spec (String.length (String c0 s)) sz) as [Hn|Hn];
    [intros H; inversion H; simpl; lia|].
  repeat match goal with
         | |- context [if (?a <=? ?b)%nat then _ else _] =>
             destruct (Nat.leb_spec a b)
         | |- context [if utf8.outside ?a ?b ?c then _ else _] =>
             destruct (utf8.outside a b c)
         end; intros Hr; inversion Hr; subst; simpl in *; lia.
Qed.

(** A rune of two bytes or more is decoded from its own bytes alone. *)
Lemma Decode_app (x y : string) (r : N) (n : nat) :
  utf8.DecodeRuneInString x = (r, n) -> (2 <= n)%nat ->
  utf8.DecodeRuneInString (x ++ y) = (r, n).
Proof.
  unfold utf8.DecodeRuneInString.
  destruct x as [|c0 x]; [intros H; inversion H; lia|].
  rewrite app_cons.
  change (String.length (String c0 x) <? 1)%nat with false.
  change (String.length (String c0 (x ++ y)) <? 1)%nat with false. cbv iota zeta.
  change (byte_at (String c0 x) 0) with (byte_val c0).
  change (byte_at (String c0 (x ++ y)) 0) with (byte_val c0).
  destruct (utf8.first _) as [| |sz lo hi] eqn:Hfirst;
    try (intros H; inversion H; lia).
  destruct (first_multi _ _ _ _ Hfirst) as (Hsz & _).
  destruct (Nat.ltb_spec (String.length (String c0 x)) sz) as [Hn|Hn];
    [intros H; inversion H; lia|].
  replace (String.length (String c0 (x ++ y)) <? sz)%nat with false
    by (symmetry; apply Nat.ltb_ge; simpl in *; rewrite length_app; lia).
  destruct x as [|c1 x]; [simpl in Hn; lia|]. rewrite app_cons.
  change (byte_at (String c0 (String c1 x)) 1) with (byte_val c1).
  change (byte_at (String c0 (String c1 (x ++ y))) 1) with (byte_val c1).
  destruct (utf8.outside (byte_val c1) lo hi); [intros H; inversion H; lia|].
  destruct (Nat.leb_spec sz 2) as [Hs2|Hs2]; [auto|].
  destruct x as [|c2 x]; [simpl in Hn; lia|]. rewrite app_cons.
  change (byte_at (String c0 (String c1 (String c2 x))) 2) with (byte_val c2).
  change (byte_at (String c0 (String c1 (String c2 (x ++ y)))) 2) with (byte_val c2).
  destruct (utf8.outside (byte_val c2) _ _); [intros H; inversion H; lia|].
  destruct (Nat.leb_spec sz 3) as [Hs3|Hs3]; [auto|].
  destruct x as [|c3 x]; [simpl in Hn; lia|]. rewrite app_cons.
  change (byte_at (String c0 (String c1 (String c2 (String c3 x)))) 3)
    with (byte_val c3).
  change (byte_at (String c0 (String c1 (String c2 (String c3 (x ++ y))))) 3)
    with (byte_val c3).
  auto.
Qed.

(** A byte that is not ASCII, followed by a blank string, is a rune of
    width 1: no white-space encoding begins with a continuation byte. *)
Lemma Decode_before_blank (c : ascii) (b : string) :
  blank b -> snd (utf8.DecodeRuneInString (String c b)) = 1%nat.
Proof.
  intros Hb. unfold utf8.DecodeRuneInString.
  change (String.length (String c b) <? 1)%nat with false. cbv iota zeta.
  change (byte_at (String c b) 0) with (byte_val c).
  destruct (utf8.first _) as [| |sz lo hi] eqn:Hfirst; try reflexivity.
  destruct (first_multi _ _ _ _ Hfirst) as (Hsz & Hlo & Hhi & _).
  destruct (Nat.ltb_spec (String.length (String c b)) sz) as [Hn|Hn];
    [reflexivity|].
  destruct b as [|d b']; [simpl in Hn; lia|].
  change (byte_at (String c (String d b')) 1) with (byte_val d).
  destruct (blank_head _ _ _ Hb eq_refl) as [Hd|Hd].
  - unfold utf8.outside.
    replace (byte_val d <? lo)%N with true by (symmetry; apply N.ltb_lt; lia).
    reflexivity.
  - unfold utf8.outside.
    replace (hi <? byte_val d)%N with true by (symmetry; apply N.ltb_lt; lia).
    rewrite orb_true_r. reflexivity.
Qed.

(** The rune [DecodeLastRuneInString] gives for a string that is not empty:
    the error rune of width 1, or the rune that [DecodeRuneInString] reads
    from the last [size] bytes. *)
Lemma DecodeLastRune_cases (t : string) (r : N) (size : nat) :
  t <> "" -> utf8.DecodeLastRuneInString t = (r, size) ->
  (1 <= size <= String.length t)%nat
  /\ ((r = utf8.RuneError /\ size = 1%nat)
      \/ utf8.DecodeRuneInString (sdrop (String.length t - size) t) = (r, size)).
Proof.
  intros Ht. unfold utf8.DecodeLastRuneInString.
  assert (Hlen : (1 <= String.length t)%nat).
  { destruct t; [congruence | simpl; lia]. }
  replace (Z.of_nat (String.length t) =? 0)%Z with false
    by (symmetry; apply Z.eqb_neq; lia).
  replace (Z.to_nat (Z.of_nat (String.length t) - 1))
    with (String.length t - 1)%nat by lia.
  destruct (N.ltb_spec (byte_at t (String.length t - 1)) utf8.RuneSelf) as [Hlt|Hge].
  - intros H; inversion H; subst. split; [lia|]. right.
    destruct (sdrop_nth t (String.length t - 1) ltac:(lia)) as (c & E & Hb).
    rewrite E. rewrite Hb in *. now apply Decode_ascii.
  - cbv zeta.
    set (st := utf8.scanStart t _ _ _).
    pose proof (scanStart_le t utf8.UTFMax (Z.of_nat (String.length t) - 1 - 1)
                  (Z.max 0 (Z.of_nat (String.length t) - Z.of_nat utf8.UTFMax)))
      as Hst.
    fold st in Hst.
    set (start := if (st <? 0)%Z then 0%Z else st).
    assert (Hstart : (0 <= start < Z.of_nat (String.length t))%Z).
    { unfold start. destruct (Z.ltb_spec st 0); lia. }
    destruct (utf8.DecodeRuneInString (sdrop (Z.to_nat start) t)) as [r' size'] eqn:Hdec.
    destruct (Z.eqb_spec (start + Z.of_nat size') (Z.of_nat (String.length t)))
      as [He|He]; cbn [negb].
    + intros H; inversion H; subst. split; [lia|]. right.
      replace (String.length t - size)%nat with (Z.to_nat start) by lia.
      exact Hdec.
    + intros H; inversion H; subst. split; [lia|]. left. split; reflexivity.
Qed.

Lemma endsWith_app (x w : string) : endsWith w (x ++ w) = true.
Proof.
  unfold endsWith. rewrite length_app.
  replace (String.length x + String.length w - String.length w)%nat
    with (String.length x) by lia.
  rewrite sdrop_app, String.eqb_refl, andb_true_r. apply Nat.leb_le. lia.
Qed.

Lemma endsWith_spec (w t : string) :
  endsWith w t = true -> exists x, t = (x ++ w)%string.
Proof.
  unfold endsWith. intros H. apply andb_prop in H as [_ H].
  apply String.eqb_eq in H.
  exists (stake (String.length t - String.length w) t).
  pose proof (stake_sdrop (String.length t - String.length w) t) as E.
  rewrite H in E. now symmetry.
Qed.

Lemma endsBlank_false (w t : string) :
  endsBlank t = false -> In w whiteSpace -> endsWith w t = false.
Proof.
  intros H Hw. destruct (endsWith w t) eqn:E; [|reflexivity].
  assert (endsBlank t = true); [|congruence].
  unfold endsBlank. apply existsb_exists. now exists w.
Qed.

(** The last rune of a text that does not end with white space is no white
    space. *)
Lemma last_rune_not_space (t : string) (r : N) (size : nat) :
  t <> "" -> endsBlank t = false ->
  utf8.DecodeLastRuneInString t = (r, size) -> unicode.IsSpace r = false.
Proof.
  intros Ht Hend Hdec.
  destruct (DecodeLastRune_cases t r size Ht Hdec) as (Hsize & [(-> & _)|Hd]);
    [reflexivity|].
  destruct (unicode.IsSpace r) eqn:Hsp; [|reflexivity].
  destruct (DecodeRune_space _ _ _ Hd Hsp) as (bs & rest & Hin & E & Hbs).
  apply bytesToString_whiteSpace in Hin.
  assert (Hrest : rest = "").
  { apply length_zero. apply (f_equal String.length) in E.
    rewrite sdrop_length, length_app, bytesToString_length in E. lia. }
  subst rest. rewrite app_empty_r in E.
  assert (Hw : endsWith (bytesToString bs) t = true).
  { rewrite <- (stake_sdrop (String.length t - size) t), E. apply endsWith_app. }
  now rewrite (endsBlank_false _ _ Hend Hin) in Hw.
Qed.

(** ** [strings.TrimSpace] against the specification's trimming *)

Lemma lastIndexFunc_from_prefix (f : N -> bool) (truth : bool) (x y : string) :
  forall i k, (i <= String.length x)%nat ->
    strings.lastIndexFunc_from f truth (x ++ y) i k
    = strings.lastIndexFunc_from f truth x i k.
Proof.
  induction i as [|i IH]; intros k Hi; [reflexivity|].
  cbn [strings.lastIndexFunc_from]. destruct k as [|k].
  - rewrite stake_app_l by exact Hi.
    destruct (utf8.DecodeLastRuneInString _) as [r size].
    destruct (Bool.eqb (f r) truth); [reflexivity|]. apply IH. lia.
  - apply IH. lia.
Qed.

Lemma lastIndexFunc_from_skip (f : N -> bool) (truth : bool) (s : string) (i : nat) :
  forall k, strings.lastIndexFunc_from f truth s (i + k) k
            = strings.lastIndexFunc_from f truth s i 0.
Proof.
  induction k as [|k IH]; [now rewrite Nat.add_0_r|].
  rewrite Nat.add_succ_r. cbn [strings.lastIndexFunc_from]. exact IH.
Qed.

Lemma lastIndexFunc_from_piece (x w : string) :
  In w whiteSpace ->
  strings.lastIndexFunc_from unicode.IsSpace false (x ++ w)
    (String.length (x ++ w)) 0
  = strings.lastIndexFunc_from unicode.IsSpace false x (String.length x) 0.
Proof.
  intros Hw. destruct (DecodeLastRune_whiteSpace x w Hw) as (r & Hdec & Hsp).
  pose proof (whiteSpace_length w Hw) as Hlen.
  pose proof (stake_length (x ++ w)) as Hst.
  rewrite length_app in *.
  destruct (String.length w) as [|m] eqn:Em; [lia|].
  rewrite Nat.add_succ_r in *. cbn [strings.lastIndexFunc_from].
  rewrite Hst, Hdec, Hsp. cbn [Bool.eqb].
  rewrite Nat.sub_succ, Nat.sub_0_r, lastIndexFunc_from_skip.
  now apply lastIndexFunc_from_prefix.
Qed.

Lemma lastIndexFunc_from_blank (ws : list string) :
  Forall (fun w => In w whiteSpace) ws ->
  forall x,
    strings.lastIndexFunc_from unicode.IsSpace false (x ++ pieces ws)
      (String.length (x ++ pieces ws)) 0
    = strings.lastIndexFunc_from unicode.IsSpace false x (String.length x) 0.
Proof.
  induction 1 as [|w ws Hw Hws IH]; intros x.
  - simpl. now rewrite app_empty_r.
  - simpl. rewrite <- app_assoc_string, IH. now apply lastIndexFunc_from_piece.
Qed.

Lemma lastIndexFunc_from_stop (t : string) (r : N) (size : nat) :
  t <> "" -> utf8.DecodeLastRuneInString t = (r, size) ->
  unicode.IsSpace r = false ->
  strings.lastIndexFunc_from unicode.IsSpace false t (String.length t) 0
  = Some (String.length t - size)%nat.
Proof.
  intros Ht Hdec Hsp. pose proof (stake_length t) as Hst.
  destruct (String.length t) as [|m] eqn:Em.
  - apply length_zero in Em. congruence.
  - cbn [strings.lastIndexFunc_from]. now rewrite Hst, Hdec, Hsp.
Qed.

(** [TrimRightFunc] takes a blank string off the end of a text that does
    not end with white space. *)
Lemma TrimRightFunc_blank (t b : string) :
  t <> "" -> endsBlank t = false -> blank b ->
  strings.TrimRightFunc (t ++ b) unicode.IsSpace = t.
Proof.
  intros Ht Hend Hb.
  destruct (utf8.DecodeLastRuneInString t) as [r size] eqn:Hdec.
  pose proof (last_rune_not_space t r size Ht Hend Hdec) as Hsp.
  destruct (DecodeLastRune_cases t r size Ht Hdec) as (Hsize & Hcases).
  unfold strings.TrimRightFunc, strings.lastIndexFunc.
  destruct Hb as (ws & Hws & ->).
  rewrite lastIndexFunc_from_blank by exact Hws.
  rewrite (lastIndexFunc_from_stop t r size Ht Hdec Hsp).
  set (i := (String.length t - size)%nat).
  assert (Hi : (i < String.length t)%nat) by (unfold i; lia).
  rewrite byte_at_app_l by exact Hi.
  destruct (sdrop_nth t i Hi) as (c & E & Hbyte).
  assert (Hblank : blank (pieces ws)) by (exists ws; auto).
  assert (Hone : size = 1%nat -> sdrop i t = String c "").
  { intros H1. rewrite E. f_equal. apply length_zero.
    rewrite sdrop_length. unfold i. lia. }
  rewrite sdrop_app_l by lia.
  destruct (N.leb_spec utf8.RuneSelf (byte_at t i)) as [Hge|Hlt].
  - assert (Hwid : snd (utf8.DecodeRuneInString (sdrop i t ++ pieces ws)) = size).
    { destruct (Nat.eq_dec size 1) as [H1|H1].
      - rewrite (Hone H1), app_cons, app_empty_l, H1.
        now apply Decode_before_blank.
      - destruct Hcases as [(_ & H)|Hd]; [congruence|].
        fold i in Hd. rewrite (Decode_app _ _ _ _ Hd) by lia. reflexivity. }
    destruct (utf8.DecodeRuneInString (sdrop i t ++ pieces ws)) as [r' wid].
    simpl in Hwid. subst wid.
    replace (i + size)%nat with (String.length t) by (unfold i; lia).
    apply stake_app.
  - assert (H1 : size = 1%nat).
    { destruct Hcases as [(_ & H)|Hd]; [exact H|].
      fold i in Hd. rewrite E, Decode_ascii in Hd by (rewrite <- Hbyte; exact Hlt).
      now inversion Hd. }
    replace (S i) with (String.length t) by (unfold i; lia).
    apply stake_app.
Qed.

Lemma TrimFunc_blank (a t b : string) :
  blank a -> blank b -> beginsBlank t = false -> endsBlank t = false ->
  strings.TrimFunc (a ++ t ++ b) unicode.IsSpace = t.
Proof.
  intros Ha Hb Hbeg Hend. unfold strings.TrimFunc.
  rewrite TrimLeftFunc_blank by assumption.
  destruct (string_dec t "") as [->|Ht]; [reflexivity|].
  replace (match t with "" => "" | String _ _ => t ++ b end) with (t ++ b)%string
    by (destruct t; [congruence | reflexivity]).
  now apply TrimRightFunc_blank.
Qed.

Lemma trimSpaceStop_prefix (x y : string) :
  forall stop, (stop <= String.length x)%nat ->
    strings.trimSpaceStop (x ++ y) stop = strings.trimSpaceStop x stop.
Proof.
  induction stop as [|k IH]; intros Hk; [reflexivity|].
  cbn [strings.trimSpaceStop].
  rewrite byte_at_app_l, stake_app_l by lia.
  rewrite IH by lia. reflexivity.
Qed.

Lemma endsBlank_last (t : string) :
  t <> "" -> endsBlank t = false ->
  strings.asciiSpace (byte_at t (String.length t - 1)) = false.
Proof.
  intros Ht Hend.
  destruct (strings.asciiSpace _) eqn:Hsp; [|reflexivity].
  assert (Hlen : (String.length t - 1 < String.length t)%nat).
  { destruct t; [congruence | simpl; lia]. }
  destruct (sdrop_nth t _ Hlen) as (c & E & Hbyte).
  rewrite Hbyte in Hsp. apply asciiSpace_whiteSpace in Hsp.
  assert (Hw : endsWith (String c "") t = true).
  { rewrite <- (stake_sdrop (String.length t - 1) t), E.
    replace (sdrop (S (String.length t - 1)) t) with ""
      by (symmetry; apply length_zero; rewrite sdrop_length; lia).
    apply endsWith_app. }
  now rewrite (endsBlank_false _ _ Hend Hsp) in Hw.
Qed.

(** The second loop of [TrimSpace], started at the end of a text that does
    not end with white space. *)
Lemma trimSpaceStop_text (t : string) :
  t <> "" -> endsBlank t = false ->
  strings.trimSpaceStop t (String.length t) = t.
Proof.
  intros Ht Hend. pose proof (endsBlank_last t Ht Hend) as Hlast.
  pose proof (stake_length t) as Hst.
  pose proof (TrimRightFunc_blank t "" Ht Hend blank_empty) as Hright.
  rewrite app_empty_r in Hright.
  destruct (String.length t) as [|k] eqn:Ek.
  - apply length_zero in Ek. congruence.
  - cbn [strings.trimSpaceStop]. rewrite Nat.sub_succ, Nat.sub_0_r in Hlast.
    rewrite Hst, Hlast, Hright. now destruct (utf8.RuneSelf <=? byte_at t k)%N.
Qed.

Lemma trimSpaceStop_blank (t : string) (ws : list string) :
  t <> "" -> endsBlank t = false ->
  Forall (fun w => In w whiteSpace) ws ->
  strings.trimSpaceStop (t ++ pieces ws) (String.length (t ++ pieces ws)) = t.
Proof.
  intros Ht Hend. induction ws as [|w ws IH] using rev_ind; intros Hws.
  - simpl. rewrite app_empty_r. now apply trimSpaceStop_text.
  - assert (Hblank : blank (pieces (ws ++ [w])%list)) by (exists (ws ++ [w])%list; auto).
    apply Forall_app in Hws as [Hws Hw]. inversion Hw as [|? ? Hw' _]; subst.
    pose proof (TrimRightFunc_blank t _ Ht Hend Hblank) as Hright.
    assert (E : (t ++ pieces (ws ++ [w])%list)%string = ((t ++ pieces ws) ++ w)%string).
    { rewrite pieces_app. cbn [pieces]. now rewrite app_empty_r, app_assoc_string. }
    rewrite E in *. specialize (IH Hws).
    set (x := (t ++ pieces ws)%string) in *.
    pose proof (stake_length (x ++ w)) as Hst.
    rewrite length_app in *.
    destruct (whiteSpace_last w Hw') as [(c & -> & Hc)|(Hlen & Hlast & _)].
    + cbn [String.length] in *. rewrite Nat.add_1_r in *.
      cbn [strings.trimSpaceStop].
      pose proof (byte_at_app_r x (String c "") 0) as Hbyte.
      rewrite Nat.add_0_r in Hbyte.
      change (byte_at (String c "") 0) with (byte_val c) in Hbyte.
      rewrite Hbyte, (asciiSpace_ascii _ Hc), Hc.
      rewrite trimSpaceStop_prefix by lia. exact IH.
    + destruct (String.length w) as [|m] eqn:Em; [lia|].
      rewrite Nat.add_succ_r in *. cbn [strings.trimSpaceStop].
      replace (S m - 1)%nat with m in Hlast by lia.
      rewrite byte_at_app_r, Hlast, Hst. exact Hright.
Qed.

Lemma beginsBlank_head (c : ascii) (t : string) :
  beginsBlank (String c t) = false -> strings.asciiSpace (byte_val c) = false.
Proof.
  intros Hbeg. destruct (strings.asciiSpace (byte_val c)) eqn:Hsp; [|reflexivity].
  apply asciiSpace_whiteSpace in Hsp.
  pose proof (beginsBlank_false _ _ Hbeg Hsp) as Hw.
  simpl in Hw. now rewrite Ascii.eqb_refl in Hw.
Qed.

Lemma TrimSpace_text (t b : string) :
  blank b -> beginsBlank t = false -> endsBlank t = false ->
  strings.TrimSpace (t ++ b) = t.
Proof.
  intros Hb Hbeg Hend. destruct t as [|c t'] eqn:Et.
  - rewrite app_empty_l. destruct Hb as (ws & Hws & ->).
    induction Hws as [|w ws Hw Hws IH]; [reflexivity|].
    assert (Hrest : blank (pieces ws)) by (exists ws; auto).
    pose proof (TrimFunc_blank (pieces (w :: ws)) "" ""
                  ltac:(exists (w :: ws); auto) blank_empty eq_refl eq_refl) as Hfun.
    rewrite app_empty_l, app_empty_r in Hfun. cbn [pieces] in *.
    destruct (whiteSpace_last w Hw) as [(d & -> & Hd)|(_ & _ & Hfirst)].
    + rewrite app_cons, app_empty_l. cbn [strings.TrimSpace].
      now rewrite (asciiSpace_ascii _ Hd), Hd.
    + destruct (whiteSpace_shape w Hw) as (c0 & w' & -> & _ & _).
      rewrite app_cons in *. cbn [strings.TrimSpace].
      change (byte_at (String c0 w') 0) with (byte_val c0) in Hfirst.
      now rewrite Hfirst.
  - rewrite <- Et in *. assert (Ht : t <> "") by (rewrite Et; discriminate).
    pose proof (TrimFunc_blank "" t b blank_empty Hb Hbeg Hend) as Hfun.
    rewrite app_empty_l in Hfun.
    destruct Hb as (ws & Hws & ->).
    pose proof (trimSpaceStop_blank t ws Ht Hend Hws) as Hstop.
    rewrite Et in Hbeg. apply beginsBlank_head in Hbeg.
    rewrite Et in *. rewrite app_cons in *. cbn [strings.TrimSpace].
    rewrite Hbeg, Hfun, Hstop. now destruct (utf8.RuneSelf <=? byte_val c)%N.
Qed.

(** [strings.TrimSpace] gives back a text that neither begins nor ends with
    white space from any blank strings put around it. *)
Lemma TrimSpace_blank (a t b : string) :
  blank a -> blank b -> beginsBlank t = false -> endsBlank t = false ->
  strings.TrimSpace (a ++ t ++ b) = t.
Proof.
  intros (ws & Hws & ->) Hb Hbeg Hend.
  induction Hws as [|w ws Hw Hws IH].
  - simpl. rewrite app_empty_l. now apply TrimSpace_text.
  - assert (Hblank : blank (pieces (w :: ws))) by (exists (w :: ws); auto).
    pose proof (TrimFunc_blank _ t b Hblank Hb Hbeg Hend) as Hfun.
    cbn [pieces] in *. rewrite app_assoc_string in *.
    destruct (whiteSpace_last w Hw) as [(d & -> & Hd)|(_ & _ & Hfirst)].
    + rewrite app_cons, app_empty_l. cbn [strings.TrimSpace].
      now rewrite (asciiSpace_ascii _ Hd), Hd.
    + destruct (whiteSpace_shape w Hw) as (c0 & w' & -> & _ & _).
      rewrite app_cons in *. cbn [strings.TrimSpace].
      change (byte_at (String c0 w') 0) with (byte_val c0) in Hfirst.
      now rewrite Hfirst.
Qed.

Lemma TrimSpace_trimmed (s t : string) : trimmed s t -> strings.TrimSpace s = t.
Proof.
  intros (a & b & Ha & Hb & -> & Hbeg & Hend). now apply TrimSpace_blank.
Qed.

Lemma beginsBlank_true (t : string) :
  beginsBlank t = true ->
  exists w rest, In w whiteSpace /\ t = (w ++ rest)%string.
Proof.
  unfold beginsBlank. rewrite existsb_exists. intros (w & Hw & Hbeg).
  destruct (beginsWith_spec _ _ Hbeg) as (rest & ->). now exists w, rest.
Qed.

Lemma endsBlank_true (t : string) :
  endsBlank t = true ->
  exists x w, In w whiteSpace /\ t = (x ++ w)%string.
Proof.
  unfold endsBlank. rewrite existsb_exists. intros (w & Hw & Hend).
  destruct (endsWith_spec _ _ Hend) as (x & ->). now exists x, w.
Qed.

Lemma front_split (n : nat) :
  forall s, (String.length s <= n)%nat ->
    exists a t, blank a /\ s = (a ++ t)%string /\ beginsBlank t = false.
Proof.
  induction n as [|n IH]; intros s Hn.
  - assert (s = "") by (apply length_zero; lia). subst s.
    exists "", "". split; [apply blank_empty|]. split; reflexivity.
  - destruct (beginsBlank s) eqn:Hbeg.
    + destruct (beginsBlank_true s Hbeg) as (w & rest & Hw & ->).
      pose proof (whiteSpace_length w Hw) as Hlen. rewrite length_app in Hn.
      destruct (IH rest ltac:(lia)) as (a & t & Ha & -> & Ht).
      exists (w ++ a)%string, t.
      split; [apply blank_app; [now apply blank_piece | exact Ha]|].
      split; [now rewrite app_assoc_string | exact Ht].
    + exists "", s. split; [apply blank_empty|]. split; [reflexivity | exact Hbeg].
Qed.

Lemma back_split (n : nat) :
  forall s, (String.length s <= n)%nat ->
    exists t b, blank b /\ s = (t ++ b)%string /\ endsBlank t = false.
Proof.
  induction n as [|n IH]; intros s Hn.
  - assert (s = "") by (apply length_zero; lia). subst s.
    exists "", "". split; [apply blank_empty|]. split; reflexivity.
  - destruct (endsBlank s) eqn:Hend.
    + destruct (endsBlank_true s Hend) as (x & w & Hw & ->).
      pose proof (whiteSpace_length w Hw) as Hlen. rewrite length_app in Hn.
      destruct (IH x ltac:(lia)) as (t & b & Hb & -> & Ht).
      exists t, (b ++ w)%string.
      split; [apply blank_app; [exact Hb | now apply blank_piece]|].
      split; [now rewrite app_assoc_string | exact Ht].
    + exists s, "". split; [apply blank_empty|].
      split; [now rewrite app_empty_r | exact Hend].
Qed.

Lemma beginsBlank_app (t b : string) :
  beginsBlank (t ++ b) = false -> beginsBlank t = false.
Proof.
  intros H. destruct (beginsBlank t) eqn:Hbeg; [|reflexivity].
  destruct (beginsBlank_true t Hbeg) as (w & rest & Hw & ->).
  rewrite app_assoc_string in H.
  pose proof (beginsBlank_false _ _ H Hw) as Hno.
  now rewrite beginsWith_app in Hno.
Qed.

(** Every string has a trimmed form. *)
Lemma trimmed_total (s : string) : exists t, trimmed s t.
Proof.
  destruct (front_split (String.length s) s (le_n _)) as (a & u & Ha & -> & Hu).
  destruct (back_split (String.length u) u (le_n _)) as (t & b & Hb & -> & Ht).
  exists t, a, b. split; [exact Ha|]. split; [exact Hb|]. split; [reflexivity|].
  split; [now apply beginsBlank_app with b | exact Ht].
Qed.

(** [strings.TrimSpace] computes the trimmed form, and nothing else is one. *)
Lemma TrimSpace_spec (s t : string) : trimmed s t <-> strings.TrimSpace s = t.
Proof.
  split; [apply TrimSpace_trimmed|].
  intros <-. destruct (trimmed_total s) as (t & Ht).
  now rewrite (TrimSpace_trimmed s t Ht).
Qed.

Lemma TrimPrefix_stripMarker (tok : string) :
  strings.TrimPrefix tok "//" = stripMarker tok.
Proof.
  destruct tok as [|c0 [|c1 rest]]; [reflexivity | |].
  - destruct c0 as [[] [] [] [] [] [] [] []]; reflexivity.
  - destruct c0 as [[] [] [] [] [] [] [] []]; try reflexivity;
      destruct c1 as [[] [] [] [] [] [] [] []]; reflexivity.
Qed.

Lemma commentText_textOf (c : modfile.Comment) :
  textOf (modfile.Token c) (internal.commentText c).
Proof.
  unfold textOf, internal.commentText. rewrite TrimPrefix_stripMarker.
  now apply TrimSpace_spec.
Qed.

Lemma textOf_commentText (c : modfile.Comment) (t : string) :
  textOf (modfile.Token c) t -> internal.commentText c = t.
Proof.
  unfold textOf, internal.commentText. rewrite TrimPrefix_stripMarker.
  apply TrimSpace_spec.
Qed.

Lemma HasPrefix_beginsWith (s p : string) :
  strings.HasPrefix s p = beginsWith p s.
Proof.
  unfold strings.HasPrefix. revert s; induction p as [|c p IH]; intros s.
  - simpl. now destruct s.
  - destruct s as [|d s]; [reflexivity|].
    cbn [String.length stake beginsWith]. rewrite <- IH.
    change (S (String.length p) <=? S (String.length s))%nat
      with (String.length p <=? String.length s)%nat.
    destruct (String.length p <=? String.length s)%nat;
      [|now rewrite andb_false_r].
    cbn [andb]. cbn [String.eqb]. now rewrite (Ascii.eqb_sym d c).
Qed.

(** ** Deprecation *)

Lemma find_split {A : Type} (p : A -> bool) (l : list A) (x : A) :
  find p l = Some x ->
  exists pre post, l = (pre ++ x :: post)%list
                   /\ forallb (fun a => negb (p a)) pre = true /\ p x = true.
Proof.
  induction l as [|a l IH]; simpl; [discriminate|].
  destruct (p a) eqn:Ha.
  - intros E; inversion E; subst. now exists [], l.
  - intros E. destruct (IH E) as (pre & post & -> & Hpre & Hx).
    exists (a :: pre), post. simpl. now rewrite Ha.
Qed.

Lemma find_none_all {A : Type} (p : A -> bool) (l : list A) :
  find p l = None -> forallb (fun a => negb (p a)) l = true.
Proof.
  induction l as [|a l IH]; simpl; [reflexivity|].
  destruct (p a); [discriminate|]. exact IH.
Qed.

Lemma notice_marked (c : modfile.Comment) (reason : string) :
  noticeOf (modfile.Token c) reason ->
  strings.HasPrefix (internal.commentText c) internal.prefix = true
  /\ strings.TrimSpace
       (sdrop (String.length internal.prefix) (internal.commentText c)) = reason.
Proof.
  intros (rest & Htext & Hrest). rewrite (textOf_commentText c _ Htext).
  unfold internal.prefix. rewrite HasPrefix_app, sdrop_app.
  split; [reflexivity | now apply TrimSpace_spec].
Qed.

Lemma marked_notice (c : modfile.Comment) :
  strings.HasPrefix (internal.commentText c) internal.prefix = true ->
  noticeOf (modfile.Token c)
    (strings.TrimSpace
       (sdrop (String.length internal.prefix) (internal.commentText c))).
Proof.
  rewrite HasPrefix_beginsWith. intros H.
  destruct (beginsWith_spec _ _ H) as (rest & E).
  exists rest. unfold internal.prefix in E. rewrite <- E.
  split; [apply commentText_textOf|].
  rewrite E. unfold internal.prefix. rewrite sdrop_app. now apply TrimSpace_spec.
Qed.

Lemma noNotice_unmarked (c : modfile.Comment) :
  noNotice (modfile.Token c) <->
  strings.HasPrefix (internal.commentText c) internal.prefix = false.
Proof.
  rewrite HasPrefix_beginsWith. split.
  - intros (t & Htext & Ht). now rewrite (textOf_commentText c t Htext).
  - intros H. exists (internal.commentText c).
    split; [apply commentText_textOf | exact H].
Qed.

Lemma noNotice_forallb (cs : list modfile.Comment) :
  Forall (fun c => noNotice (modfile.Token c)) cs <->
  forallb (fun c => negb (strings.HasPrefix (internal.commentText c) internal.prefix))
    cs = true.
Proof.
  rewrite forallb_forall, List.Forall_forall. split; intros H c Hc.
  - apply negb_true_iff. apply (proj1 (noNotice_unmarked c)). exact (H c Hc).
  - apply (proj2 (noNotice_unmarked c)). apply negb_true_iff. exact (H c Hc).
Qed.

Lemma isDeprecated_find (mf : modfile.File) (md : modfile.Module_) (ln : modfile.Line) :
  modfile.File_Module mf = Some md ->
  modfile.Mod_Syntax md = Some ln ->
  internal.isDeprecated (Some mf)
  = Some match find (fun c => strings.HasPrefix (internal.commentText c) internal.prefix)
                 (modfile.Before (modfile.Line_Comments ln)
                  ++ modfile.Suffix (modfile.Line_Comments ln))%list with
         | Some c =>
             (true, strings.TrimSpace
                      (sdrop (String.length internal.prefix) (internal.commentText c)))
         | None => (false, "")
         end.
Proof.
  intros Hmd Hln.
  unfold internal.isDeprecated; simpl. rewrite Hmd; simpl. rewrite Hln; simpl.
  now rewrite isDeprecated_range_find.
Qed.

(** C4: for a manifest with a module declaration, [isDeprecated] scans the
    comments before the module line and then the comment next to it, and
    answers with the first one whose text (the token without its leading
    "//", trimmed) starts with "Deprecated:": the result is [true] and the
    trimmed text after the marker, whatever comments follow; when no comment
    starts so, the result is [(false, "")].  The comment
    "// Deprecated: use baz instead" is such a comment, with the text
    "use baz instead".

    The tests and the reason are those of the specification, for every
    token: with white space read as the 25 characters of the Unicode
    property White_Space in UTF-8 ([whiteSpace]), the text of a comment line
    ([textOf]) is what stands between the marker "//" and the blank strings
    at both ends, a notice ([noticeOf]) is a line whose text begins with
    "Deprecated:", and its reason is what follows, without the blank strings
    around it.  The result is [(true, reason)] exactly when the scanned
    comments are lines that are no notices, then a notice with that reason,
    then any comments; it is [(false, "")] exactly when no scanned comment
    is a notice. *)
Theorem isDeprecated_first_marked_comment
    (mf : modfile.File) (md : modfile.Module_) (ln : modfile.Line) :
  modfile.File_Module mf = Some md ->
  modfile.Mod_Syntax md = Some ln ->
  let scanned :=
    (modfile.Before (modfile.Line_Comments ln)
     ++ modfile.Suffix (modfile.Line_Comments ln))%list in
  let marked := fun c : modfile.Comment =>
    strings.HasPrefix
      (strings.TrimSpace (strings.TrimPrefix (modfile.Token c) "//"))
      "Deprecated:" in
  let reason := fun c : modfile.Comment =>
    strings.TrimSpace
      (sdrop (String.length "Deprecated:")
         (strings.TrimSpace (strings.TrimPrefix (modfile.Token c) "//"))) in
  let plain := fun c : modfile.Comment => noNotice (modfile.Token c) in
  (forall pre c post,
      scanned = (pre ++ c :: post)%list ->
      forallb (fun c' => negb (marked c')) pre = true ->
      marked c = true ->
      internal.isDeprecated (Some mf) = Some (true, reason c))
  /\ (forallb (fun c' => negb (marked c')) scanned = true ->
      internal.isDeprecated (Some mf) = Some (false, ""))
  /\ (forall c, modfile.Token c = "// Deprecated: use baz instead" ->
      marked c = true /\ reason c = "use baz instead")
  /\ (forall c, textOf (modfile.Token c)
                  (strings.TrimSpace (strings.TrimPrefix (modfile.Token c) "//")))
  /\ (forall c, (marked c = false <-> plain c)
                /\ (forall r, marked c = true /\ reason c = r
                              <-> noticeOf (modfile.Token c) r))
  /\ (forall pre c post r,
      scanned = (pre ++ c :: post)%list ->
      Forall plain pre -> noticeOf (modfile.Token c) r ->
      internal.isDeprecated (Some mf) = Some (true, r))
  /\ (Forall plain scanned ->
      internal.isDeprecated (Some mf) = Some (false, ""))
  /\ (forall r, internal.isDeprecated (Some mf) = Some (true, r) ->
      exists pre c post,
        scanned = (pre ++ c :: post)%list
        /\ Forall plain pre /\ noticeOf (modfile.Token c) r)
  /\ (forall r, internal.isDeprecated (Some mf) = Some (false, r) ->
      r = "" /\ Forall plain scanned)
  /\ (forall c, modfile.Token c = "// Deprecated: use baz instead" ->
      noticeOf (modfile.Token c) "use baz instead").
Proof.
  intros Hmd Hln scanned marked reason plain.
  pose proof (isDeprecated_find mf md ln Hmd Hln) as Hrun.
  fold scanned in Hrun.
  change (fun c => strings.HasPrefix (internal.commentText c) internal.prefix)
    with marked in Hrun.
  assert (Hnotice : forall c r, marked c = true /\ reason c = r
                                <-> noticeOf (modfile.Token c) r).
  { intros c r. split.
    - intros [Hm <-]. now apply marked_notice.
    - apply notice_marked. }
  assert (Hplain : forall cs, Forall plain cs
                              <-> forallb (fun c' => negb (marked c')) cs = true)
    by exact noNotice_forallb.
  rewrite Hrun. repeat apply conj.
  - intros pre c post Hsplit Hpre Hc. rewrite Hsplit.
    now rewrite (find_first marked pre c post Hpre Hc).
  - intros Hnone. now rewrite (find_none marked scanned Hnone).
  - intros c Htoken. subst marked reason; simpl. now rewrite Htoken.
  - exact commentText_textOf.
  - intros c. split; [|exact (Hnotice c)]. symmetry. apply noNotice_unmarked.
  - intros pre c post r Hsplit Hpre Hc. rewrite Hsplit.
    apply Hplain in Hpre. apply Hnotice in Hc as [Hc <-].
    now rewrite (find_first marked pre c post Hpre Hc).
  - intros Hnone. apply Hplain in Hnone.
    now rewrite (find_none marked scanned Hnone).
  - intros r Hres. destruct (find marked scanned) as [c|] eqn:Hfind;
      [|discriminate].
    destruct (find_split marked scanned c Hfind) as (pre & post & E & Hpre & Hc).
    exists pre, c, post. split; [exact E|]. split; [now apply Hplain|].
    apply Hnotice. split; [exact Hc | now inversion Hres].
  - intros r Hres. destruct (find marked scanned) as [c|] eqn:Hfind;
      [discriminate|].
    split; [now inversion Hres|]. apply Hplain. now apply find_none_all.
  - intros c Htoken. apply Hnotice. subst marked reason; simpl. now rewrite Htoken.
Qed.

Lemma isDeprecated_first_marked_comment_witness :
  modfile.File_Module paddedFile
  = Some (moduleDecl
            [lineComment ("//" ++ ideographicSpace ++ "was Deprecated: once");
             lineComment ("//" ++ nbsp ++ "Deprecated:" ++ tab ++ ideographicSpace
                          ++ "use baz" ++ nbsp ++ " ")]
            [lineComment "// Deprecated: gone"])
  /\ noNotice ("//" ++ ideographicSpace ++ "was Deprecated: once")
  /\ noticeOf ("//" ++ nbsp ++ "Deprecated:" ++ tab ++ ideographicSpace
               ++ "use baz" ++ nbsp ++ " ") "use baz"
  /\ internal.isDeprecated (Some paddedFile) = Some (true, "use baz")
  /\ internal.isDeprecated (Some sampleFile) = Some (true, "use baz instead").
Proof.
  assert (Hws : forall ws, forallb (fun w => existsb (String.eqb w) whiteSpace) ws = true ->
                           blank (pieces ws)).
  { intros ws H. exists ws. split; [|reflexivity].
    apply List.Forall_forall. intros w Hw.
    rewrite forallb_forall in H. specialize (H w Hw).
    apply existsb_exists in H as (w' & Hin & E). apply String.eqb_eq in E.
    now subst. }
  assert (H1 : noNotice ("//" ++ ideographicSpace ++ "was Deprecated: once")).
  { exists "was Deprecated: once". split; [|reflexivity].
    exists ideographicSpace, "".
    split; [exact (Hws [ideographicSpace] eq_refl)|].
    split; [exact (Hws [] eq_refl)|].
    split; [reflexivity|]. split; reflexivity. }
  assert (H2 : noticeOf ("//" ++ nbsp ++ "Deprecated:" ++ tab ++ ideographicSpace
                         ++ "use baz" ++ nbsp ++ " ") "use baz").
  { exists (tab ++ ideographicSpace ++ "use baz")%string. split.
    - exists nbsp, (nbsp ++ " ")%string.
      split; [exact (Hws [nbsp] eq_refl)|].
      split; [exact (Hws [nbsp; " "] eq_refl)|].
      split; [reflexivity|]. split; reflexivity.
    - exists (tab ++ ideographicSpace)%string, "".
      split; [exact (Hws [tab; ideographicSpace] eq_refl)|].
      split; [exact (Hws [] eq_refl)|].
      split; [reflexivity|]. split; reflexivity. }
  split; [reflexivity|]. split; [exact H1|]. split; [exact H2|]. split.
  - destruct (isDeprecated_first_marked_comment paddedFile _ _ eq_refl eq_refl)
      as (_ & _ & _ & _ & _ & Hfirst & _).
    apply (Hfirst [lineComment ("//" ++ ideographicSpace ++ "was Deprecated: once")]
             (lineComment ("//" ++ nbsp ++ "Deprecated:" ++ tab ++ ideographicSpace
                           ++ "use baz" ++ nbsp ++ " "))
             [lineComment "// Deprecated: gone"]).
    + reflexivity.
    + constructor; [exact H1 | constructor].
    + exact H2.
  - refine (proj1 (isDeprecated_first_marked_comment sampleFile _ _ eq_refl eq_refl)
              [lineComment "// Module m."]
              (lineComment "// Deprecated: use baz instead")
              [lineComment "// Deprecated: gone"] eq_refl _ _);
      vm_compute; reflexivity.
Defined.

(** ** The analysis on the manifest in memory *)

Lemma cells_insert (h : memory.Heap) (a b : nat) (v : memory.Array) :
  memory.cells (<[a := v]> h) b
  = if decide (a = b /\ (a < length h)%nat) then v else memory.cells h b.
Proof.
  unfold memory.cells. case_decide as Hd.
  - destruct Hd as [-> Hlt]. now rewrite list_lookup_insert_eq.
  - destruct (decide (a = b)) as [->|Hne].
    + rewrite list_insert_id'; [reflexivity|]. intros Hlt. exfalso. auto.
    + now rewrite list_lookup_insert_ne.
Qed.

Lemma cells_alloc (h : memory.Heap) (v : memory.Array) (b : nat) :
  (b < length h)%nat -> memory.cells (h ++ [v])%list b = memory.cells h b.
Proof. intros Hb. unfold memory.cells. now rewrite lookup_app_l. Qed.

Lemma cells_unallocated (h : memory.Heap) (b : nat) :
  (length h <= b)%nat -> memory.cells h b = [].
Proof. intros Hb. unfold memory.cells. now rewrite lookup_ge_None_2. Qed.

Lemma inBounds_spec (h : memory.Heap) (s : memory.Slice) :
  memory.inBounds h s = true ->
  (memory.len s <= memory.cap s)%nat
  /\ (memory.offset s + memory.cap s <= length (memory.cells h (memory.array s)))%nat.
Proof.
  unfold memory.inBounds. intros H. apply andb_prop in H as [H1 H2].
  apply Nat.leb_le in H1, H2. auto.
Qed.

Lemma elems_length (h : memory.Heap) (s : memory.Slice) :
  memory.inBounds h s = true -> length (memory.elems h s) = memory.len s.
Proof.
  intros H. apply inBounds_spec in H as [H1 H2].
  unfold memory.elems. rewrite length_take, length_drop. lia.
Qed.

(** Two heaps show the same elements in a slice when its cells are the
    same. *)
Lemma elems_ext (h h' : memory.Heap) (s : memory.Slice) :
  (forall i, (i < memory.len s)%nat ->
     memory.cells h' (memory.array s) !! (memory.offset s + i)%nat
     = memory.cells h (memory.array s) !! (memory.offset s + i)%nat) ->
  memory.elems h' s = memory.elems h s.
Proof.
  intros H. unfold memory.elems. apply list_eq. intros i.
  destruct (decide (i < memory.len s)%nat) as [Hlt|Hge].
  - rewrite !lookup_take_lt, !lookup_drop by exact Hlt. now apply H.
  - now rewrite !lookup_take_ge by lia.
Qed.

Section AppendFacts.

Variable growcap : nat -> nat -> nat.

(** [append] returns the elements of the slice followed by the new ones. *)
Lemma append_elems (h : memory.Heap) (s : memory.Slice) (xs : list modfile.Comment) :
  memory.inBounds h s = true ->
  let '(h', s') := memory.append growcap h s xs in
  memory.elems h' s' = (memory.elems h s ++ xs)%list.
Proof.
  intros Hs. pose proof (elems_length h s Hs) as Hlen.
  apply inBounds_spec in Hs as [H1 H2].
  unfold memory.append.
  destruct (Nat.leb_spec (memory.len s + length xs) (memory.cap s)) as [Hfit|Hgrow].
  - unfold memory.elems at 1. cbn [memory.array memory.offset memory.len].
    rewrite cells_insert. case_decide as Hd.
    + apply list_eq. intros i.
      destruct (decide (i < memory.len s)%nat) as [Hi|Hi].
      * rewrite lookup_take_lt, lookup_drop, list_lookup_inserts_lt by lia.
        rewrite lookup_app_l by lia.
        unfold memory.elems. now rewrite lookup_take_lt, lookup_drop by lia.
      * destruct (decide (i < memory.len s + length xs)%nat) as [Hi2|Hi2].
        -- rewrite lookup_take_lt, lookup_drop, list_lookup_inserts by lia.
           rewrite lookup_app_r by lia. f_equal. lia.
        -- rewrite lookup_take_ge by lia. symmetry. apply lookup_ge_None_2.
           rewrite List.length_app. lia.
    + assert (Hnone : memory.cells h (memory.array s) = []).
      { apply cells_unallocated. destruct (decide (memory.array s < length h)%nat); [|lia].
        exfalso. auto. }
      rewrite Hnone in *. cbn [length] in H2.
      assert (Hxs : xs = []) by (destruct xs; [reflexivity | simpl in Hfit; lia]).
      subst xs. unfold memory.elems. rewrite Hnone.
      now rewrite drop_nil, !take_nil.
  - unfold memory.elems at 1. cbn [memory.array memory.offset memory.len].
    unfold memory.cells at 1. rewrite lookup_app_r, Nat.sub_diag by lia.
    cbn [lookup list_lookup default from_option id]. rewrite drop_0.
    rewrite app_assoc, take_app_length'; [reflexivity|].
    rewrite List.length_app. lia.
Qed.

(** What [append] leaves as it was: every cell of every allocated array,
    but those behind the slice that hold the new elements. *)
Lemma append_frame (h : memory.Heap) (s : memory.Slice) (xs : list modfile.Comment)
    (b i : nat) :
  (b < length h)%nat ->
  b <> memory.array s
  \/ (i < memory.offset s + memory.len s)%nat
  \/ (memory.offset s + memory.len s + length xs <= i)%nat ->
  memory.cells (fst (memory.append growcap h s xs)) b !! i = memory.cells h b !! i.
Proof.
  intros Hb Hout. unfold memory.append.
  destruct (memory.len s + length xs <=? memory.cap s)%nat; cbn [fst].
  - rewrite cells_insert. case_decide as Hd; [|reflexivity].
    destruct Hd as [<- _].
    destruct Hout as [Hne|[Hlt|Hge]]; [congruence| |].
    + now apply list_lookup_inserts_lt.
    + now apply list_lookup_inserts_ge.
  - now rewrite cells_alloc.
Qed.

Lemma append_length (h : memory.Heap) (s : memory.Slice) (xs : list modfile.Comment)
    (b : nat) :
  (b < length h)%nat ->
  length (memory.cells (fst (memory.append growcap h s xs)) b)
  = length (memory.cells h b).
Proof.
  intros Hb. unfold memory.append.
  destruct (memory.len s + length xs <=? memory.cap s)%nat; cbn [fst].
  - rewrite cells_insert. case_decide as Hd; [|reflexivity].
    destruct Hd as [<- _]. apply length_inserts.
  - now rewrite cells_alloc.
Qed.

(** A slice in bounds shows after [append] what it showed before, when it
    has no cell among those written. *)
Lemma append_elems_kept (h : memory.Heap) (s t : memory.Slice)
    (xs : list modfile.Comment) :
  memory.inBounds h t = true ->
  t = s \/ memory.apart s t = true ->
  memory.elems (fst (memory.append growcap h s xs)) t = memory.elems h t.
Proof.
  intros Ht Hsep. pose proof (inBounds_spec h t Ht) as [H1 H2].
  apply elems_ext. intros i Hi.
  assert (Halloc : (memory.array t < length h)%nat).
  { destruct (decide (memory.array t < length h)%nat) as [Hlt|Hge]; [exact Hlt|].
    rewrite cells_unallocated in H2 by lia. simpl in H2. lia. }
  apply append_frame; [exact Halloc|].
  destruct Hsep as [->|Hsep]; [right; left; lia|].
  unfold memory.apart in Hsep. apply orb_prop in Hsep as [Hz|Hne].
  - apply Nat.eqb_eq in Hz. lia.
  - left. apply negb_true_iff, Nat.eqb_neq in Hne. exact Hne.
Qed.

End AppendFacts.

Lemma laidOut_spec (h : memory.Heap) (c : memory.Comments) :
  memory.laidOut h c = true ->
  memory.inBounds h (memory.Before c) = true
  /\ memory.inBounds h (memory.Suffix c) = true
  /\ memory.inBounds h (memory.After c) = true
  /\ memory.apart (memory.Before c) (memory.Suffix c) = true
  /\ memory.apart (memory.Before c) (memory.After c) = true.
Proof.
  unfold memory.laidOut. rewrite !andb_true_iff. tauto.
Qed.

(** The result of [isDeprecated] on the manifest in memory is its result on
    what the manifest shows. *)
Lemma isDeprecated_view (growcap : nat -> nat -> nat) (h : memory.Heap)
    (f : memory.File) :
  memory.wellFormed h f = true ->
  snd (memory.isDeprecated growcap h (Some f))
  = internal.isDeprecated (Some (memory.view h f)).
Proof.
  unfold memory.wellFormed, memory.isDeprecated, internal.isDeprecated.
  destruct f as [[[p [ln|]]|] rs]; simpl; try reflexivity.
  intros Hwf. apply laidOut_spec in Hwf as (Hb & _).
  pose proof (append_elems growcap h (memory.Before (memory.Line_Comments ln))
                (memory.elems h (memory.Suffix (memory.Line_Comments ln))) Hb) as He.
  destruct (memory.append _ _ _ _) as [h' s']. simpl. now rewrite He.
Qed.

(** The manifest shows after [isDeprecated] what it showed before. *)
Lemma isDeprecated_keeps_view (growcap : nat -> nat -> nat) (h : memory.Heap)
    (f : memory.File) :
  memory.wellFormed h f = true ->
  memory.view (fst (memory.isDeprecated growcap h (Some f))) f = memory.view h f.
Proof.
  unfold memory.wellFormed, memory.isDeprecated.
  destruct f as [[[p [ln|]]|] rs]; simpl; try reflexivity.
  intros Hwf. apply laidOut_spec in Hwf as (Hb & Hs & Ha & Hbs & Hba).
  pose proof (append_elems_kept growcap h (memory.Before (memory.Line_Comments ln)) _
                (memory.elems h (memory.Suffix (memory.Line_Comments ln)))
                Hb (or_introl eq_refl)) as H1.
  pose proof (append_elems_kept growcap h (memory.Before (memory.Line_Comments ln)) _
                (memory.elems h (memory.Suffix (memory.Line_Comments ln)))
                Hs (or_intror Hbs)) as H2.
  pose proof (append_elems_kept growcap h (memory.Before (memory.Line_Comments ln)) _
                (memory.elems h (memory.Suffix (memory.Line_Comments ln)))
                Ha (or_intror Hba)) as H3.
  destruct (memory.append _ _ _ _) as [h' s']. simpl in *.
  unfold memory.view, memory.viewModule, memory.viewLine, memory.viewComments.
  simpl. now rewrite H1, H2, H3.
Qed.

(** The cells [isDeprecated] can write are those behind the comments before
    the module line, as many as there are comments next to it. *)
Lemma isDeprecated_frame (growcap : nat -> nat -> nat) (h : memory.Heap)
    (f : memory.File) (md : memory.Module_) (ln : memory.Line) (b i : nat) :
  memory.wellFormed h f = true ->
  memory.File_Module f = Some md -> memory.Mod_Syntax md = Some ln ->
  let before := memory.Before (memory.Line_Comments ln) in
  let suffix := memory.Suffix (memory.Line_Comments ln) in
  (b < length h)%nat ->
  b <> memory.array before
  \/ (i < memory.offset before + memory.len before)%nat
  \/ (memory.offset before + memory.len before + memory.len suffix <= i)%nat ->
  memory.cells (fst (memory.isDeprecated growcap h (Some f))) b !! i
  = memory.cells h b !! i.
Proof.
  intros Hwf Hmd Hln before suffix Hb Hout.
  unfold memory.wellFormed in Hwf. rewrite Hmd, Hln in Hwf.
  apply laidOut_spec in Hwf as (_ & Hs & _).
  pose proof (elems_length h _ Hs) as Hlen. fold suffix in Hlen.
  unfold memory.isDeprecated. rewrite Hmd, Hln.
  pose proof (append_frame growcap h before (memory.elems h suffix) b i Hb) as Hfr.
  rewrite Hlen in Hfr. specialize (Hfr Hout).
  fold before suffix.
  destruct (memory.append growcap h before (memory.elems h suffix)) as [h' s'].
  exact Hfr.
Qed.

Lemma isDeprecated_lengths (growcap : nat -> nat -> nat) (h : memory.Heap)
    (f : memory.File) (b : nat) :
  (b < length h)%nat ->
  length (memory.cells (fst (memory.isDeprecated growcap h (Some f))) b)
  = length (memory.cells h b).
Proof.
  intros Hb. unfold memory.isDeprecated.
  destruct f as [[[p [ln|]]|] rs]; simpl; try reflexivity.
  pose proof (append_length growcap h (memory.Before (memory.Line_Comments ln))
                (memory.elems h (memory.Suffix (memory.Line_Comments ln))) b Hb) as H.
  destruct (memory.append _ _ _ _) as [h' s']. exact H.
Qed.

Lemma isRetracted_view (h : memory.Heap) (f : memory.File) (v : string) :
  memory.isRetracted h (Some f) v
  = (h, internal.isRetracted (Some (memory.view h f)) v).
Proof. reflexivity. Qed.

(** Every manifest is shown by a well-formed manifest in memory: each
    comment slice in an array of its own. *)
Lemma view_onto (f : modfile.File) :
  exists h fm, memory.wellFormed h fm = true /\ memory.view h fm = f.
Proof.
  destruct f as [[[p [[[bs ss as_] st tk ib en]|]]|] rs].
  - exists [bs; ss; as_],
      (memory.mkFile
         (Some (memory.mkModule p
                  (Some (memory.mkLine
                           (memory.mkComments
                              (memory.mkSlice 0 0 (length bs) (length bs))
                              (memory.mkSlice 1 0 (length ss) (length ss))
                              (memory.mkSlice 2 0 (length as_) (length as_)))
                           st tk ib en)))) rs).
    split.
    + unfold memory.wellFormed, memory.laidOut, memory.inBounds, memory.apart.
      simpl. rewrite !Nat.leb_refl. simpl. now rewrite !orb_true_r.
    + unfold memory.view, memory.viewModule, memory.viewLine, memory.viewComments,
        memory.elems. simpl. now rewrite !firstn_all.
  - exists [], (memory.mkFile (Some (memory.mkModule p None)) rs). split; reflexivity.
  - exists [], (memory.mkFile None rs). split; reflexivity.
Qed.

(** C6, counterexample: on a parsed manifest whose three comments before
    the module line sit in an array of four cells, [isDeprecated] writes the
    comment next to the line into the fourth cell: the call has an effect on
    memory, though the manifest shows what it showed. *)
Lemma isDeprecated_writes_spare_capacity :
  memory.wellFormed spareHeap spareFile = true
  /\ parsed (memory.view spareHeap spareFile) = true
  /\ semver.IsValid "v1.1.0" = true
  /\ fst (memory.isDeprecated doubling spareHeap (Some spareFile))
     = [[lineComment "// Module m."; lineComment "// Deprecated: use baz instead";
         lineComment "// See the README."; lineComment "// Deprecated: gone"];
        [lineComment "// Deprecated: gone"]]
  /\ fst (memory.isDeprecated doubling spareHeap (Some spareFile)) <> spareHeap
  /\ ~ (forall growcap h f,
          memory.wellFormed h f = true -> parsed (memory.view h f) = true ->
          fst (memory.isDeprecated growcap h (Some f)) = h).
Proof.
  assert (Hne : fst (memory.isDeprecated doubling spareHeap (Some spareFile))
                <> spareHeap) by (vm_compute; discriminate).
  split; [reflexivity|]. split; [reflexivity|]. split; [reflexivity|].
  split; [reflexivity|]. split; [exact Hne|].
  intros Hall. apply Hne. now apply Hall.
Qed.

(** C6, as amended: on a parsed manifest in memory and for any version,
    [isDeprecated], [isRetracted] and [PopulateModule] return (none of them
    panics); the results are those of the manifest's contents, whatever the
    layout of the slices and the growth of [append]; the manifest shows
    after the analysis what it showed before; [isRetracted] leaves the
    memory as it is, and [isDeprecated] no array it found shorter or longer,
    and every cell as it was but the cells behind the comments before the
    module line, as many as there are comments next to the line.  Absent
    data gives the default: without a module declaration the deprecation is
    [(false, "")] and nothing is written, without retract directives the
    retraction is [(false, "")], and without both the four lifecycle fields
    of the module are set to their defaults. *)
Theorem lifecycle_analysis_keeps_manifest {R : Type}
    (growcap : nat -> nat -> nat) (h : memory.Heap) (f : memory.File)
    (r : internal.RawLatestInfo) (m : internal.Module_ R) (resolvedVersion : string) :
  memory.wellFormed h f = true ->
  parsed (memory.view h f) = true ->
  internal.GoModFile r = Some (memory.view h f) ->
  let shown := memory.view h f in
  let h' := fst (memory.isDeprecated growcap h (Some f)) in
  (exists d, snd (memory.isDeprecated growcap h (Some f)) = Some d)
  /\ (exists t, snd (memory.isRetracted h' (Some f) resolvedVersion) = Some t)
  /\ (exists m', internal.PopulateModule r m = internal.Returned m')
  /\ snd (memory.isDeprecated growcap h (Some f)) = internal.isDeprecated (Some shown)
  /\ snd (memory.isRetracted h' (Some f) resolvedVersion)
     = internal.isRetracted (Some shown) resolvedVersion
  /\ memory.view h' f = shown
  /\ fst (memory.isRetracted h' (Some f) resolvedVersion) = h'
  /\ (forall b, (b < length h)%nat ->
        length (memory.cells h' b) = length (memory.cells h b))
  /\ (forall md ln b i,
        memory.File_Module f = Some md -> memory.Mod_Syntax md = Some ln ->
        let before := memory.Before (memory.Line_Comments ln) in
        let suffix := memory.Suffix (memory.Line_Comments ln) in
        (b < length h)%nat ->
        b <> memory.array before
        \/ (i < memory.offset before + memory.len before)%nat
        \/ (memory.offset before + memory.len before + memory.len suffix <= i)%nat ->
        memory.cells h' b !! i = memory.cells h b !! i)
  /\ (modfile.File_Module shown = None ->
      memory.isDeprecated growcap h (Some f) = (h, Some (false, "")))
  /\ (modfile.File_Retract shown = [] ->
      internal.isRetracted (Some shown) resolvedVersion = Some (false, ""))
  /\ (modfile.File_Module shown = None -> modfile.File_Retract shown = [] ->
      internal.PopulateModule r m
      = internal.Returned
          (internal.mkModule (internal.Version m) false "" false "" (internal.Rest m))).
Proof.
  intros Hwf Hp Hf shown h'.
  destruct (lifecycle_returns r shown m resolvedVersion Hf Hp)
    as (Hd & Ht & Hm & _ & Hnoret & Hnone).
  pose proof (isDeprecated_view growcap h f Hwf) as Hview.
  pose proof (isDeprecated_keeps_view growcap h f Hwf) as Hkeep.
  fold h' in Hkeep. fold shown in Hview, Hkeep.
  repeat apply conj.
  - now rewrite Hview.
  - rewrite isRetracted_view, Hkeep. exact Ht.
  - exact Hm.
  - exact Hview.
  - now rewrite isRetracted_view, Hkeep.
  - exact Hkeep.
  - reflexivity.
  - intros b Hb. now apply isDeprecated_lengths.
  - intros md ln b i Hmd Hln before suffix Hb Hout.
    now apply (isDeprecated_frame growcap h f md ln b i Hwf Hmd Hln Hb Hout).
  - intros Hnomod. unfold shown, memory.view in Hnomod. simpl in Hnomod.
    unfold memory.isDeprecated.
    destruct (memory.File_Module f); [discriminate | reflexivity].
  - exact Hnoret.
  - exact Hnone.
Qed.

Lemma lifecycle_analysis_keeps_manifest_witness :
  memory.wellFormed tightHeap tightFile = true
  /\ parsed (memory.view tightHeap tightFile) = true
  /\ memory.isDeprecated doubling tightHeap (Some tightFile)
     = ((tightHeap
         ++ [[lineComment "// Module m."; lineComment "// Deprecated: use baz instead";
              lineComment "// Deprecated: gone"; memory.zero]])%list,
        Some (true, "use baz instead"))
  /\ memory.view (fst (memory.isDeprecated doubling tightHeap (Some tightFile)))
       tightFile
     = memory.view tightHeap tightFile.
Proof.
  split; [reflexivity|]. split; [reflexivity|]. split; [vm_compute; reflexivity|].
  refine (proj1 (proj2 (proj2 (proj2 (proj2 (proj2
            (lifecycle_analysis_keeps_manifest doubling tightHeap tightFile
               (internal.mkRawLatestInfo "example.com/m" "v1.9.0"
                  (Some (memory.view tightHeap tightFile)))
               (sampleModule "v1.1.0") "v1.1.0" eq_refl eq_refl eq_refl))))))).
Defined.
